(** * Tileset2D: the tile cache, tree builder and refinement strategies

    A shallow embedding of [Tileset2D] (tileset-2d.ts) and of the three
    built-in refinement strategies.

    - Tile headers are JavaScript objects with identity: they live in a
      heap indexed by references, and the cache, the selection, [parent]
      and [children] hold references.  A header that leaves the cache stays
      in the heap, so stale links and evicted-but-selected headers are
      represented as the program has them.
    - The cache is a JavaScript [Map]: an association list in insertion
      order.
    - Code that throws (a failed [assert], a property access on
      [undefined]) or that would never return (a walk over cyclic links)
      yields [None].
    - Host callbacks and calls into the header's loader are recorded in an
      event log.
    - A user-supplied refinement function is arbitrary JavaScript; the
      embedding covers the three built-in strategies. *)

From Stdlib Require Import ZArith List Bool Lia Arith QArith Qround Permutation Sorted.
From Stdlib Require String Ascii Decimal DecimalString DecimalZ.
Import ListNotations.

Open Scope Z_scope.

(** ** Small utilities *)

Definition bind {A B : Type} (m : option A) (f : A -> option B) : option B :=
  match m with
  | Some a => f a
  | None => None
  end.

Notation "x <- m ;; k" := (bind m (fun x => k))
  (at level 61, m at next level, right associativity).
Notation "' p <- m ;; k" := (bind m (fun x => match x with p => k end))
  (at level 61, p pattern, m at next level, right associativity).

(** A [for ... of] loop whose body may fail. *)
Fixpoint foldM {A S : Type} (f : A -> S -> option S) (l : list A) (s : S)
  : option S :=
  match l with
  | [] => Some s
  | a :: l' => s' <- f a s ;; foldM f l' s'
  end.

(** ** Data model *)

Record TileIndex : Type := mkIndex { ix : Z; iy : Z; iz : Z }.

(** [getTileCacheKey] renders the index as the string x-y-z.  The rendering
    is one-to-one on integer coordinates; the key of an index is kept as the
    triple, and [key_text] below gives its text. *)
Definition CacheKey : Type := (Z * Z * Z)%type.

Definition key_eqb (a b : CacheKey) : bool :=
  match a, b with
  | (x1, y1, z1), (x2, y2, z2) => (x1 =? x2) && (y1 =? y2) && (z1 =? z2)
  end.

Definition TileRef : Type := nat.

Inductive LoadState : Type := Unloaded | Loading | Loaded | Errored.

Definition Payload : Type := nat.

(* bit masks *)
Definition TILE_STATE_VISITED : Z := 1.
Definition TILE_STATE_VISIBLE : Z := 2.

(** The fields of a tile header that tileset-2d.ts reads and writes.
    [state] is [undefined] on a fresh header; [undefined | m] is [m] and
    [undefined & m] is [0], so it is represented by [0]. *)
Record Tile2DHeader : Type := mkTile {
  index : TileIndex;
  zoom : Z;
  isVisible : bool;
  isSelected : bool;
  parent : option TileRef;
  children : list TileRef;
  state : Z;
  content : option Payload;
  load_state : LoadState;
  needs_reload : bool;
  byteLength : Z
}.

Definition with_zoom (v : Z) (t : Tile2DHeader) : Tile2DHeader :=
  mkTile (index t) v (isVisible t) (isSelected t) (parent t) (children t)
         (state t) (content t) (load_state t) (needs_reload t) (byteLength t).
Definition with_isVisible (v : bool) (t : Tile2DHeader) : Tile2DHeader :=
  mkTile (index t) (zoom t) v (isSelected t) (parent t) (children t)
         (state t) (content t) (load_state t) (needs_reload t) (byteLength t).
Definition with_isSelected (v : bool) (t : Tile2DHeader) : Tile2DHeader :=
  mkTile (index t) (zoom t) (isVisible t) v (parent t) (children t)
         (state t) (content t) (load_state t) (needs_reload t) (byteLength t).
Definition with_parent (v : option TileRef) (t : Tile2DHeader) : Tile2DHeader :=
  mkTile (index t) (zoom t) (isVisible t) (isSelected t) v (children t)
         (state t) (content t) (load_state t) (needs_reload t) (byteLength t).
Definition with_children (v : list TileRef) (t : Tile2DHeader) : Tile2DHeader :=
  mkTile (index t) (zoom t) (isVisible t) (isSelected t) (parent t) v
         (state t) (content t) (load_state t) (needs_reload t) (byteLength t).
Definition with_state (v : Z) (t : Tile2DHeader) : Tile2DHeader :=
  mkTile (index t) (zoom t) (isVisible t) (isSelected t) (parent t) (children t)
         v (content t) (load_state t) (needs_reload t) (byteLength t).
Definition with_load (c : option Payload) (l : LoadState) (n : bool) (b : Z)
  (t : Tile2DHeader) : Tile2DHeader :=
  mkTile (index t) (zoom t) (isVisible t) (isSelected t) (parent t) (children t)
         (state t) c l n b.

(** Modelled from the spec: the constructor of the tile header class
    (tile-2d-header.ts is not among the sources).  A new header is unloaded,
    has no content, no parent and an empty [children] collection. *)
Definition new_Tile2DHeader (i : TileIndex) : Tile2DHeader :=
  mkTile i 0 false false None [] 0 None Unloaded false 0.

(** Modelled from the spec: the header's [isLoaded], [isLoading] and
    [needsReload] getters, read off [load_state] and [needs_reload]. *)
Definition isLoaded (t : Tile2DHeader) : bool :=
  match load_state t with Loaded => true | _ => false end.
Definition isLoading (t : Tile2DHeader) : bool :=
  match load_state t with Loading => true | _ => false end.
Definition needsReload (t : Tile2DHeader) : bool := needs_reload t.

(** The test [tile.isLoaded || tile.content] of the placeholder searches. *)
Definition hasData (t : Tile2DHeader) : bool :=
  isLoaded t || match content t with Some _ => true | None => false end.

(** ** The heap of tile headers *)

Record Heap : Type := mkHeap { cell :> TileRef -> Tile2DHeader; size : nat }.

Definition upd (r : TileRef) (f : Tile2DHeader -> Tile2DHeader) (h : Heap) : Heap :=
  mkHeap (fun r' => if Nat.eqb r' r then f (h r) else h r') (size h).

Definition alloc (t : Tile2DHeader) (h : Heap) : Heap :=
  mkHeap (fun r' => if Nat.eqb r' (size h) then t else h r') (S (size h)).

Definition empty_heap : Heap := mkHeap (fun _ => new_Tile2DHeader (mkIndex 0 0 0)) 0.

(** Modelled from the spec: [abort] cancels a load that is running and is a
    no-op on a settled header. *)
Definition abort_tile (t : Tile2DHeader) : Tile2DHeader :=
  if isLoading t
  then with_load (content t) Unloaded (needs_reload t) (byteLength t) t
  else t.

(** Modelled from the spec: [setNeedsReload] marks the header for a fresh
    load and keeps the content it displays. *)
Definition setNeedsReload_tile (t : Tile2DHeader) : Tile2DHeader :=
  with_load (content t) (load_state t) true (byteLength t) t.

(** Modelled from the spec: [loadData] begins loading; the header is
    [Loading] until the external load resolves, and the reload request it
    answers is consumed. *)
Definition loadData_tile (t : Tile2DHeader) : Tile2DHeader :=
  with_load (content t) Loading false (byteLength t) t.

(** ** The cache: a Map in insertion order *)

Definition Cache : Type := list (CacheKey * TileRef).

Fixpoint map_get (k : CacheKey) (m : Cache) : option TileRef :=
  match m with
  | [] => None
  | (k', v) :: m' => if key_eqb k k' then Some v else map_get k m'
  end.

(** [Map.set] keeps the position of a key that is present and appends a new
    one. *)
Fixpoint map_set (k : CacheKey) (v : TileRef) (m : Cache) : Cache :=
  match m with
  | [] => [(k, v)]
  | (k', v') :: m' =>
      if key_eqb k k' then (k', v) :: m' else (k', v') :: map_set k v m'
  end.

Definition map_delete (k : CacheKey) (m : Cache) : Cache :=
  filter (fun e => negb (key_eqb k (fst e))) m.

Definition map_values (m : Cache) : list TileRef := map snd m.
Definition map_size (m : Cache) : Z := Z.of_nat (length m).

(** ** The text of a cache key *)

(** The text of an integer in a template literal: its decimal digits, after
    a minus sign when it is negative.  (JavaScript prints a number this way
    as long as its magnitude is below 10^21.) *)
Definition number_text (n : Z) : String.string :=
  DecimalString.NilZero.string_of_int (Z.to_int n).

(** The character [-]. *)
Definition hyphen : Ascii.ascii := Ascii.ascii_of_nat 45.

(** The template literal of [getTileCacheKey]: x, y and z separated by
    hyphens. *)
Definition getTileCacheKey_text (i : TileIndex) : String.string :=
  String.append (number_text (ix i))
    (String.String hyphen
       (String.append (number_text (iy i))
          (String.String hyphen (number_text (iz i))))).

(** The text that a key kept as a triple stands for. *)
Definition key_text (k : CacheKey) : String.string :=
  match k with
  | (x, y, z) =>
      String.append (number_text x)
        (String.String hyphen
           (String.append (number_text y)
              (String.String hyphen (number_text z))))
  end.

Module Text.
Import String.
(** What a template literal prints for a property that is missing. *)
Definition undefined : string := "undefined"%string.
End Text.

(** The template literal of [getTileCacheKey] on an object that has no [x],
    [y] or [z]. *)
Definition undefined_key_text : String.string :=
  String.append Text.undefined
    (String.String hyphen
       (String.append Text.undefined
          (String.String hyphen Text.undefined))).

(** [Map.get] with the key given as text. *)
Fixpoint map_get_text (k : String.string) (m : Cache) : option TileRef :=
  match m with
  | [] => None
  | (k', v) :: m' =>
      if String.eqb k (key_text k') then Some v else map_get_text k m'
  end.

(** ** Options *)

Inductive JSNumber : Type := Finite (q : Q) | PosInfinity | NegInfinity | NaN.

Inductive RefinementStrategy : Type :=
  | STRATEGY_NEVER | STRATEGY_REPLACE | STRATEGY_DEFAULT.

(** The options the tileset reads itself ([None]: not given).  Tile size,
    extent and zoom offset only travel to the index generator. *)
Record Tileset2DProps : Type := mkProps {
  maxCacheSize : option Z;
  maxCacheByteSize : option Z;
  refinementStrategy : option RefinementStrategy;
  maxZoom : option JSNumber;
  minZoom : option JSNumber;
  maxRequests : option Z
}.

Definition or_else {A : Type} (new old : option A) : option A :=
  match new with Some _ => new | None => old end.

(** [Object.assign(target, source)]: the properties [source] has replace
    those of [target]. *)
Definition Object_assign (target source : Tileset2DProps) : Tileset2DProps :=
  mkProps (or_else (maxCacheSize source) (maxCacheSize target))
          (or_else (maxCacheByteSize source) (maxCacheByteSize target))
          (or_else (refinementStrategy source) (refinementStrategy target))
          (or_else (maxZoom source) (maxZoom target))
          (or_else (minZoom source) (minZoom target))
          (or_else (maxRequests source) (maxRequests target)).

(** JavaScript truthiness of an optional number. *)
Definition truthy (v : option Z) : bool :=
  match v with Some n => negb (n =? 0) | None => false end.

Definition Number_isFinite (v : option JSNumber) : bool :=
  match v with Some (Finite _) => true | _ => false end.

(** ** The tileset *)

Definition Viewport : Type := nat.
Definition Matrix4 : Type := list Z.

Definition identity_Matrix4 : Matrix4 :=
  [1; 0; 0; 0;  0; 1; 0; 0;  0; 0; 1; 0;  0; 0; 0; 1].

(** [new Matrix4(m)]: the identity when no matrix is given. *)
Definition new_Matrix4 (m : option Matrix4) : Matrix4 :=
  match m with Some a => a | None => identity_Matrix4 end.

Fixpoint Matrix4_equals (a b : Matrix4) : bool :=
  match a, b with
  | [], [] => true
  | x :: a', y :: b' => (x =? y) && Matrix4_equals a' b'
  | _, _ => false
  end.

(** Calls that leave the tileset: the host callbacks and the header's
    loader interface. *)
Inductive Event : Type :=
  | LoadData (tile : TileRef)
  | Abort (tile : TileRef)
  | OnTileLoad (tile : TileRef)
  | OnTileUnload (tile : TileRef)
  | OnTileError (tile : TileRef).

Record Tileset2D : Type := mkTileset {
  opts : Tileset2DProps;
  _cache : Cache;
  _dirty : bool;
  _tiles : list TileRef;
  _cacheByteSize : Z;
  _viewport : option Viewport;
  _selectedTiles : option (list TileRef);
  _frameNumber : Z;
  _modelMatrix : Matrix4;
  _maxZoom : option Z;
  _minZoom : option Z;
  heap : Heap;
  log : list Event
}.

Definition with_opts (v : Tileset2DProps) (s : Tileset2D) : Tileset2D :=
  mkTileset v (_cache s) (_dirty s) (_tiles s) (_cacheByteSize s) (_viewport s)
    (_selectedTiles s) (_frameNumber s) (_modelMatrix s) (_maxZoom s)
    (_minZoom s) (heap s) (log s).
Definition with_cache (v : Cache) (s : Tileset2D) : Tileset2D :=
  mkTileset (opts s) v (_dirty s) (_tiles s) (_cacheByteSize s) (_viewport s)
    (_selectedTiles s) (_frameNumber s) (_modelMatrix s) (_maxZoom s)
    (_minZoom s) (heap s) (log s).
Definition with_dirty (v : bool) (s : Tileset2D) : Tileset2D :=
  mkTileset (opts s) (_cache s) v (_tiles s) (_cacheByteSize s) (_viewport s)
    (_selectedTiles s) (_frameNumber s) (_modelMatrix s) (_maxZoom s)
    (_minZoom s) (heap s) (log s).
Definition with_tiles (v : list TileRef) (s : Tileset2D) : Tileset2D :=
  mkTileset (opts s) (_cache s) (_dirty s) v (_cacheByteSize s) (_viewport s)
    (_selectedTiles s) (_frameNumber s) (_modelMatrix s) (_maxZoom s)
    (_minZoom s) (heap s) (log s).
Definition with_cacheByteSize (v : Z) (s : Tileset2D) : Tileset2D :=
  mkTileset (opts s) (_cache s) (_dirty s) (_tiles s) v (_viewport s)
    (_selectedTiles s) (_frameNumber s) (_modelMatrix s) (_maxZoom s)
    (_minZoom s) (heap s) (log s).
Definition with_viewport (v : option Viewport) (s : Tileset2D) : Tileset2D :=
  mkTileset (opts s) (_cache s) (_dirty s) (_tiles s) (_cacheByteSize s) v
    (_selectedTiles s) (_frameNumber s) (_modelMatrix s) (_maxZoom s)
    (_minZoom s) (heap s) (log s).
Definition with_selectedTiles (v : option (list TileRef)) (s : Tileset2D)
  : Tileset2D :=
  mkTileset (opts s) (_cache s) (_dirty s) (_tiles s) (_cacheByteSize s)
    (_viewport s) v (_frameNumber s) (_modelMatrix s) (_maxZoom s)
    (_minZoom s) (heap s) (log s).
Definition with_frameNumber (v : Z) (s : Tileset2D) : Tileset2D :=
  mkTileset (opts s) (_cache s) (_dirty s) (_tiles s) (_cacheByteSize s)
    (_viewport s) (_selectedTiles s) v (_modelMatrix s) (_maxZoom s)
    (_minZoom s) (heap s) (log s).
Definition with_modelMatrix (v : Matrix4) (s : Tileset2D) : Tileset2D :=
  mkTileset (opts s) (_cache s) (_dirty s) (_tiles s) (_cacheByteSize s)
    (_viewport s) (_selectedTiles s) (_frameNumber s) v (_maxZoom s)
    (_minZoom s) (heap s) (log s).
Definition with_maxZoom (v : option Z) (s : Tileset2D) : Tileset2D :=
  mkTileset (opts s) (_cache s) (_dirty s) (_tiles s) (_cacheByteSize s)
    (_viewport s) (_selectedTiles s) (_frameNumber s) (_modelMatrix s) v
    (_minZoom s) (heap s) (log s).
Definition with_minZoom (v : option Z) (s : Tileset2D) : Tileset2D :=
  mkTileset (opts s) (_cache s) (_dirty s) (_tiles s) (_cacheByteSize s)
    (_viewport s) (_selectedTiles s) (_frameNumber s) (_modelMatrix s)
    (_maxZoom s) v (heap s) (log s).
Definition with_heap (v : Heap) (s : Tileset2D) : Tileset2D :=
  mkTileset (opts s) (_cache s) (_dirty s) (_tiles s) (_cacheByteSize s)
    (_viewport s) (_selectedTiles s) (_frameNumber s) (_modelMatrix s)
    (_maxZoom s) (_minZoom s) v (log s).
Definition emit (e : Event) (s : Tileset2D) : Tileset2D :=
  mkTileset (opts s) (_cache s) (_dirty s) (_tiles s) (_cacheByteSize s)
    (_viewport s) (_selectedTiles s) (_frameNumber s) (_modelMatrix s)
    (_maxZoom s) (_minZoom s) (heap s) (log s ++ [e]).

Definition modify (r : TileRef) (f : Tile2DHeader -> Tile2DHeader)
  (s : Tileset2D) : Tileset2D :=
  with_heap (upd r f (heap s)) s.

(** *** Public API *)

(** [setOptions]: [Math.floor] and [Math.ceil] are applied to a finite
    number only. *)
Definition setOptions (o : Tileset2DProps) (s : Tileset2D) : Tileset2D :=
  let s1 := with_opts (Object_assign (opts s) o) s in
  let s2 := if Number_isFinite (maxZoom o)
            then match maxZoom o with
                 | Some (Finite q) => with_maxZoom (Some (Qfloor q)) s1
                 | _ => s1
                 end
            else s1 in
  if Number_isFinite (minZoom o)
  then match minZoom o with
       | Some (Finite q) => with_minZoom (Some (Qceiling q)) s2
       | _ => s2
       end
  else s2.

(** The constructor. *)
Definition new_Tileset2D (o : Tileset2DProps) : Tileset2D :=
  setOptions o
    (mkTileset o [] false [] 0 None None 0 identity_Matrix4 None None
       empty_heap []).

(** The [needsReload] getter of the tileset. *)
Definition tileset_needsReload (s : Tileset2D) : bool :=
  match _selectedTiles s with
  | Some sel => existsb (fun tile => needsReload (heap s tile)) sel
  | None => false
  end.

(** The [isLoaded] getter of the tileset. *)
Definition tileset_isLoaded (s : Tileset2D) : bool :=
  match _selectedTiles s with
  | Some sel => forallb (fun tile => isLoaded (heap s tile)) sel
  | None => false
  end.

(** [finalize]. *)
Definition finalize (s : Tileset2D) : Tileset2D :=
  let s1 := fold_left
              (fun s tile =>
                 if isLoading (heap s tile)
                 then emit (Abort tile) (modify tile abort_tile s)
                 else s)
              (map_values (_cache s)) s in
  with_selectedTiles None (with_tiles [] (with_cache [] s1)).

Definition includes (l : list TileRef) (tile : TileRef) : bool :=
  existsb (Nat.eqb tile) l.

(** [reloadAll].  The loop runs over the keys the Map holds; deleting the
    entry being visited does not disturb the iteration, and a Map has one
    entry per key, so [get(cacheKey)] is the value of the entry visited. *)
Fixpoint reloadAll_loop (entries : Cache) (s : Tileset2D) : Tileset2D :=
  match entries with
  | [] => s
  | (cacheKey, tile) :: rest =>
      let selected := match _selectedTiles s with
                      | Some sel => includes sel tile
                      | None => false
                      end in
      if negb selected
      then reloadAll_loop rest (with_cache (map_delete cacheKey (_cache s)) s)
      else reloadAll_loop rest (modify tile setNeedsReload_tile s)
  end.

Definition reloadAll (s : Tileset2D) : Tileset2D :=
  reloadAll_loop (_cache s) s.

(** *** Public interface for subclassing *)

Definition getTileCacheKey (i : TileIndex) : CacheKey := (ix i, iy i, iz i).

Definition getTileZoom (i : TileIndex) : Z := iz i.

(** [Math.floor (x / 2)] is [Z.div], which rounds towards minus infinity. *)
Definition getParentIndex (tileIndex : TileIndex) : TileIndex :=
  mkIndex (ix tileIndex / 2) (iy tileIndex / 2) (iz tileIndex - 1).

(** *** Private methods *)

(** [getTileMetadata]: [assert(this._viewport)] throws when no viewport is
    stored.  The metadata itself (the bounding box, from the external
    [tileToBoundingBox]) is not represented. *)
Definition getTileMetadata (s : Tileset2D) : option unit :=
  match _viewport s with
  | Some _ => Some tt
  | None => None
  end.

(** [_getTile].  Looking a header up re-triggers its load when it is flagged
    for reload, whether or not [create] is set.  Creating a header calls
    [getTileMetadata], which throws when no viewport is stored. *)
Definition _getTile (i : TileIndex) (create : bool) (s : Tileset2D)
  : option (option TileRef * Tileset2D) :=
  let cacheKey := getTileCacheKey i in
  match map_get cacheKey (_cache s) with
  | None =>
      if create then
        _ <- getTileMetadata s ;;
        let tile := size (heap s) in
        let s1 := with_heap
                    (alloc (with_zoom (getTileZoom i) (new_Tile2DHeader i)) (heap s))
                    s in
        let s2 := with_dirty true (with_cache (map_set cacheKey tile (_cache s1)) s1) in
        Some (Some tile, emit (LoadData tile) (modify tile loadData_tile s2))
      else Some (None, s)
  | Some tile =>
      if needsReload (heap s tile)
      then Some (Some tile, emit (LoadData tile) (modify tile loadData_tile s))
      else Some (Some tile, s)
  end.

(** [_getTile] as the reload branch of [update] calls it: on the object
    [{index: tile.index}] and without [create].  The object has no [x], [y]
    or [z], so [getTileCacheKey] gives [undefined_key_text]; no header is
    created, and a header that is found is treated as in [_getTile].  (No
    key of the cache has this text, so nothing is ever found:
    [getTile_wrapped_misses].) *)
Definition _getTile_wrapped (s : Tileset2D) : option TileRef * Tileset2D :=
  match map_get_text undefined_key_text (_cache s) with
  | None => (None, s)
  | Some tile =>
      if needsReload (heap s tile)
      then (Some tile, emit (LoadData tile) (modify tile loadData_tile s))
      else (Some tile, s)
  end.

Definition default_zoom (z : option Z) : Z :=
  match z with Some v => v | None => 0 end.

(** The loop of [_getNearestAncestor].  [n] counts the iterations left: the
    level falls by one per iteration, so the guard
    [getTileZoom index > _minZoom] holds exactly [n] more times when [n] is
    the distance of the level from [_minZoom].  Without [create], [_getTile]
    does not throw ([getTile_lookup_returns]), so the last branch is never
    taken. *)
Fixpoint nearest_loop (n : nat) (i : TileIndex) (s : Tileset2D)
  : option TileRef * Tileset2D :=
  match n with
  | O => (None, s)
  | S n' =>
      let i' := getParentIndex i in
      match _getTile i' false s with
      | Some (Some p, s') => (Some p, s')
      | Some (None, s') => nearest_loop n' i' s'
      | None => (None, s)
      end
  end.

Definition _getNearestAncestor (tile : TileRef) (s : Tileset2D)
  : option TileRef * Tileset2D :=
  let i := index (heap s tile) in
  nearest_loop (Z.to_nat (getTileZoom i - default_zoom (_minZoom s))) i s.

Definition reset_links (t : Tile2DHeader) : Tile2DHeader :=
  with_children [] (with_parent None t).

Definition push_child (c : TileRef) (t : Tile2DHeader) : Tile2DHeader :=
  with_children (children t ++ [c]) t.

Definition link_tile (s : Tileset2D) (tile : TileRef) : Tileset2D :=
  let (p, s1) := _getNearestAncestor tile s in
  let s2 := modify tile (with_parent p) s1 in
  match p with
  | Some pr => modify pr (push_child tile) s2
  | None => s2
  end.

(** [_rebuildTree]. *)
Definition _rebuildTree (s : Tileset2D) : Tileset2D :=
  let values := map_values (_cache s) in
  let s1 := fold_left (fun s tile => modify tile reset_links s) values s in
  fold_left link_tile values s1.

(** ** Refinement strategies *)

Definition has_bit (v mask : Z) : bool := negb (Z.land v mask =? 0).

Definition or_state (mask : Z) (t : Tile2DHeader) : Tile2DHeader :=
  with_state (Z.lor (state t) mask) t.

(** The walk of [getPlaceholderInAncestors].  A walk that visits more
    headers than the heap holds has entered a cycle of [parent] links and
    never ends; [fuel] is the number of headers still to visit. *)
Fixpoint ancestors_walk (fuel : nat) (tile : option TileRef) (h : Heap)
  : option (bool * Heap) :=
  match tile with
  | None => Some (false, h)
  | Some t =>
      match fuel with
      | O => None
      | S fuel' =>
          if hasData (h t)
          then Some (true, upd t (or_state TILE_STATE_VISIBLE) h)
          else ancestors_walk fuel' (parent (h t)) h
      end
  end.

Definition getPlaceholderInAncestors (startTile : TileRef) (h : Heap)
  : option (bool * Heap) :=
  ancestors_walk (S (size h)) (Some startTile) h.

(** The recursion of [getPlaceholderInChildren]; [fuel] bounds its depth, as
    a path of [children] links longer than the heap holds headers repeats
    one and the recursion never ends. *)
Fixpoint children_walk (fuel : nat) (tile : TileRef) (h : Heap) : option Heap :=
  match fuel with
  | O => None
  | S fuel' =>
      foldM (fun child (h : Heap) =>
               if hasData (h child)
               then Some (upd child (or_state TILE_STATE_VISIBLE) h)
               else children_walk fuel' child h)
            (children (h tile)) h
  end.

Definition getPlaceholderInChildren (tile : TileRef) (h : Heap) : option Heap :=
  children_walk (S (size h)) tile h.

Definition clear_states (allTiles : list TileRef) (h : Heap) : Heap :=
  fold_left (fun (h : Heap) tile => upd tile (with_state 0) h) allTiles h.

Definition show_from_state (tile : TileRef) (h : Heap) : Heap :=
  upd tile (fun t => with_isVisible (has_bit (state t) TILE_STATE_VISIBLE) t) h.

Definition default_step (tile : TileRef) (h : Heap) : option Heap :=
  if isSelected (h tile) then
    '(found, h1) <- getPlaceholderInAncestors tile h ;;
    if found then Some h1 else getPlaceholderInChildren tile h1
  else Some h.

(** [updateTileStateDefault]: the strategy best-available. *)
Definition updateTileStateDefault (allTiles : list TileRef) (h : Heap)
  : option Heap :=
  let h1 := clear_states allTiles h in
  h2 <- foldM default_step allTiles h1 ;;
  Some (fold_left (fun (h : Heap) tile => show_from_state tile h) allTiles h2).

(** [Array.prototype.sort] with the comparator [t1.zoom - t2.zoom] is a
    stable sort by level: an insertion sort that puts a header in front of
    the first one whose level is not smaller. *)
Fixpoint insert_by_zoom (h : Heap) (t : TileRef) (l : list TileRef)
  : list TileRef :=
  match l with
  | [] => [t]
  | u :: l' =>
      if zoom (h t) <=? zoom (h u) then t :: u :: l'
      else u :: insert_by_zoom h t l'
  end.

Fixpoint sort_by_zoom (h : Heap) (l : list TileRef) : list TileRef :=
  match l with
  | [] => []
  | t :: l' => insert_by_zoom h t (sort_by_zoom h l')
  end.

Definition replace_ancestors_step (tile : TileRef) (h : Heap) : option Heap :=
  if isSelected (h tile) then
    '(_, h1) <- getPlaceholderInAncestors tile h ;; Some h1
  else Some h.

Definition hide_children (tile : TileRef) (h : Heap) : Heap :=
  fold_left (fun (h : Heap) child => upd child (with_state TILE_STATE_VISITED) h)
            (children (h tile)) h.

Definition replace_step (tile : TileRef) (h : Heap) : option Heap :=
  let h1 := show_from_state tile h in
  if isVisible (h1 tile) || has_bit (state (h1 tile)) TILE_STATE_VISITED
  then Some (hide_children tile h1)
  else if isSelected (h1 tile) then getPlaceholderInChildren tile h1
  else Some h1.

(** [updateTileStateReplace]: the strategy no-overlap. *)
Definition updateTileStateReplace (allTiles : list TileRef) (h : Heap)
  : option Heap :=
  let h1 := clear_states allTiles h in
  h2 <- foldM replace_ancestors_step allTiles h1 ;;
  let sortedTiles := sort_by_zoom h2 allTiles in
  foldM replace_step sortedTiles h2.

Definition STRATEGIES (strategy : RefinementStrategy)
  : list TileRef -> Heap -> option Heap :=
  match strategy with
  | STRATEGY_DEFAULT => updateTileStateDefault
  | STRATEGY_REPLACE => updateTileStateReplace
  | STRATEGY_NEVER => fun _ h => Some h
  end.

(** ** Tile states, pruning and eviction *)

(** The first loop of [updateTileStates]: save the visibility of each
    resident header, then clear its flags. *)
Fixpoint save_and_reset (values : list TileRef) (h : Heap) : list bool * Heap :=
  match values with
  | [] => ([], h)
  | tile :: rest =>
      let v := isVisible (h tile) in
      let h1 := upd tile (fun t => with_isVisible false (with_isSelected false t)) h in
      let (vs, h2) := save_and_reset rest h1 in
      (v :: vs, h2)
  end.

Definition select_tiles (sel : list TileRef) (h : Heap) : Heap :=
  fold_left (fun (h : Heap) tile =>
               upd tile (fun t => with_isVisible true (with_isSelected true t)) h)
            sel h.

(** The last loop of [updateTileStates]. *)
Fixpoint visibility_changed (visibilities : list bool) (values : list TileRef)
  (h : Heap) : bool :=
  match visibilities, values with
  | v :: vs, tile :: rest =>
      if negb (Bool.eqb v (isVisible (h tile))) then true
      else visibility_changed vs rest h
  | _, _ => false
  end.

Definition strategy_of (o : Tileset2DProps) : RefinementStrategy :=
  match refinementStrategy o with
  | Some st => st
  | None => STRATEGY_DEFAULT
  end.

(** [updateTileStates]: returns whether any visibility changed. *)
Definition updateTileStates (s : Tileset2D) : option (bool * Tileset2D) :=
  match _selectedTiles s with
  | None => None
  | Some sel =>
      let values := map_values (_cache s) in
      let (visibilities, h1) := save_and_reset values (heap s) in
      let h2 := select_tiles sel h1 in
      h3 <- STRATEGIES (strategy_of (opts s)) values h2 ;;
      Some (visibility_changed visibilities values h3, with_heap h3 s)
  end.

(** [a > b] where [b] may be [undefined]: false then. *)
Definition gt_opt (a : Z) (b : option Z) : bool :=
  match b with Some m => m <? a | None => false end.

Definition positive_opt (a : option Z) : bool :=
  match a with Some m => 0 <? m | None => false end.

(** The [while] loop of [_pruneRequests]. *)
Fixpoint prune_loop (maxReq : option Z) (ongoingRequestCount : Z)
  (abortCandidates : list TileRef) (s : Tileset2D) : Tileset2D :=
  match abortCandidates with
  | [] => s
  | tile :: rest =>
      if positive_opt maxReq && gt_opt ongoingRequestCount maxReq
      then prune_loop maxReq (ongoingRequestCount - 1) rest
             (emit (Abort tile) (modify tile abort_tile s))
      else s
  end.

Definition abortCandidates (s : Tileset2D) : list TileRef :=
  filter (fun tile => isLoading (heap s tile)
                      && negb (isSelected (heap s tile))
                      && negb (isVisible (heap s tile)))
         (map_values (_cache s)).

Definition ongoingRequestCount (s : Tileset2D) : Z :=
  Z.of_nat (length (filter (fun tile => isLoading (heap s tile))
                           (map_values (_cache s)))).

(** [_pruneRequests]. *)
Definition _pruneRequests (s : Tileset2D) : Tileset2D :=
  prune_loop (maxRequests (opts s)) (ongoingRequestCount s) (abortCandidates s) s.

Inductive Limit : Type := Lim (n : Z) | Infinity.

Definition exceeds (a : Z) (l : Limit) : bool :=
  match l with Lim n => n <? a | Infinity => false end.

Definition DEFAULT_CACHE_SCALE : Z := 5.

Definition limit_of (v : option Z) (otherwise : Limit) : Limit :=
  match v with
  | Some n => if n =? 0 then otherwise else Lim n
  | None => otherwise
  end.

Definition effective_maxCacheSize (o : Tileset2DProps) (sel : list TileRef)
  : Limit :=
  limit_of (maxCacheSize o)
    (if truthy (maxCacheByteSize o) then Infinity
     else Lim (DEFAULT_CACHE_SCALE * Z.of_nat (length sel))).

Definition effective_maxCacheByteSize (o : Tileset2DProps) : Limit :=
  limit_of (maxCacheByteSize o) Infinity.

Definition within_limits (maxSize maxBytes : Limit) (s : Tileset2D) : bool :=
  negb (exceeds (map_size (_cache s)) maxSize)
  && negb (exceeds (_cacheByteSize s) maxBytes).

Definition evict (cacheKey : CacheKey) (tile : TileRef) (s : Tileset2D)
  : Tileset2D :=
  let s1 := with_cacheByteSize
              (_cacheByteSize s
               - (if truthy (maxCacheByteSize (opts s))
                  then byteLength (heap s tile) else 0)) s in
  emit (OnTileUnload tile) (with_cache (map_delete cacheKey (_cache s1)) s1).

(** The eviction scan of [_resizeCache], over the entries the Map held when
    the scan began: only the entry being visited is ever deleted, so each of
    them is visited unless the scan breaks. *)
Fixpoint evict_scan (entries : Cache) (maxSize maxBytes : Limit)
  (s : Tileset2D) : Tileset2D :=
  match entries with
  | [] => s
  | (cacheKey, tile) :: rest =>
      let s1 := if negb (isVisible (heap s tile)) then evict cacheKey tile s
                else s in
      if within_limits maxSize maxBytes s1 then s1
      else evict_scan rest maxSize maxBytes s1
  end.

(** [_resizeCache]. *)
Definition _resizeCache (s : Tileset2D) : option Tileset2D :=
  match _selectedTiles s with
  | None => None
  | Some sel =>
      let maxSize := effective_maxCacheSize (opts s) sel in
      let maxBytes := effective_maxCacheByteSize (opts s) in
      let overflown := exceeds (map_size (_cache s)) maxSize
                       || exceeds (_cacheByteSize s) maxBytes in
      let s1 := if overflown
                then with_dirty true
                       (_rebuildTree (evict_scan (_cache s) maxSize maxBytes s))
                else s in
      Some (if _dirty s1
            then with_dirty false
                   (with_tiles
                      (sort_by_zoom (heap s1) (map_values (_cache s1))) s1)
            else s1)
  end.

(** ** The update cycle *)

(** [tileIndices.map(index => this._getTile(index, true))].  An element
    that is [undefined] makes [updateTileStates] throw in the same call,
    when its second loop writes [tile.isSelected]; with [create] set,
    [_getTile] yields a header whenever it returns. *)
Fixpoint get_tiles (tileIndices : list TileIndex) (s : Tileset2D)
  : option (list TileRef * Tileset2D) :=
  match tileIndices with
  | [] => Some ([], s)
  | i :: rest =>
      '(r, s1) <- _getTile i true s ;;
      match r with
      | Some tile =>
          '(tiles, s2) <- get_tiles rest s1 ;; Some (tile :: tiles, s2)
      | None => None
      end
  end.

(** [this._selectedTiles.map(tile => this._getTile({index: tile.index}))].
    An element that is [undefined] makes [updateTileStates] throw in the
    same call, when its second loop writes [tile.isSelected]. *)
Fixpoint reget_tiles (sel : list TileRef) (s : Tileset2D)
  : option (list TileRef * Tileset2D) :=
  match sel with
  | [] => Some ([], s)
  | tile :: rest =>
      match _getTile_wrapped s with
      | (Some tile', s1) =>
          '(tiles, s2) <- reget_tiles rest s1 ;; Some (tile' :: tiles, s2)
      | (None, _) => None
      end
  end.

Definition viewport_equals (a : Viewport) (b : option Viewport) : bool :=
  match b with Some v => Nat.eqb a v | None => false end.

(** Steps of [update] before the tile states are recomputed.  [tileIndices]
    is what the external index generator returns for this viewport; it is
    consulted only when the viewport or the matrix is new. *)
Definition update_select (viewport : Viewport) (modelMatrix : option Matrix4)
  (tileIndices : list TileIndex) (s : Tileset2D) : option Tileset2D :=
  let modelMatrixAsMatrix4 := new_Matrix4 modelMatrix in
  let isModelMatrixNew :=
    negb (Matrix4_equals modelMatrixAsMatrix4 (_modelMatrix s)) in
  if negb (viewport_equals viewport (_viewport s)) || isModelMatrixNew then
    let s1 := if isModelMatrixNew
              then with_modelMatrix modelMatrixAsMatrix4 s else s in
    let s2 := with_viewport (Some viewport) s1 in
    '(tiles, s3) <- get_tiles tileIndices s2 ;;
    let s4 := with_selectedTiles (Some tiles) s3 in
    Some (if _dirty s4 then _rebuildTree s4 else s4)
  else if tileset_needsReload s then
    match _selectedTiles s with
    | Some sel =>
        '(tiles, s1) <- reget_tiles sel s ;;
        Some (with_selectedTiles (Some tiles) s1)
    | None => None
    end
  else Some s.

(** The state of [update] when it reaches the resize step, with the result
    of [updateTileStates]. *)
Definition update_before_resize (viewport : Viewport)
  (modelMatrix : option Matrix4) (tileIndices : list TileIndex)
  (s : Tileset2D) : option (bool * Tileset2D) :=
  s1 <- update_select viewport modelMatrix tileIndices s ;;
  '(changed, s2) <- updateTileStates s1 ;;
  Some (changed, _pruneRequests s2).

(** [update]; the frame counter it returns is [_frameNumber] of the result. *)
Definition update (viewport : Viewport) (modelMatrix : option Matrix4)
  (tileIndices : list TileIndex) (s : Tileset2D) : option Tileset2D :=
  '(changed, s3) <- update_before_resize viewport modelMatrix tileIndices s ;;
  s4 <- (if _dirty s3 then _resizeCache s3 else Some s3) ;;
  Some (if (changed : bool)
        then with_frameNumber (_frameNumber s4 + 1) s4 else s4).

(** ** Load completion *)

(** Modelled from the spec: the external load of a header resolves; the
    header becomes [Loaded] with its payload and byte length.  The
    [onTileLoad] closure of the constructor then runs. *)
Definition tile_loaded (tile : TileRef) (data : Payload) (bytes : Z)
  (s : Tileset2D) : option Tileset2D :=
  let s1 := modify tile (with_load (Some data) Loaded false bytes) s in
  let s2 := emit (OnTileLoad tile) s1 in
  if truthy (maxCacheByteSize (opts s2))
  then _resizeCache
         (with_cacheByteSize (_cacheByteSize s2 + byteLength (heap s2 tile)) s2)
  else Some s2.

(** Modelled from the spec: the external load fails; the header stays
    resident without content and the host's [onTileError] is called. *)
Definition tile_failed (tile : TileRef) (s : Tileset2D) : Tileset2D :=
  emit (OnTileError tile)
    (modify tile (fun t => with_load (content t) Errored (needs_reload t)
                             (byteLength t) t) s).

(** ** Reachable states *)

Inductive step : Tileset2D -> Tileset2D -> Prop :=
  | step_update : forall viewport modelMatrix tileIndices s s',
      update viewport modelMatrix tileIndices s = Some s' -> step s s'
  | step_setOptions : forall o s, step s (setOptions o s)
  | step_reloadAll : forall s, step s (reloadAll s)
  | step_finalize : forall s, step s (finalize s)
  | step_loaded : forall tile data bytes s s',
      (tile < size (heap s))%nat ->
      isLoading (heap s tile) = true ->
      tile_loaded tile data bytes s = Some s' -> step s s'
  | step_failed : forall tile s,
      (tile < size (heap s))%nat ->
      isLoading (heap s tile) = true ->
      step s (tile_failed tile s).

Inductive reachable : Tileset2D -> Prop :=
  | reach_new : forall o, reachable (new_Tileset2D o)
  | reach_step : forall s s', reachable s -> step s s' -> reachable s'.

(** * Specification vocabulary *)

(** ** Observations of headers and states *)

(** [stable proj h h']: the heaps have the same size and every header
    shows the same [proj]. *)
Definition stable {X : Type} (proj : Tile2DHeader -> X) (h h' : Heap) : Prop :=
  size h' = size h /\ forall r, proj (h' r) = proj (h r).

(** The observations the proofs use: the identity of a header, its links,
    its flags and its load. *)
Definition ident (t : Tile2DHeader) : TileIndex * Z := (index t, zoom t).

Definition links (t : Tile2DHeader) : option TileRef * list TileRef :=
  (parent t, children t).

Definition flags (t : Tile2DHeader) : bool * bool * Z :=
  (isVisible t, isSelected t, state t).

Definition loads (t : Tile2DHeader)
  : option Payload * LoadState * bool * Z :=
  (content t, load_state t, needs_reload t, byteLength t).

(** What survives a change of load state. *)
Definition shape (t : Tile2DHeader)
  : (TileIndex * Z) * (option TileRef * list TileRef) * (bool * bool * Z) :=
  (ident t, links t, flags t).

(** An observation that ignores the scratch fields of the strategies. *)
Definition ignores_marks {X : Type} (proj : Tile2DHeader -> X) : Prop :=
  (forall v t, proj (with_state v t) = proj t) /\
  (forall v t, proj (with_isVisible v t) = proj t).

(** An observation that ignores the two flags [updateTileStates] resets. *)
Definition ignores_flags {X : Type} (proj : Tile2DHeader -> X) : Prop :=
  ignores_marks proj /\ (forall v t, proj (with_isSelected v t) = proj t).

(** The tiles handed to [onTileUnload], in call order. *)
Definition unloads (l : list Event) : list TileRef :=
  flat_map (fun e => match e with OnTileUnload t => [t] | _ => [] end) l.

(** [quiet s s']: nothing but headers and the non-unload part of the log
    differs. *)
Definition quiet (s s' : Tileset2D) : Prop :=
  opts s' = opts s /\ _cache s' = _cache s /\
  _cacheByteSize s' = _cacheByteSize s /\
  _selectedTiles s' = _selectedTiles s /\ _minZoom s' = _minZoom s /\
  _dirty s' = _dirty s /\ _viewport s' = _viewport s /\
  _modelMatrix s' = _modelMatrix s /\ _frameNumber s' = _frameNumber s /\
  unloads (log s') = unloads (log s).

(** Fields that neither eviction nor selection touches. *)
Definition same_settings (s s' : Tileset2D) : Prop :=
  opts s' = opts s /\ _minZoom s' = _minZoom s /\
  _viewport s' = _viewport s /\ _modelMatrix s' = _modelMatrix s /\
  _frameNumber s' = _frameNumber s.

(** [grows s s']: nothing was unloaded or evicted between [s] and [s']. *)
Definition grows (s s' : Tileset2D) : Prop :=
  opts s' = opts s /\ _minZoom s' = _minZoom s /\
  _cacheByteSize s' = _cacheByteSize s /\
  unloads (log s') = unloads (log s) /\
  incl (_cache s) (_cache s').

(** ** Selection, pruning and eviction *)

(** The test [this._selectedTiles.includes(tile)] of [reloadAll], false
    when there is no selection. *)
Definition selected_in (s : Tileset2D) (tile : TileRef) : bool :=
  match _selectedTiles s with
  | Some sel => includes sel tile
  | None => false
  end.

(** How many candidates the [while] loop of [_pruneRequests] aborts. *)
Definition abort_count (maxReq : option Z) (ongoing : Z) (candidates : nat)
  : nat :=
  match maxReq with
  | Some m => if 0 <? m then Nat.min candidates (Z.to_nat (ongoing - m))
              else O
  | None => O
  end.

(** The entries the eviction scan deletes when it visits them. *)
Definition invisible (h : Heap) (e : CacheKey * TileRef) : bool :=
  negb (isVisible (h (snd e))).

Definition all_visible (s : Tileset2D) : Prop :=
  forall tile, In tile (map_values (_cache s)) ->
    isVisible (heap s tile) = true.

(** The cache is within the limits [_resizeCache] computes for the
    selection [sel]. *)
Definition limits_hold (s : Tileset2D) (sel : list TileRef) : Prop :=
  within_limits (effective_maxCacheSize (opts s) sel)
                (effective_maxCacheByteSize (opts s)) s = true.

(** ** The tree *)

(** [a] is the coordinate of a proper ancestor of [i], [n] levels up. *)
Definition ancestor_index (n : nat) (a i : TileIndex) : Prop :=
  (0 < n)%nat /\ a = Nat.iter n getParentIndex i.

(** What every reachable tileset satisfies: the cache is a Map whose keys
    are those of its headers, and the links of the headers point to proper
    ancestors; a resident header is listed by its parent. *)
Record tree_inv (c : Cache) (h : Heap) : Prop := mkTreeInv {
  inv_keys : NoDup (map fst c);
  inv_values : NoDup (map_values c);
  inv_entry : forall k r, In (k, r) c ->
    (r < size h)%nat /\ k = getTileCacheKey (index (h r));
  inv_zoom : forall r, (r < size h)%nat ->
    zoom (h r) = getTileZoom (index (h r));
  inv_parent : forall r p, (r < size h)%nat -> parent (h r) = Some p ->
    (p < size h)%nat /\
    exists n, ancestor_index n (index (h p)) (index (h r));
  inv_child : forall k r p, In (k, r) c -> parent (h r) = Some p ->
    In r (children (h p))
}.

Definition Inv (s : Tileset2D) : Prop := tree_inv (_cache s) (heap s).

(** The state of the second loop of [_rebuildTree] after the tiles [done]. *)
Definition linked (s0 : Tileset2D) (done : list TileRef) (s : Tileset2D)
  : Prop :=
  quiet s0 s /\ stable ident (heap s0) (heap s) /\
  stable flags (heap s0) (heap s) /\
  (forall r, ~ In r (map_values (_cache s0)) ->
     links (heap s r) = links (heap s0 r)) /\
  (forall r p, In r done -> parent (heap s r) = Some p ->
     (exists k, In (k, p) (_cache s0)) /\
     (exists n, ancestor_index n (index (heap s0 p)) (index (heap s0 r))) /\
     In r (children (heap s p))).

(** The links of allocated headers lead to allocated headers, upwards to
    lower levels and downwards to higher ones; [_rebuildTree] only ever
    links a header to a proper ancestor. *)
Definition links_ascend (h : Heap) : Prop :=
  forall r, (r < size h)%nat ->
    (forall p, parent (h r) = Some p ->
       (p < size h)%nat /\ zoom (h p) < zoom (h r)) /\
    (forall c, In c (children (h r)) ->
       (c < size h)%nat /\ zoom (h r) < zoom (h c)).

(** The number of allocated headers below, respectively above, the level
    of [r]: a bound on the length of a walk from [r]. *)
Definition below (h : Heap) (r : TileRef) : nat :=
  length (filter (fun x => zoom (h x) <? zoom (h r)) (seq 0 (size h))).

Definition above (h : Heap) (r : TileRef) : nat :=
  length (filter (fun x => zoom (h r) <? zoom (h x)) (seq 0 (size h))).

(** [up h t u]: [u] is on the ancestor chain of [t], [t] included. *)
Inductive up (h : Heap) : TileRef -> TileRef -> Prop :=
  | up_here : forall t, up h t t
  | up_parent : forall t p u, parent (h t) = Some p -> up h p u -> up h t u.



(** [descends h u d]: [d] is reached from [u] by one or more [children]
    links. *)
Inductive descends (h : Heap) : TileRef -> TileRef -> Prop :=
  | descends_child : forall u c, In c (children (h u)) -> descends h u c
  | descends_step : forall u c d,
      In c (children (h u)) -> descends h c d -> descends h u d.

(** ** The strategies *)

(** Among [allTiles], the VISIBLE bit marks only headers with data. *)
Definition marked_with_data (allTiles : list TileRef) (h : Heap) : Prop :=
  forall u, In u allTiles ->
    has_bit (state (h u)) TILE_STATE_VISIBLE = true -> hasData (h u) = true.

(** The order of the sort by level. *)
Definition level_le (h : Heap) (a b : TileRef) : Prop := zoom (h a) <= zoom (h b).


(** ** Heap extension and the published tile list *)

(** [keeps proj h h']: the headers allocated in [h] are allocated in [h']
    and show the same [proj] there. *)
Definition keeps {X : Type} (proj : Tile2DHeader -> X) (h h' : Heap) : Prop :=
  (size h <= size h')%nat /\
  forall r, (r < size h)%nat -> proj (h' r) = proj (h r).

(** What every reachable tileset satisfies about the list the [tiles]
    getter returns. *)
Definition tiles_inv (s : Tileset2D) : Prop :=
  _dirty s = false /\
  (forall t, In t (_tiles s) -> (t < size (heap s))%nat) /\
  StronglySorted (level_le (heap s)) (_tiles s) /\
  NoDup (_tiles s) /\
  incl (map_values (_cache s)) (_tiles s).

(** ** The links left by the tree rebuild *)

(** The lookups of the loop of [_getNearestAncestor], without the loads
    they may trigger: the first resident header among the [n] nearest
    ancestor coordinates of [i]. *)
Fixpoint ancestor_lookup (n : nat) (i : TileIndex) (c : Cache) : option TileRef :=
  match n with
  | O => None
  | S n' =>
      let i' := getParentIndex i in
      match map_get (getTileCacheKey i') c with
      | Some p => Some p
      | None => ancestor_lookup n' i' c
      end
  end.

(** How many levels lie between a tile and [_minZoom]. *)
Definition levels_above_min (s : Tileset2D) (t : TileRef) : nat :=
  Z.to_nat (getTileZoom (index (heap s t)) - default_zoom (_minZoom s)).

Definition nearest_ancestor (s : Tileset2D) (t : TileRef) : option TileRef :=
  ancestor_lookup (levels_above_min s t) (index (heap s t)) (_cache s).

(** [o] is a link to [p]. *)
Definition points_to (p : TileRef) (o : option TileRef) : bool :=
  match o with Some q => Nat.eqb q p | None => false end.

(** The [children] links of allocated headers lead to allocated headers
    at descendant coordinates. *)
Definition kids_ok (h : Heap) : Prop :=
  forall r, (r < size h)%nat ->
    forall c, In c (children (h r)) ->
      (c < size h)%nat /\
      exists n, ancestor_index n (index (h r)) (index (h c)).

(** The state of the second loop of [_rebuildTree] after the tiles [done],
    as equations on the links. *)
Definition relinked (s0 : Tileset2D) (done : list TileRef) (s : Tileset2D)
  : Prop :=
  quiet s0 s /\ stable ident (heap s0) (heap s) /\
  stable flags (heap s0) (heap s) /\
  (forall x, ~ In x (map_values (_cache s0)) ->
     links (heap s x) = links (heap s0 x)) /\
  (forall x, In x (map_values (_cache s0)) ->
     parent (heap s x)
     = if includes done x then nearest_ancestor s0 x else None) /\
  (forall x, In x (map_values (_cache s0)) ->
     children (heap s x)
     = filter (fun c => points_to x (nearest_ancestor s0 c)) done).

(** The parent links are the ones a rebuild of the present cache gives. *)
Definition fresh_parents (s : Tileset2D) : Prop :=
  forall t, In t (map_values (_cache s)) ->
    parent (heap s t) = nearest_ancestor s t.

(** ** Placeholders and marks *)

(** [first_with_data h t a]: walking up from [t], [t] included, [a] is the
    first header that has data. *)
Inductive first_with_data (h : Heap) : TileRef -> TileRef -> Prop :=
  | first_here : forall t, hasData (h t) = true -> first_with_data h t t
  | first_above : forall t p a,
      hasData (h t) = false -> parent (h t) = Some p ->
      first_with_data h p a -> first_with_data h t a.

(** [nearest_below h t d]: [d] has data and is reached from [t] through
    children that have none. *)
Inductive nearest_below (h : Heap) : TileRef -> TileRef -> Prop :=
  | nearest_child : forall t d,
      In d (children (h t)) -> hasData (h d) = true -> nearest_below h t d
  | nearest_deeper : forall t c d,
      In c (children (h t)) -> hasData (h c) = false ->
      nearest_below h c d -> nearest_below h t d.

(** [u] stands in for the selected tile [t] under best-available. *)
Definition placeholder (h : Heap) (t u : TileRef) : Prop :=
  first_with_data h t u \/
  ((forall a, up h t a -> hasData (h a) = false) /\ nearest_below h t u).

(** The VISIBLE and VISITED marks of the no-overlap strategy. *)
Definition visible_bit (h : Heap) (u : TileRef) : bool :=
  has_bit (state (h u)) TILE_STATE_VISIBLE.

Definition visited_bit (h : Heap) (u : TileRef) : bool :=
  has_bit (state (h u)) TILE_STATE_VISITED.

(** The state of the third loop of [updateTileStateReplace] after the tiles
    [done]: a mark of the second loop (in [h2]) is still there unless the
    parent of the tile was shown or hidden, and only that hides a tile. *)
Definition covered_below (allTiles : list TileRef) (h h2 : Heap)
  (done : list TileRef) (h1 : Heap) : Prop :=
  stable ident h h1 /\ stable links h h1 /\
  marked_with_data allTiles h1 /\
  (forall u, In u done -> isVisible (h1 u) = visible_bit h1 u) /\
  (forall c, In c allTiles -> visible_bit h2 c = true ->
     visible_bit h1 c = true \/
     exists u, In u done /\ In c (children (h u)) /\
       (isVisible (h1 u) = true \/ visited_bit h1 u = true)) /\
  (forall c, In c allTiles -> visited_bit h1 c = true ->
     exists u, In u done /\ In c (children (h u)) /\
       (isVisible (h1 u) = true \/ visited_bit h1 u = true)).

(** ** Eviction *)

(** Evicting the entries of [l], first to last. *)
Definition evict_all (l : Cache) (s : Tileset2D) : Tileset2D :=
  fold_left (fun s e => evict (fst e) (snd e) s) l s.

(** ** Digits *)

Definition is_digit (c : Ascii.ascii) : bool :=
  (48 <=? Ascii.nat_of_ascii c)%nat && (Ascii.nat_of_ascii c <=? 57)%nat.

Fixpoint all_digits (s : String.string) : bool :=
  match s with
  | String.EmptyString => true
  | String.String c s' => is_digit c && all_digits s'
  end.

(** * Scenarios *)

(** Running a call on a state: a call that throws leaves the state as it
    was. *)
Definition run (f : Tileset2D -> option Tileset2D) (s : Tileset2D) : Tileset2D :=
  match f s with Some s' => s' | None => s end.

Definition no_options : Tileset2DProps :=
  mkProps None None None None None None.

Definition zoom_options (a b : option JSNumber) : Tileset2DProps :=
  mkProps None None None a b None.

(** A tile two levels below its nearest resident ancestor: tile (0,0,0) is
    selected, then tile (0,0,2). *)
Definition skip_s1 : Tileset2D :=
  run (update 0%nat None [mkIndex 0 0 0]) (new_Tileset2D no_options).

Definition skip_s2 : Tileset2D :=
  run (update 1%nat None [mkIndex 0 0 2]) skip_s1.

(** Two selected tiles, room for one, strategy never. *)
Definition tight_never : Tileset2DProps :=
  mkProps (Some 1) None (Some STRATEGY_NEVER) None None None.

Definition full_s1 : Tileset2D :=
  run (update 0%nat None [mkIndex 0 0 1; mkIndex 1 0 1])
      (new_Tileset2D tight_never).

(** Then the viewport keeps only the first of them; no tile is created. *)
Definition full_s2 : Tileset2D :=
  run (update 1%nat None [mkIndex 0 0 1]) full_s1.

(** A selected tile is evicted.  Room for one tile, strategy
    best-available.  Tile (0,0,0) is selected and loads; then the viewport
    moves to its child (0,0,1), which starts loading, is shown through its
    loaded parent, and is evicted at once as it is not visible itself
    ([bug_mid] is the state when the resize step begins, [bug_s4] the state
    after this call); then [update] is called again with the same
    arguments. *)
Definition tight_options : Tileset2DProps :=
  mkProps (Some 1) None None None None None.

Definition bug_s1 : Tileset2D :=
  run (update 0%nat None [mkIndex 0 0 0]) (new_Tileset2D tight_options).

Definition bug_s2 : Tileset2D := run (tile_loaded 0%nat 7%nat 100) bug_s1.

Definition bug_s3 : Tileset2D := run (update 0%nat None [mkIndex 0 0 0]) bug_s2.


Definition bug_s4 : Tileset2D := run (update 1%nat None [mkIndex 0 0 1]) bug_s3.

Definition bug_s5 : Tileset2D := run (update 1%nat None [mkIndex 0 0 1]) bug_s4.

(** Two resident tiles, the second one selected. *)
Definition reload_s : Tileset2D :=
  run (update 1%nat None [mkIndex 1 0 0])
      (run (update 0%nat None [mkIndex 0 0 0]) (new_Tileset2D no_options)).

Definition never_options : Tileset2DProps :=
  mkProps None None (Some STRATEGY_NEVER) None None None.

Definition never_s : Tileset2D :=
  run (update 1%nat None [mkIndex 1 0 0])
      (run (update 0%nat None [mkIndex 0 0 0]) (new_Tileset2D never_options)).

(** Two tiles loading, neither selected, one request allowed. *)
Definition one_request : Tileset2DProps :=
  mkProps None None None None None (Some 1).

Definition prune_s : Tileset2D :=
  run (update 2%nat None [])
      (run (update 1%nat None [mkIndex 0 0 1; mkIndex 1 0 1])
           (new_Tileset2D no_options)).

Definition prune_s1 : Tileset2D := setOptions one_request prune_s.

(** A loaded parent and its two loading, selected children, strategy
    no-overlap. *)
Definition replace_options : Tileset2DProps :=
  mkProps None None (Some STRATEGY_REPLACE) None None None.

Definition family_s : Tileset2D :=
  run (update 1%nat None [mkIndex 0 0 1; mkIndex 1 1 1])
    (run (tile_loaded 0%nat 7%nat 100)
       (run (update 0%nat None [mkIndex 0 0 0])
            (new_Tileset2D replace_options))).


(** [update] once more with the viewport of [skip_s2]. *)
Definition idle_s : Tileset2D := run (update 1%nat None []) skip_s2.

(** [reloadAll] drops the unselected ancestor of the selected tile of
    [skip_s2]; the next [update] selects the same tile under a new
    viewport. *)
Definition stale_s : Tileset2D :=
  run (update 2%nat None [mkIndex 0 0 2]) (reloadAll skip_s2).



(** * Basic facts *)

Arguments upd : simpl never.
Arguments alloc : simpl never.
Arguments map_delete : simpl never.

Lemma upd_same : forall r f (h : Heap), upd r f h r = f (h r).
Proof. intros; unfold upd; cbn; now rewrite Nat.eqb_refl. Qed.

Lemma upd_other : forall r r' f (h : Heap), r' <> r -> upd r f h r' = h r'.
Proof.
  intros r r' f h Hne; unfold upd; cbn.
  destruct (Nat.eqb_spec r' r); [contradiction | reflexivity].
Qed.

Lemma key_eqb_eq : forall a b, key_eqb a b = true <-> a = b.
Proof.
  intros [[x1 y1] z1] [[x2 y2] z2]; simpl.
  rewrite !andb_true_iff, !Z.eqb_eq; split.
  - intros [[-> ->] ->]; reflexivity.
  - intros H; inversion H; auto.
Qed.

Lemma key_eqb_refl : forall a, key_eqb a a = true.
Proof. intros; now apply key_eqb_eq. Qed.

Lemma key_eqb_neq : forall a b, key_eqb a b = false <-> a <> b.
Proof.
  intros a b; split.
  - intros H Heq; apply key_eqb_eq in Heq; congruence.
  - intros H; destruct (key_eqb a b) eqn:E; auto.
    apply key_eqb_eq in E; contradiction.
Qed.

Lemma map_get_In : forall k m r, map_get k m = Some r -> In (k, r) m.
Proof.
  induction m as [|[k' v] m IH]; simpl; intros r H; [discriminate|].
  destruct (key_eqb k k') eqn:E.
  - apply key_eqb_eq in E; inversion H; subst; auto.
  - right; auto.
Qed.

Lemma map_get_None : forall k m,
  map_get k m = None -> forall r, ~ In (k, r) m.
Proof.
  induction m as [|[k' v] m IH]; simpl; intros H r; [tauto|].
  destruct (key_eqb k k') eqn:E; [discriminate|].
  intros [Heq | Hin].
  - inversion Heq; subst; rewrite key_eqb_refl in E; discriminate.
  - exact (IH H r Hin).
Qed.

Lemma map_delete_In : forall k e m,
  In e (map_delete k m) <-> In e m /\ fst e <> k.
Proof.
  intros k e m; unfold map_delete; rewrite filter_In.
  rewrite negb_true_iff, key_eqb_neq; intuition congruence.
Qed.

(** * setOptions (C9) *)

(** C9.  [setOptions] is total; a zoom bound that is not a finite number
    (infinite, NaN or absent) leaves the internal bound as it was, and a
    bound never given a finite value is absent, that is, unclamped; a finite
    [maxZoom] sets the bound to its floor and a finite [minZoom] to its
    ceiling. *)
Theorem setOptions_zoom_bounds : forall o s,
  (Number_isFinite (maxZoom o) = false ->
     _maxZoom (setOptions o s) = _maxZoom s) /\
  (Number_isFinite (minZoom o) = false ->
     _minZoom (setOptions o s) = _minZoom s) /\
  (forall q, maxZoom o = Some (Finite q) ->
     _maxZoom (setOptions o s) = Some (Qfloor q)) /\
  (forall q, minZoom o = Some (Finite q) ->
     _minZoom (setOptions o s) = Some (Qceiling q)) /\
  (Number_isFinite (maxZoom o) = false -> _maxZoom (new_Tileset2D o) = None) /\
  (Number_isFinite (minZoom o) = false -> _minZoom (new_Tileset2D o) = None).
Proof.
  intros o s; unfold new_Tileset2D, setOptions.
  destruct (maxZoom o) as [[qa| | |]|]; destruct (minZoom o) as [[qb| | |]|];
    simpl; repeat split; intros; try discriminate; try congruence.
Qed.

Lemma setOptions_zoom_bounds_witness :
  _maxZoom (setOptions (zoom_options (Some PosInfinity) (Some NaN))
              (new_Tileset2D (zoom_options (Some (Finite (7 # 2)))
                                           (Some (Finite (3 # 2))))))
  = Some 3
  /\ _minZoom (setOptions (zoom_options (Some PosInfinity) (Some NaN))
              (new_Tileset2D (zoom_options (Some (Finite (7 # 2)))
                                           (Some (Finite (3 # 2))))))
  = Some 2.
Proof.
  pose proof (setOptions_zoom_bounds
                (zoom_options (Some PosInfinity) (Some NaN))
                (new_Tileset2D (zoom_options (Some (Finite (7 # 2)))
                                             (Some (Finite (3 # 2))))))
    as [Hmax [Hmin _]].
  split.
  - rewrite (Hmax eq_refl); reflexivity.
  - rewrite (Hmin eq_refl); reflexivity.
Defined.

(** * reloadAll (C10) *)

Lemma reloadAll_loop_fields : forall entries s,
  log (reloadAll_loop entries s) = log s /\
  _selectedTiles (reloadAll_loop entries s) = _selectedTiles s /\
  size (heap (reloadAll_loop entries s)) = size (heap s).
Proof.
  induction entries as [|[k t] rest IH]; intros s; cbn; auto.
  destruct (negb _);
    match goal with |- context [reloadAll_loop rest ?x] =>
      destruct (IH x) as (H1 & H2 & H3); rewrite H1, H2, H3 end; auto.
Qed.

Lemma reloadAll_loop_cache : forall entries s e,
  In e (_cache (reloadAll_loop entries s)) <->
  In e (_cache s) /\
  (forall d, In d entries -> selected_in s (snd d) = false -> fst d <> fst e).
Proof.
  induction entries as [|[k t] rest IH]; intros s e; cbn.
  - intuition.
  - fold (selected_in s t).
    destruct (selected_in s t) eqn:Hsel; cbn; rewrite IH; cbn.
    + split; intros [H1 H2]; split; auto.
      * intros d [<- | Hd] Hns; cbn in *; [congruence | now apply H2].
    + rewrite map_delete_In. split.
      * intros [[H1 H1'] H2]; split; auto.
        intros d [<- | Hd] Hns; cbn in *; [congruence | now apply H2].
      * intros [H1 H2]; repeat split; auto.
        intros Heq; apply (H2 (k, t)); auto.
Qed.

Lemma reloadAll_loop_heap_other : forall entries s r,
  selected_in s r = false ->
  heap (reloadAll_loop entries s) r = heap s r.
Proof.
  induction entries as [|[k t] rest IH]; intros s r Hr; cbn; auto.
  fold (selected_in s t).
  destruct (selected_in s t) eqn:Hsel; cbn.
  - rewrite IH by exact Hr. cbn. apply upd_other. congruence.
  - now rewrite IH.
Qed.

Lemma reloadAll_loop_flag_kept : forall entries s r,
  needs_reload (heap s r) = true ->
  needs_reload (heap (reloadAll_loop entries s) r) = true.
Proof.
  induction entries as [|[k t] rest IH]; intros s r Hr; cbn; auto.
  destruct (negb _); apply IH; cbn; auto.
  destruct (Nat.eq_dec r t) as [->|Hne].
  - now rewrite upd_same.
  - now rewrite upd_other.
Qed.

Lemma reloadAll_loop_flag_set : forall entries s k r,
  In (k, r) entries -> selected_in s r = true ->
  needs_reload (heap (reloadAll_loop entries s) r) = true.
Proof.
  induction entries as [|[k' t] rest IH]; intros s k r Hin Hsel; cbn;
    [contradiction|].
  fold (selected_in s t).
  destruct Hin as [Heq | Hin].
  - inversion Heq; subst. rewrite Hsel; cbn.
    apply reloadAll_loop_flag_kept; cbn. now rewrite upd_same.
  - destruct (selected_in s t); cbn; eapply IH; eauto.
Qed.

(** C10.  [reloadAll] calls neither [onTileUnload] nor [abort]; a cached
    tile that is not in the selection leaves the cache with its header (and
    its load) untouched; a selected tile stays resident and is flagged
    [needs_reload]; with no selection the cache ends up empty. *)
Theorem reloadAll_spec : forall s,
  NoDup (map fst (_cache s)) ->
  log (reloadAll s) = log s /\
  (forall k tile, In (k, tile) (_cache s) -> selected_in s tile = false ->
     ~ In (k, tile) (_cache (reloadAll s)) /\
     map_get k (_cache (reloadAll s)) = None /\
     heap (reloadAll s) tile = heap s tile) /\
  (forall k tile, In (k, tile) (_cache s) -> selected_in s tile = true ->
     In (k, tile) (_cache (reloadAll s)) /\
     needs_reload (heap (reloadAll s) tile) = true) /\
  (_selectedTiles s = None -> _cache (reloadAll s) = []).
Proof.
  intros s Hnd; unfold reloadAll.
  split; [apply reloadAll_loop_fields|].
  split; [|split].
  - intros k tile Hin Hsel. split; [|split].
    + rewrite reloadAll_loop_cache. intros [_ H].
      apply (H (k, tile)); auto.
    + destruct (map_get k (_cache (reloadAll_loop (_cache s) s))) eqn:E; auto.
      apply map_get_In in E. apply reloadAll_loop_cache in E.
      destruct E as [_ E]. exfalso. apply (E (k, tile)); auto.
    + now apply reloadAll_loop_heap_other.
  - intros k tile Hin Hsel. split.
    + rewrite reloadAll_loop_cache. split; auto.
      intros [k' t'] Hd Hns Heq; cbn in *; subst k'.
      assert (t' = tile); [|congruence].
      clear -Hnd Hin Hd. induction (_cache s) as [|[k0 t0] m IH]; cbn in *;
        [contradiction|].
      inversion Hnd as [|? ? Hnotin Hnd']; subst.
      destruct Hin as [Hin|Hin], Hd as [Hd|Hd]; try congruence; auto.
      * inversion Hin; subst. exfalso; apply Hnotin.
        change k with (fst (k, t')). now apply in_map.
      * inversion Hd; subst. exfalso; apply Hnotin.
        change k with (fst (k, tile)). now apply in_map.
    + eapply reloadAll_loop_flag_set; eauto.
  - intros Hnone.
    destruct (_cache (reloadAll_loop (_cache s) s)) as [|e m] eqn:E; auto.
    assert (Hin : In e (_cache (reloadAll_loop (_cache s) s)))
      by (rewrite E; left; reflexivity).
    apply reloadAll_loop_cache in Hin. destruct Hin as [Hin H].
    exfalso. apply (H e Hin); auto.
    unfold selected_in; now rewrite Hnone.
Qed.

(** * updateTileStates with the strategy never (C8) *)

Lemma save_and_reset_other : forall values (h : Heap) r,
  ~ In r values -> snd (save_and_reset values h) r = h r.
Proof.
  induction values as [|t rest IH]; intros h r Hnin; cbn; auto.
  destruct (save_and_reset rest _) as [vs h2] eqn:E; cbn.
  change h2 with (snd (vs, h2)); rewrite <- E.
  rewrite IH by (intros Hin; apply Hnin; now right).
  apply upd_other. intros ->; apply Hnin; now left.
Qed.

Lemma save_and_reset_flags : forall values (h : Heap) r,
  In r values ->
  isVisible (snd (save_and_reset values h) r) = false /\
  isSelected (snd (save_and_reset values h) r) = false.
Proof.
  induction values as [|t rest IH]; intros h r Hin; cbn; [contradiction|].
  destruct (save_and_reset rest _) as [vs h2] eqn:E; cbn.
  change h2 with (snd (vs, h2)); rewrite <- E.
  destruct (in_dec Nat.eq_dec r rest) as [Hr|Hr].
  - now apply IH.
  - destruct Hin as [->|Hin]; [|contradiction].
    rewrite save_and_reset_other by exact Hr.
    rewrite upd_same; auto.
Qed.

Lemma select_tiles_other : forall sel (h : Heap) r,
  ~ In r sel -> select_tiles sel h r = h r.
Proof.
  unfold select_tiles.
  induction sel as [|t rest IH]; intros h r Hnin; cbn; auto.
  rewrite IH by (intros Hin; apply Hnin; now right).
  apply upd_other. intros ->; apply Hnin; now left.
Qed.

Lemma select_tiles_flags : forall sel (h : Heap) r,
  In r sel ->
  isVisible (select_tiles sel h r) = true /\
  isSelected (select_tiles sel h r) = true.
Proof.
  unfold select_tiles.
  induction sel as [|t rest IH]; intros h r Hin; cbn; [contradiction|].
  destruct (in_dec Nat.eq_dec r rest) as [Hr|Hr].
  - now apply IH.
  - destruct Hin as [->|Hin]; [|contradiction].
    fold (select_tiles rest
            (upd r (fun t => with_isVisible true (with_isSelected true t)) h)).
    rewrite select_tiles_other by exact Hr.
    rewrite upd_same; auto.
Qed.

(** C8.  With the strategy never, [updateTileStates] returns, and
    afterwards every resident tile has [isVisible] equal to [isSelected],
    which is true exactly for the tiles of the current selection. *)
Theorem never_visible_iff_selected : forall s sel,
  _selectedTiles s = Some sel ->
  strategy_of (opts s) = STRATEGY_NEVER ->
  exists changed s',
    updateTileStates s = Some (changed, s') /\
    _cache s' = _cache s /\
    _selectedTiles s' = Some sel /\
    forall tile, In tile (map_values (_cache s')) ->
      isVisible (heap s' tile) = isSelected (heap s' tile) /\
      (isSelected (heap s' tile) = true <-> In tile sel).
Proof.
  intros s sel Hsel Hst. unfold updateTileStates. rewrite Hsel, Hst.
  destruct (save_and_reset (map_values (_cache s)) (heap s)) as [vs h1] eqn:E.
  cbn. eexists; eexists. split; [reflexivity|]. cbn.
  split; [reflexivity|]. split; [exact Hsel|].
  intros tile Hin.
  destruct (in_dec Nat.eq_dec tile sel) as [Hs|Hs].
  - destruct (select_tiles_flags sel h1 tile Hs) as [Hv Hi].
    rewrite Hv, Hi. tauto.
  - rewrite select_tiles_other by exact Hs.
    change h1 with (snd (vs, h1)); rewrite <- E.
    destruct (save_and_reset_flags (map_values (_cache s)) (heap s) tile Hin)
      as [Hv Hi].
    rewrite Hv, Hi. split; auto. split; [discriminate|contradiction].
Qed.

(** * _pruneRequests (C6) *)

Lemma abort_tile_idem : forall t, abort_tile (abort_tile t) = abort_tile t.
Proof.
  intros t; unfold abort_tile.
  destruct (isLoading t) eqn:E; cbn; [reflexivity | now rewrite E].
Qed.

Lemma prune_loop_spec : forall maxReq cands n s,
  let aborted := firstn (abort_count maxReq n (length cands)) cands in
  log (prune_loop maxReq n cands s) = log s ++ map Abort aborted /\
  (forall tile, heap (prune_loop maxReq n cands s) tile =
     if includes aborted tile then abort_tile (heap s tile)
     else heap s tile) /\
  _cache (prune_loop maxReq n cands s) = _cache s /\
  _selectedTiles (prune_loop maxReq n cands s) = _selectedTiles s /\
  _dirty (prune_loop maxReq n cands s) = _dirty s /\
  opts (prune_loop maxReq n cands s) = opts s /\
  _cacheByteSize (prune_loop maxReq n cands s) = _cacheByteSize s /\
  _frameNumber (prune_loop maxReq n cands s) = _frameNumber s /\
  size (heap (prune_loop maxReq n cands s)) = size (heap s).
Proof.
  intros maxReq cands; induction cands as [|t rest IH]; intros n s aborted.
  - subst aborted; cbn. rewrite firstn_nil, app_nil_r. cbn. auto 10.
  - subst aborted. cbn [prune_loop].
    unfold abort_count, positive_opt, gt_opt.
    destruct maxReq as [m|]; [|cbn; rewrite app_nil_r; auto 10].
    destruct (0 <? m) eqn:Hpos; [|cbn; rewrite app_nil_r; auto 10].
    cbn [andb].
    destruct (m <? n) eqn:Hgt.
    + apply Z.ltb_lt in Hgt.
      replace (Z.to_nat (n - m)) with (S (Z.to_nat (n - 1 - m))) by lia.
      cbn [length Nat.min firstn map].
      specialize (IH (n - 1) (emit (Abort t) (modify t abort_tile s))).
      cbn zeta in IH. unfold abort_count in IH. rewrite Hpos in IH.
      destruct IH as (H1 & H2 & H3 & H4 & H5 & H6 & H7 & H8 & H9).
      rewrite H1, H3, H4, H5, H6, H7, H8, H9. cbn.
      rewrite <- app_assoc. cbn.
      repeat split; auto.
      intros tile. rewrite H2. cbn.
      unfold includes; cbn [existsb].
      destruct (Nat.eqb_spec tile t) as [->|Hne]; cbn [orb].
      * rewrite upd_same.
        destruct (existsb _ _); auto using abort_tile_idem.
      * rewrite upd_other by exact Hne. reflexivity.
    + apply Z.ltb_ge in Hgt.
      replace (Z.to_nat (n - m)) with O by lia.
      rewrite Nat.min_0_r. cbn. rewrite app_nil_r. auto 10.
Qed.

Lemma In_firstn : forall (A : Type) n (l : list A) x,
  In x (firstn n l) -> In x l.
Proof.
  induction n as [|n IH]; intros [|a l] x H; cbn in *; try contradiction.
  destruct H as [->|H]; auto.
Qed.

Lemma filter_filter : forall (A : Type) (f g : A -> bool) l,
  filter g (filter f l) = filter (fun x => f x && g x) l.
Proof.
  induction l as [|a l IH]; cbn; auto.
  destruct (f a); cbn; [destruct (g a)|]; now rewrite IH.
Qed.

(** C6.  [_pruneRequests] calls [abort] on a prefix of the abort
    candidates, which are the resident tiles that are loading and neither
    selected nor visible, in cache order.  The prefix ends when the count of
    loading tiles has come down to [maxRequests] or the candidates are used
    up; nothing is aborted unless [maxRequests] is positive.  With
    [maxRequests = 1] and two loading tiles, both unselected and invisible,
    exactly the earlier-inserted one is aborted. *)
Theorem pruneRequests_spec : forall s,
  let candidates := abortCandidates s in
  let aborted :=
    firstn (abort_count (maxRequests (opts s)) (ongoingRequestCount s)
              (length candidates)) candidates in
  log (_pruneRequests s) = log s ++ map Abort aborted /\
  _cache (_pruneRequests s) = _cache s /\
  (forall tile, heap (_pruneRequests s) tile =
     if includes aborted tile then abort_tile (heap s tile)
     else heap s tile) /\
  (forall tile, In tile aborted ->
     In tile (map_values (_cache s)) /\
     isLoading (heap s tile) = true /\
     isSelected (heap s tile) = false /\
     isVisible (heap s tile) = false) /\
  (positive_opt (maxRequests (opts s)) = false -> aborted = []) /\
  (forall m, maxRequests (opts s) = Some m -> 0 < m ->
     aborted = candidates \/
     ongoingRequestCount s - Z.of_nat (length aborted)
       = Z.min m (ongoingRequestCount s)) /\
  (forall a b,
     maxRequests (opts s) = Some 1 ->
     filter (fun tile => isLoading (heap s tile)) (map_values (_cache s))
       = [a; b] ->
     a <> b ->
     isSelected (heap s a) = false -> isVisible (heap s a) = false ->
     isSelected (heap s b) = false -> isVisible (heap s b) = false ->
     aborted = [a] /\
     isLoading (heap (_pruneRequests s) a) = false /\
     isLoading (heap (_pruneRequests s) b) = true).
Proof.
  intros s candidates aborted.
  pose proof (prune_loop_spec (maxRequests (opts s)) (abortCandidates s)
                (ongoingRequestCount s) s) as H.
  cbn zeta in H. fold candidates in H. fold aborted in H.
  destruct H as (H1 & H2 & H3 & _).
  unfold _pruneRequests. fold candidates.
  split; [exact H1|]. split; [exact H3|]. split; [exact H2|].
  split; [|split; [|split]].
  - intros tile Hin. apply In_firstn in Hin.
    unfold candidates, abortCandidates in Hin. apply filter_In in Hin.
    destruct Hin as [Hin Hc].
    rewrite !andb_true_iff, !negb_true_iff in Hc. tauto.
  - intros Hnp. unfold aborted, abort_count.
    unfold positive_opt in Hnp.
    destruct (maxRequests (opts s)); [rewrite Hnp|]; reflexivity.
  - intros m Hm Hpos. unfold aborted, abort_count. rewrite Hm.
    apply Z.ltb_lt in Hpos. rewrite Hpos.
    destruct (Nat.le_gt_cases (length candidates)
                (Z.to_nat (ongoingRequestCount s - m))) as [Hle|Hlt].
    + left. rewrite Nat.min_l by exact Hle. apply firstn_all.
    + right. rewrite Nat.min_r by lia.
      rewrite length_firstn. apply Z.ltb_lt in Hpos. lia.
  - intros a b Hm Hload Hab Hsa Hva Hsb Hvb.
    assert (Hc : candidates = [a; b]).
    { unfold candidates, abortCandidates.
      rewrite <- (filter_ext
        (fun x => isLoading (heap s x)
                  && (negb (isSelected (heap s x)) && negb (isVisible (heap s x)))))
        by (intros; now rewrite andb_assoc).
      rewrite <- filter_filter. rewrite Hload. cbn.
      now rewrite Hsa, Hva, Hsb, Hvb. }
    assert (Hn : ongoingRequestCount s = 2)
      by (unfold ongoingRequestCount; now rewrite Hload).
    assert (Ha : aborted = [a])
      by (unfold aborted; rewrite Hc, Hm, Hn; reflexivity).
    assert (Hla : isLoading (heap s a) = true /\ isLoading (heap s b) = true).
    { assert (Hin : forall x, In x [a; b] -> isLoading (heap s x) = true).
      { intros x Hx. rewrite <- Hload in Hx. apply filter_In in Hx. tauto. }
      split; apply Hin; cbn; auto. }
    split; [exact Ha|].
    rewrite !H2, Ha. unfold includes; cbn.
    rewrite Nat.eqb_refl; cbn.
    destruct (Nat.eqb_spec b a) as [Heq|_]; [congruence|]. cbn.
    split; [|tauto].
    unfold abort_tile. destruct Hla as [-> _]. reflexivity.
Qed.

(** * Frames: what an operation leaves alone *)

Lemma stable_refl : forall X (proj : Tile2DHeader -> X) h, stable proj h h.
Proof. intros; split; auto. Qed.

Lemma stable_trans : forall X (proj : Tile2DHeader -> X) h1 h2 h3,
  stable proj h1 h2 -> stable proj h2 h3 -> stable proj h1 h3.
Proof.
  intros X proj h1 h2 h3 [S1 P1] [S2 P2]; split; [congruence|].
  intros r; now rewrite P2, P1.
Qed.

Lemma stable_upd : forall X (proj : Tile2DHeader -> X) r f h,
  (forall t, proj (f t) = proj t) -> stable proj h (upd r f h).
Proof.
  intros X proj r f h Hf; split; [reflexivity|].
  intros r'. destruct (Nat.eq_dec r' r) as [->|Hne].
  - now rewrite upd_same.
  - now rewrite upd_other.
Qed.

Lemma stable_fold_left : forall X (proj : Tile2DHeader -> X) (A : Type)
  (f : Heap -> A -> Heap) l h,
  (forall h a, stable proj h (f h a)) -> stable proj h (fold_left f l h).
Proof.
  intros X proj A f l; induction l as [|a l IH]; intros h Hf; cbn.
  - apply stable_refl.
  - eapply stable_trans; [apply Hf | apply IH, Hf].
Qed.

Lemma stable_foldM : forall X (proj : Tile2DHeader -> X) (A : Type)
  (f : A -> Heap -> option Heap) l h h',
  (forall a h h', f a h = Some h' -> stable proj h h') ->
  foldM f l h = Some h' -> stable proj h h'.
Proof.
  intros X proj A f l; induction l as [|a l IH]; intros h h' Hf H; cbn in H.
  - inversion H; apply stable_refl.
  - destruct (f a h) as [h1|] eqn:E; cbn in H; [|discriminate].
    eapply stable_trans; [eapply Hf, E | eapply IH; eauto].
Qed.

Lemma ignores_marks_ident : ignores_marks ident.
Proof. split; reflexivity. Qed.
Lemma ignores_marks_links : ignores_marks links.
Proof. split; reflexivity. Qed.
Lemma ignores_marks_loads : ignores_marks loads.
Proof. split; reflexivity. Qed.
Lemma ignores_marks_hasData : ignores_marks hasData.
Proof. split; reflexivity. Qed.

Section StrategyFrames.
Context {X : Type} (proj : Tile2DHeader -> X).
Hypothesis Hproj : ignores_marks proj.

Lemma or_state_stable : forall r m h, stable proj h (upd r (or_state m) h).
Proof. intros; apply stable_upd; intros; apply Hproj. Qed.

Lemma ancestors_walk_stable : forall fuel tile h found h',
  ancestors_walk fuel tile h = Some (found, h') -> stable proj h h'.
Proof.
  induction fuel as [|fuel IH]; intros [t|] h found h' H; cbn in H;
    try discriminate; try (inversion H; apply stable_refl).
  destruct (hasData (h t)).
  - inversion H; apply or_state_stable.
  - eapply IH; eauto.
Qed.

Lemma children_walk_stable : forall fuel tile h h',
  children_walk fuel tile h = Some h' -> stable proj h h'.
Proof.
  induction fuel as [|fuel IH]; intros tile h h' H; cbn in H;
    [discriminate|].
  eapply stable_foldM; [|exact H].
  intros child h1 h2 E; cbn in E.
  destruct (hasData (h1 child)).
  - inversion E; apply or_state_stable.
  - eapply IH; eauto.
Qed.

Lemma clear_states_stable : forall l h, stable proj h (clear_states l h).
Proof.
  intros; apply stable_fold_left; intros; apply stable_upd.
  intros; apply Hproj.
Qed.

Lemma show_from_state_stable : forall r h,
  stable proj h (show_from_state r h).
Proof. intros; apply stable_upd; intros; apply Hproj. Qed.

Lemma hide_children_stable : forall r h, stable proj h (hide_children r h).
Proof.
  intros; apply stable_fold_left; intros; apply stable_upd.
  intros; apply Hproj.
Qed.

Lemma default_step_stable : forall tile h h',
  default_step tile h = Some h' -> stable proj h h'.
Proof.
  unfold default_step, getPlaceholderInAncestors, getPlaceholderInChildren.
  intros tile h h' H.
  destruct (isSelected (h tile)); [|inversion H; apply stable_refl].
  destruct (ancestors_walk _ _ h) as [[found h1]|] eqn:E; cbn in H;
    [|discriminate].
  apply ancestors_walk_stable in E.
  destruct found; [inversion H; subst; exact E|].
  eapply stable_trans; [exact E|].
  apply (children_walk_stable (S (size h1)) tile); exact H.
Qed.

Lemma updateTileStateDefault_stable : forall l h h',
  updateTileStateDefault l h = Some h' -> stable proj h h'.
Proof.
  unfold updateTileStateDefault. intros l h h' H.
  destruct (foldM default_step l (clear_states l h)) as [h2|] eqn:E;
    cbn in H; [|discriminate].
  inversion H; subst; clear H.
  eapply stable_trans; [apply clear_states_stable|].
  eapply stable_trans.
  - eapply stable_foldM; [|exact E]. apply default_step_stable.
  - apply stable_fold_left; intros; apply show_from_state_stable.
Qed.

Lemma replace_ancestors_step_stable : forall tile h h',
  replace_ancestors_step tile h = Some h' -> stable proj h h'.
Proof.
  unfold replace_ancestors_step, getPlaceholderInAncestors.
  intros tile h h' H.
  destruct (isSelected (h tile)); [|inversion H; apply stable_refl].
  destruct (ancestors_walk _ _ h) as [[found h1]|] eqn:E; cbn in H;
    [|discriminate].
  inversion H; subst. eapply ancestors_walk_stable; eauto.
Qed.

Lemma replace_step_stable : forall tile h h',
  replace_step tile h = Some h' -> stable proj h h'.
Proof.
  unfold replace_step, getPlaceholderInChildren. intros tile h h' H.
  destruct (_ || _).
  - inversion H; subst.
    eapply stable_trans;
      [apply show_from_state_stable | apply hide_children_stable].
  - destruct (isSelected _).
    + eapply stable_trans; [apply show_from_state_stable|].
      eapply (children_walk_stable (S _) tile); exact H.
    + inversion H; apply show_from_state_stable.
Qed.

Lemma updateTileStateReplace_stable : forall l h h',
  updateTileStateReplace l h = Some h' -> stable proj h h'.
Proof.
  unfold updateTileStateReplace. intros l h h' H.
  destruct (foldM replace_ancestors_step l (clear_states l h)) as [h2|] eqn:E;
    cbn in H; [|discriminate].
  eapply stable_trans; [apply clear_states_stable|].
  eapply stable_trans.
  - eapply stable_foldM; [|exact E]. apply replace_ancestors_step_stable.
  - eapply stable_foldM; [|exact H]. apply replace_step_stable.
Qed.

Lemma STRATEGIES_stable : forall st l h h',
  STRATEGIES st l h = Some h' -> stable proj h h'.
Proof.
  intros [| |] l h h' H; cbn in H.
  - inversion H; apply stable_refl.
  - eapply updateTileStateReplace_stable; eauto.
  - eapply updateTileStateDefault_stable; eauto.
Qed.
End StrategyFrames.

(** ** Frames of the tileset's own methods *)

Lemma unloads_app : forall l1 l2, unloads (l1 ++ l2) = unloads l1 ++ unloads l2.
Proof. intros; unfold unloads; apply flat_map_app. Qed.

Lemma quiet_refl : forall s, quiet s s.
Proof. intros; unfold quiet; auto 12. Qed.

Lemma quiet_trans : forall s1 s2 s3, quiet s1 s2 -> quiet s2 s3 -> quiet s1 s3.
Proof.
  unfold quiet; intros s1 s2 s3 H1 H2.
  destruct H1 as (A1 & A2 & A3 & A4 & A5 & A6 & A7 & A8 & A9 & A10).
  destruct H2 as (B1 & B2 & B3 & B4 & B5 & B6 & B7 & B8 & B9 & B10).
  repeat split; congruence.
Qed.

Lemma quiet_modify : forall r f s, quiet s (modify r f s).
Proof. intros; unfold quiet; cbn; auto 12. Qed.

Lemma quiet_emit : forall e s,
  (forall t, e <> OnTileUnload t) -> quiet s (emit e s).
Proof.
  intros e s He; unfold quiet; cbn. repeat split; auto.
  rewrite unloads_app; cbn.
  destruct e; try (now rewrite app_nil_r). exfalso; eapply He; eauto.
Qed.

Lemma quiet_load : forall r s,
  quiet s (emit (LoadData r) (modify r loadData_tile s)).
Proof.
  intros; eapply quiet_trans; [apply quiet_modify|].
  apply quiet_emit; discriminate.
Qed.

Lemma shape_ident : forall h h', stable shape h h' -> stable ident h h'.
Proof.
  intros h h' [S P]; split; auto. intros r; specialize (P r).
  unfold shape in P; congruence.
Qed.

Lemma shape_links : forall h h', stable shape h h' -> stable links h h'.
Proof.
  intros h h' [S P]; split; auto. intros r; specialize (P r).
  unfold shape in P; congruence.
Qed.

Lemma shape_flags : forall h h', stable shape h h' -> stable flags h h'.
Proof.
  intros h h' [S P]; split; auto. intros r; specialize (P r).
  unfold shape in P; congruence.
Qed.

Lemma getTile_lookup_returns : forall i s, _getTile i false s <> None.
Proof.
  unfold _getTile; intros i s.
  destruct (map_get _ _); [destruct (needsReload _)|]; discriminate.
Qed.

Lemma getTile_lookup : forall i s r s',
  _getTile i false s = Some (r, s') ->
  r = map_get (getTileCacheKey i) (_cache s) /\
  quiet s s' /\ stable shape (heap s) (heap s').
Proof.
  unfold _getTile; intros i s r s' H.
  destruct (map_get _ _) as [tile|].
  - destruct (needsReload _); inversion H; subst; clear H.
    + split; [reflexivity|]. split; [apply quiet_load|].
      cbn. apply stable_upd. reflexivity.
    + split; [reflexivity|]. split; [apply quiet_refl|apply stable_refl].
  - inversion H; subst.
    split; [reflexivity|]. split; [apply quiet_refl|apply stable_refl].
Qed.

Lemma nearest_loop_spec : forall n i s r s',
  nearest_loop n i s = (r, s') ->
  quiet s s' /\ stable shape (heap s) (heap s') /\
  (forall p, r = Some p ->
     exists m, (0 < m <= n)%nat /\
       map_get (getTileCacheKey (Nat.iter m getParentIndex i)) (_cache s)
       = Some p).
Proof.
  induction n as [|n IH]; intros i s r s' H; cbn in H.
  - inversion H; subst. split; [apply quiet_refl|].
    split; [apply stable_refl|]. discriminate.
  - destruct (_getTile (getParentIndex i) false s) as [[[p|] s1]|] eqn:E;
      [| |now apply getTile_lookup_returns in E];
      apply getTile_lookup in E; destruct E as (E1 & E2 & E3).
    + inversion H; subst. split; [exact E2|]. split; [exact E3|].
      intros p' Hp; inversion Hp; subst. exists 1%nat. split; [lia|].
      rewrite Nat.iter_succ. cbn [Nat.iter nat_rect]. now rewrite <- E1.
    + apply IH in H. destruct H as (H1 & H2 & H3).
      split; [eapply quiet_trans; eauto|].
      split; [eapply stable_trans; eauto|].
      intros p Hp. destruct (H3 p Hp) as (m & Hm & Hget).
      exists (S m). split; [lia|].
      rewrite Nat.iter_succ_r.
      destruct E2 as (_ & Hc & _). now rewrite <- Hc.
Qed.

Lemma getNearestAncestor_spec : forall tile s r s',
  _getNearestAncestor tile s = (r, s') ->
  quiet s s' /\ stable shape (heap s) (heap s') /\
  (forall p, r = Some p ->
     exists m, (0 < m)%nat /\
       map_get (getTileCacheKey
                  (Nat.iter m getParentIndex (index (heap s tile))))
               (_cache s) = Some p).
Proof.
  unfold _getNearestAncestor; intros tile s r s' H.
  apply nearest_loop_spec in H. destruct H as (H1 & H2 & H3).
  split; [exact H1|]. split; [exact H2|].
  intros p Hp. destruct (H3 p Hp) as (m & Hm & Hget).
  exists m; split; [lia|exact Hget].
Qed.

(** * The tree invariant (C1) *)

Lemma iter_parent_zoom : forall n i,
  getTileZoom (Nat.iter n getParentIndex i) = getTileZoom i - Z.of_nat n.
Proof.
  induction n as [|n IH]; intros i.
  - cbn; lia.
  - rewrite Nat2Z.inj_succ, Nat.iter_succ.
    change (getTileZoom (getParentIndex (Nat.iter n getParentIndex i)))
      with (getTileZoom (Nat.iter n getParentIndex i) - 1).
    rewrite IH. lia.
Qed.

Lemma getTileCacheKey_inj : forall i j,
  getTileCacheKey i = getTileCacheKey j -> i = j.
Proof.
  intros [x1 y1 z1] [x2 y2 z2] H; unfold getTileCacheKey in H; cbn in H.
  inversion H; reflexivity.
Qed.

Lemma stable_field : forall X (proj : Tile2DHeader -> X) h h' r,
  stable proj h h' -> proj (h' r) = proj (h r).
Proof. intros X proj h h' r [_ P]; apply P. Qed.

Lemma ident_index : forall h h' r, stable ident h h' -> index (h' r) = index (h r).
Proof.
  intros h h' r H; pose proof (stable_field _ _ _ _ r H) as E.
  unfold ident in E; congruence.
Qed.

Lemma ident_zoom : forall h h' r, stable ident h h' -> zoom (h' r) = zoom (h r).
Proof.
  intros h h' r H; pose proof (stable_field _ _ _ _ r H) as E.
  unfold ident in E; congruence.
Qed.

Lemma links_parent : forall h h' r,
  stable links h h' -> parent (h' r) = parent (h r).
Proof.
  intros h h' r H; pose proof (stable_field _ _ _ _ r H) as E.
  unfold links in E; congruence.
Qed.

Lemma links_children : forall h h' r,
  stable links h h' -> children (h' r) = children (h r).
Proof.
  intros h h' r H; pose proof (stable_field _ _ _ _ r H) as E.
  unfold links in E; congruence.
Qed.

Lemma flags_isVisible : forall h h' r,
  stable flags h h' -> isVisible (h' r) = isVisible (h r).
Proof.
  intros h h' r H; pose proof (stable_field _ _ _ _ r H) as E.
  unfold flags in E; congruence.
Qed.

Lemma tree_inv_stable : forall c h h',
  stable ident h h' -> stable links h h' -> tree_inv c h -> tree_inv c h'.
Proof.
  intros c h h' Hi Hl [K V E Z P C].
  pose proof (proj1 Hi) as Hs.
  constructor; auto.
  - intros k r Hin. rewrite Hs, (ident_index _ _ _ Hi). now apply E.
  - intros r Hr. rewrite (ident_zoom _ _ _ Hi), (ident_index _ _ _ Hi).
    apply Z; congruence.
  - intros r p Hr Hp. rewrite (links_parent _ _ _ Hl) in Hp.
    rewrite Hs, !(ident_index _ _ _ Hi). apply P; congruence.
  - intros k r p Hin Hp. rewrite (links_parent _ _ _ Hl) in Hp.
    rewrite (links_children _ _ _ Hl). eapply C; eauto.
Qed.

Lemma NoDup_map_filter : forall (A B : Type) (f : A -> B) (p : A -> bool) l,
  NoDup (map f l) -> NoDup (map f (filter p l)).
Proof.
  induction l as [|a l IH]; cbn; intros H; [constructor|].
  inversion H as [|? ? Hn Hd]; subst.
  destruct (p a); cbn; auto.
  constructor; auto.
  intros Hin; apply Hn. apply in_map_iff in Hin.
  destruct Hin as (x & Hx & Hin). apply filter_In in Hin.
  apply in_map_iff; exists x; tauto.
Qed.

Lemma tree_inv_delete : forall k c h,
  tree_inv c h -> tree_inv (map_delete k c) h.
Proof.
  intros k c h [K V E Z P C]. constructor; auto.
  - now apply NoDup_map_filter.
  - now apply NoDup_map_filter.
  - intros k' r Hin. apply map_delete_In in Hin. apply E; tauto.
  - intros k' r p Hin. apply map_delete_In in Hin. eapply C; apply Hin.
Qed.

Lemma map_set_absent : forall k v m,
  map_get k m = None -> map_set k v m = m ++ [(k, v)].
Proof.
  induction m as [|[k' v'] m IH]; cbn; intros H; auto.
  destruct (key_eqb k k'); [discriminate|]. now rewrite IH.
Qed.

Lemma alloc_old : forall t (h : Heap) r,
  (r < size h)%nat -> alloc t h r = h r.
Proof.
  intros t h r Hr; unfold alloc; cbn.
  destruct (Nat.eqb_spec r (size h)); [lia|reflexivity].
Qed.

Lemma alloc_new : forall t (h : Heap), alloc t h (size h) = t.
Proof. intros; unfold alloc; cbn; now rewrite Nat.eqb_refl. Qed.

(** Creating a header keeps the invariant. *)
Lemma tree_inv_create : forall i c h,
  tree_inv c h -> map_get (getTileCacheKey i) c = None ->
  tree_inv (map_set (getTileCacheKey i) (size h) c)
    (upd (size h) loadData_tile
       (alloc (with_zoom (getTileZoom i) (new_Tile2DHeader i)) h)).
Proof.
  intros i c h [K V E Z P C] Hnone.
  rewrite map_set_absent by exact Hnone.
  set (t := with_zoom (getTileZoom i) (new_Tile2DHeader i)).
  assert (Hold : forall r, (r < size h)%nat ->
            upd (size h) loadData_tile (alloc t h) r = h r).
  { intros r Hr. rewrite upd_other by lia. now apply alloc_old. }
  assert (Hnew : upd (size h) loadData_tile (alloc t h) (size h)
                 = loadData_tile t).
  { rewrite upd_same. now rewrite alloc_new. }
  assert (Hsz : size (upd (size h) loadData_tile (alloc t h)) = S (size h))
    by reflexivity.
  constructor.
  - rewrite map_app; cbn. apply NoDup_app; [exact K|repeat constructor; auto|].
    intros k Hk [<-|[]]. apply in_map_iff in Hk.
    destruct Hk as ([k' r] & Hk & Hin); cbn in Hk; subst k'.
    eapply map_get_None; eauto.
  - unfold map_values; rewrite map_app; cbn.
    apply NoDup_app; [exact V|repeat constructor; auto|].
    intros r Hr [<-|[]]. apply in_map_iff in Hr.
    destruct Hr as ([k' r] & Hk & Hin); cbn in Hk; subst r.
    apply E in Hin. lia.
  - intros k r Hin. rewrite Hsz. apply in_app_iff in Hin.
    destruct Hin as [Hin|[Heq|[]]].
    + destruct (E k r Hin) as [Hr Hk]. rewrite Hold by exact Hr. split; [lia|auto].
    + inversion Heq; subst. rewrite Hnew. split; [lia|reflexivity].
  - intros r Hr. rewrite Hsz in Hr.
    destruct (Nat.eq_dec r (size h)) as [->|Hne].
    + rewrite Hnew. reflexivity.
    + rewrite Hold by lia. apply Z; lia.
  - intros r p Hr Hp. rewrite Hsz in Hr |- *.
    destruct (Nat.eq_dec r (size h)) as [->|Hne].
    + rewrite Hnew in Hp. discriminate.
    + rewrite Hold in Hp by lia. destruct (P r p) as [Hp' Ha]; [lia|auto|].
      rewrite !Hold by lia. split; [lia|exact Ha].
  - intros k r p Hin Hp. apply in_app_iff in Hin.
    destruct Hin as [Hin|[Heq|[]]].
    + destruct (E k r Hin) as [Hr _]. rewrite Hold in Hp by exact Hr.
      destruct (P r p Hr Hp) as [Hp' _]. rewrite Hold by exact Hp'.
      eapply C; eauto.
    + inversion Heq; subst. rewrite Hnew in Hp. discriminate.
Qed.

(** ** _rebuildTree re-establishes the links *)

Lemma fold_left_prefix : forall (A S : Type) (f : S -> A -> S)
  (P : list A -> S -> Prop) l,
  (forall done a rest s, l = done ++ a :: rest ->
     P done s -> P (done ++ [a]) (f s a)) ->
  forall s, P [] s -> P l (fold_left f l s).
Proof.
  intros A S f P l Hstep.
  assert (H : forall rest done s, l = done ++ rest -> P done s ->
                P l (fold_left f rest s)).
  { induction rest as [|a rest IH]; intros done s Hl HP; cbn.
    - rewrite app_nil_r in Hl; now subst.
    - apply (IH (done ++ [a])).
      + rewrite <- app_assoc; exact Hl.
      + eapply Hstep; eauto. }
  intros s HP; apply (H l [] s); auto.
Qed.

Lemma foldM_prefix : forall (A S : Type) (f : A -> S -> option S)
  (P : list A -> S -> Prop) l,
  (forall done a rest s s', l = done ++ a :: rest ->
     P done s -> f a s = Some s' -> P (done ++ [a]) s') ->
  forall s s', P [] s -> foldM f l s = Some s' -> P l s'.
Proof.
  intros A S f P l Hstep.
  assert (H : forall rest done s s', l = done ++ rest -> P done s ->
                foldM f rest s = Some s' -> P l s').
  { induction rest as [|a rest IH]; intros done s s' Hl HP Hrun; cbn in Hrun.
    - rewrite app_nil_r in Hl; inversion Hrun; now subst.
    - destruct (f a s) as [s1|] eqn:E; cbn in Hrun; [|discriminate].
      apply (IH (done ++ [a]) s1); auto.
      + rewrite <- app_assoc; exact Hl.
      + eapply Hstep; eauto. }
  intros s s' HP; apply (H l [] s s'); auto.
Qed.

Lemma NoDup_middle : forall (A : Type) (done rest : list A) a,
  NoDup (done ++ a :: rest) -> ~ In a done.
Proof.
  intros A done rest a H Hin. apply NoDup_remove_2 in H.
  apply H, in_or_app; now left.
Qed.

Lemma reset_links_spec : forall values s,
  let s1 := fold_left (fun s tile => modify tile reset_links s) values s in
  quiet s s1 /\ stable ident (heap s) (heap s1) /\
  stable flags (heap s) (heap s1) /\
  (forall r, ~ In r values -> heap s1 r = heap s r).
Proof.
  induction values as [|t rest IH]; intros s; cbn.
  - split; [apply quiet_refl|]. split; [apply stable_refl|].
    split; [apply stable_refl|]. auto.
  - destruct (IH (modify t reset_links s)) as (H1 & H2 & H3 & H4).
    split; [eapply quiet_trans; [apply quiet_modify|exact H1]|].
    split; [eapply stable_trans; [|exact H2]; apply stable_upd; reflexivity|].
    split; [eapply stable_trans; [|exact H3]; apply stable_upd; reflexivity|].
    intros r Hr. rewrite H4 by tauto. cbn. apply upd_other.
    intros ->; tauto.
Qed.

Lemma In_values : forall k r (c : Cache), In (k, r) c -> In r (map_values c).
Proof.
  intros k r c H; unfold map_values. change r with (snd (k, r)).
  now apply in_map.
Qed.

Lemma link_tile_linked : forall s0 done t rest s,
  tree_inv (_cache s0) (heap s0) ->
  map_values (_cache s0) = done ++ t :: rest ->
  linked s0 done s -> linked s0 (done ++ [t]) (link_tile s t).
Proof.
  intros s0 done t rest s Hinv Hvals (Q & I & F & N & L).
  assert (Hnd : ~ In t done).
  { eapply NoDup_middle. rewrite <- Hvals. apply Hinv. }
  assert (Hres : In t (map_values (_cache s0))).
  { rewrite Hvals. apply in_or_app; right; now left. }
  unfold link_tile.
  destruct (_getNearestAncestor t s) as [p s1] eqn:E.
  apply getNearestAncestor_spec in E. destruct E as (Q1 & S1 & R1).
  pose proof (shape_ident _ _ S1) as I1.
  pose proof (shape_links _ _ S1) as L1.
  pose proof (shape_flags _ _ S1) as F1.
  assert (Hanc : forall pr, p = Some pr ->
            (exists k, In (k, pr) (_cache s0)) /\
            exists n, ancestor_index n (index (heap s0 pr)) (index (heap s0 t))).
  { intros pr Hp. destruct (R1 pr Hp) as (m & Hm & Hget).
    destruct Q as (_ & Qc & _). rewrite Qc in Hget.
    rewrite (ident_index _ _ _ I) in Hget.
    apply map_get_In in Hget. split; [eauto|].
    exists m. split; [exact Hm|].
    destruct (inv_entry _ _ Hinv _ _ Hget) as [_ Hk].
    symmetry; now apply getTileCacheKey_inj. }
  set (h2 := upd t (with_parent p) (heap s1)).
  assert (I2 : stable ident (heap s0) h2).
  { eapply stable_trans; [exact I|]. eapply stable_trans; [exact I1|].
    apply stable_upd; reflexivity. }
  assert (F2 : stable flags (heap s0) h2).
  { eapply stable_trans; [exact F|]. eapply stable_trans; [exact F1|].
    apply stable_upd; reflexivity. }
  assert (C2 : forall x, children (h2 x) = children (heap s x)).
  { intros x. unfold h2.
    rewrite (stable_field _ children _ _ x
               (stable_upd _ children t (with_parent p) (heap s1)
                  (fun _ => eq_refl))).
    apply (links_children _ _ _ L1). }
  assert (P2 : forall x, parent (h2 x)
                         = if Nat.eqb x t then p else parent (heap s x)).
  { intros x. unfold h2. destruct (Nat.eqb_spec x t) as [->|Hne].
    - now rewrite upd_same.
    - rewrite upd_other by exact Hne. apply (links_parent _ _ _ L1). }
  assert (N2 : forall r, ~ In r (map_values (_cache s0)) ->
                 links (h2 r) = links (heap s0 r)).
  { intros r Hr. unfold h2. rewrite upd_other by (intros ->; tauto).
    rewrite (stable_field _ _ _ _ r L1). now apply N. }
  assert (Q2 : quiet s0 (modify t (with_parent p) s1)).
  { eapply quiet_trans; [exact Q|]. eapply quiet_trans; [exact Q1|].
    apply quiet_modify. }
  destruct p as [pr|].
  - destruct (Hanc pr eq_refl) as [[k Hk] Ha].
    unfold linked. cbn [heap modify with_heap].
    fold h2.
    assert (Hpush : forall x, parent (upd pr (push_child t) h2 x) = parent (h2 x)).
    { intros x. apply (stable_field _ parent _ _ x).
      apply stable_upd; reflexivity. }
    split; [eapply quiet_trans; [exact Q2|apply quiet_modify]|].
    split; [eapply stable_trans; [exact I2|]; apply stable_upd; reflexivity|].
    split; [eapply stable_trans; [exact F2|]; apply stable_upd; reflexivity|].
    split.
    + intros r Hr. rewrite upd_other; [now apply N2|].
      intros ->; apply Hr. eapply In_values; eauto.
    + intros r p Hr Hp. rewrite Hpush, P2 in Hp.
      assert (Hgrow : forall x c, In c (children (heap s x)) ->
                In c (children (upd pr (push_child t) h2 x))).
      { intros x c Hc. destruct (Nat.eq_dec x pr) as [->|Hne].
        - rewrite upd_same. cbn. rewrite C2. apply in_or_app; now left.
        - rewrite upd_other by exact Hne. now rewrite C2. }
      destruct (Nat.eqb_spec r t) as [->|Hne].
      * inversion Hp; subst p. split; [eauto|]. split; [exact Ha|].
        rewrite upd_same. cbn. apply in_or_app; right; now left.
      * apply in_app_iff in Hr. destruct Hr as [Hr|[Hr|[]]]; [|congruence].
        destruct (L r p Hr Hp) as (A1 & A2 & A3).
        split; [exact A1|]. split; [exact A2|]. now apply Hgrow.
  - unfold linked. cbn [heap modify with_heap]. fold h2.
    split; [exact Q2|]. split; [exact I2|]. split; [exact F2|].
    split; [exact N2|].
    intros r p Hr Hp. rewrite P2 in Hp.
    destruct (Nat.eqb_spec r t) as [->|Hne]; [discriminate|].
    apply in_app_iff in Hr. destruct Hr as [Hr|[Hr|[]]]; [|congruence].
    destruct (L r p Hr Hp) as (A1 & A2 & A3).
    split; [exact A1|]. split; [exact A2|]. now rewrite C2.
Qed.

Lemma rebuildTree_spec : forall s,
  tree_inv (_cache s) (heap s) ->
  quiet s (_rebuildTree s) /\
  stable ident (heap s) (heap (_rebuildTree s)) /\
  stable flags (heap s) (heap (_rebuildTree s)) /\
  tree_inv (_cache s) (heap (_rebuildTree s)) /\
  (forall k r p, In (k, r) (_cache s) ->
     parent (heap (_rebuildTree s) r) = Some p ->
     exists k', In (k', p) (_cache s)).
Proof.
  intros s Hinv. unfold _rebuildTree.
  set (vals := map_values (_cache s)).
  set (s1 := fold_left (fun s tile => modify tile reset_links s) vals s).
  destruct (reset_links_spec vals s) as (Q1 & I1 & F1 & N1). fold s1 in Q1, I1, F1, N1.
  assert (Hl : linked s vals (fold_left link_tile vals s1)).
  { apply (fold_left_prefix _ _ link_tile (linked s) vals).
    - intros done a rest s2 Hv H2. eapply link_tile_linked; eauto.
    - unfold linked. split; [exact Q1|]. split; [exact I1|].
      split; [exact F1|]. split.
      + intros r Hr. now rewrite N1.
      + intros r p []. }
  set (s2 := fold_left link_tile vals s1) in *.
  destruct Hl as (Q & I & F & N & L).
  split; [exact Q|]. split; [exact I|]. split; [exact F|].
  pose proof (proj1 I) as Hs.
  destruct Hinv as [K V E Z P C].
  split.
  - constructor; auto.
    + intros k r Hin. rewrite Hs, (ident_index _ _ _ I). now apply E.
    + intros r Hr. rewrite (ident_zoom _ _ _ I), (ident_index _ _ _ I).
      apply Z; congruence.
    + intros r p Hr Hp. rewrite Hs, !(ident_index _ _ _ I).
      destruct (in_dec Nat.eq_dec r vals) as [Hres|Hres].
      * destruct (L r p Hres Hp) as ([k Hk] & Ha & _).
        split; [apply (E k p Hk) | exact Ha].
      * specialize (N r Hres). unfold links in N.
        assert (Hp0 : parent (heap s r) = Some p) by congruence.
        apply P; congruence.
    + intros k r p Hin Hp.
      destruct (L r p (In_values _ _ _ Hin) Hp) as (_ & _ & Hc). exact Hc.
  - intros k r p Hin Hp.
    destruct (L r p (In_values _ _ _ Hin) Hp) as (Hk & _). exact Hk.
Qed.

(** * The eviction scan (C2, C3) *)

(** Reduce the projections of a state built by setters, and nothing else. *)
Ltac state_simpl :=
  cbn [opts _cache _dirty _tiles _cacheByteSize _viewport _selectedTiles
       _frameNumber _modelMatrix _maxZoom _minZoom heap log
       with_opts with_cache with_dirty with_tiles with_cacheByteSize
       with_viewport with_selectedTiles with_frameNumber with_modelMatrix
       with_maxZoom with_minZoom with_heap emit modify evict].
Ltac state_simpl_in H :=
  cbn [opts _cache _dirty _tiles _cacheByteSize _viewport _selectedTiles
       _frameNumber _modelMatrix _maxZoom _minZoom heap log
       with_opts with_cache with_dirty with_tiles with_cacheByteSize
       with_viewport with_selectedTiles with_frameNumber with_modelMatrix
       with_maxZoom with_minZoom with_heap emit modify evict] in H.

Lemma same_settings_refl : forall s, same_settings s s.
Proof. intros; unfold same_settings; auto. Qed.

Lemma same_settings_trans : forall s1 s2 s3,
  same_settings s1 s2 -> same_settings s2 s3 -> same_settings s1 s3.
Proof.
  unfold same_settings; intros s1 s2 s3 (A1 & A2 & A3 & A4 & A5)
    (B1 & B2 & B3 & B4 & B5).
  repeat split; congruence.
Qed.

Lemma quiet_settings : forall s s', quiet s s' -> same_settings s s'.
Proof.
  unfold quiet, same_settings; intros s s' H.
  destruct H as (A1 & A2 & A3 & A4 & A5 & A6 & A7 & A8 & A9 & A10).
  auto.
Qed.

Lemma evict_scan_spec : forall entries maxSize maxBytes s,
  exists j,
    let removed := filter (invisible (heap s)) (firstn j entries) in
    let s' := evict_scan entries maxSize maxBytes s in
    heap s' = heap s /\ same_settings s s' /\
    _selectedTiles s' = _selectedTiles s /\
    log s' = log s ++ map (fun e => OnTileUnload (snd e)) removed /\
    (forall e, In e (_cache s') <->
       In e (_cache s) /\ forall d, In d removed -> fst d <> fst e) /\
    (tree_inv (_cache s) (heap s) -> tree_inv (_cache s') (heap s')) /\
    (within_limits maxSize maxBytes s' = true \/ (length entries <= j)%nat).
Proof.
  induction entries as [|[k t] rest IH]; intros maxSize maxBytes s.
  - exists O. cbn. rewrite app_nil_r.
    split; [reflexivity|]. split; [apply same_settings_refl|].
    split; [reflexivity|]. split; [reflexivity|].
    split; [intuition|]. split; [auto|]. right; lia.
  - cbn [evict_scan].
    set (s1 := if negb (isVisible (heap s t)) then evict k t s else s).
    assert (Hh : heap s1 = heap s)
      by (unfold s1; destruct (negb _); reflexivity).
    assert (Hset : same_settings s s1)
      by (unfold s1; destruct (negb _); unfold same_settings; cbn; auto).
    assert (Hsel : _selectedTiles s1 = _selectedTiles s)
      by (unfold s1; destruct (negb _); reflexivity).
    assert (Hlog : log s1 = log s
                           ++ map (fun e => OnTileUnload (snd e))
                                (filter (invisible (heap s)) [(k, t)])).
    { unfold s1, invisible; cbn. destruct (negb _); cbn; auto.
      now rewrite app_nil_r. }
    assert (Hc : forall e, In e (_cache s1) <->
                   In e (_cache s) /\
                   forall d, In d (filter (invisible (heap s)) [(k, t)]) ->
                             fst d <> fst e).
    { intros e. unfold s1, invisible; cbn. destruct (negb _); cbn.
      - rewrite map_delete_In. split.
        + intros [H1 H2]; split; auto. intros d [<-|[]]; cbn; congruence.
        + intros [H1 H2]; split; auto. intros Heq. apply (H2 (k, t)); auto.
      - intuition. }
    assert (Hinv : tree_inv (_cache s) (heap s) ->
                   tree_inv (_cache s1) (heap s1)).
    { intros H. unfold s1. destruct (negb _); auto.
      cbn. now apply tree_inv_delete. }
    destruct (within_limits maxSize maxBytes s1) eqn:Hw.
    + exists 1%nat. cbn zeta. rewrite firstn_cons, firstn_O.
      split; [exact Hh|]. split; [exact Hset|]. split; [exact Hsel|].
      split; [exact Hlog|]. split; [exact Hc|]. split; [exact Hinv|].
      left; exact Hw.
    + destruct (IH maxSize maxBytes s1) as (j & H1 & H2 & H3 & H4 & H5 & H6 & H7).
      exists (S j). cbn zeta. rewrite firstn_cons.
      change ((k, t) :: firstn j rest) with ([(k, t)] ++ firstn j rest).
      rewrite filter_app, map_app.
      rewrite Hh in H4, H5.
      split; [congruence|].
      split; [eapply same_settings_trans; eauto|].
      split; [congruence|].
      split; [rewrite H4, Hlog, <- app_assoc; reflexivity|].
      split.
      * intros e. rewrite H5, Hc. split.
        -- intros [[A1 A2] A3]. split; auto.
           intros d Hd. apply in_app_iff in Hd. destruct Hd; auto.
        -- intros [A1 A2]. repeat split; auto;
             intros d Hd; apply A2, in_app_iff; auto.
      * split; [auto|]. destruct H7 as [H7|H7]; [now left|right].
        cbn; lia.
Qed.

Lemma NoDup_keys_inj : forall (c : Cache) k a b,
  NoDup (map fst c) -> In (k, a) c -> In (k, b) c -> a = b.
Proof.
  induction c as [|[k0 t0] c IH]; cbn; intros k a b Hnd Ha Hb; [contradiction|].
  inversion Hnd as [|? ? Hn Hd]; subst.
  destruct Ha as [Ha|Ha], Hb as [Hb|Hb]; try congruence.
  - inversion Ha; subst. exfalso; apply Hn.
    change k with (fst (k, b)); now apply in_map.
  - inversion Hb; subst. exfalso; apply Hn.
    change k with (fst (k, a)); now apply in_map.
  - eapply IH; eauto.
Qed.

Lemma NoDup_map_firstn : forall (A B : Type) (f : A -> B) n l,
  NoDup (map f l) -> NoDup (map f (firstn n l)).
Proof.
  induction n as [|n IH]; intros [|a l] H; cbn; try constructor.
  - inversion H as [|? ? Hn Hd]; subst.
    intros Hin; apply Hn. apply in_map_iff in Hin.
    destruct Hin as (x & Hx & Hin). apply In_firstn in Hin.
    apply in_map_iff; eauto.
  - inversion H; subst; auto.
Qed.

Lemma unloads_map_unload : forall (l : Cache),
  unloads (map (fun e => OnTileUnload (snd e)) l) = map snd l.
Proof.
  induction l as [|e l IH]; [reflexivity|].
  unfold unloads in *. cbn [map flat_map app]. now rewrite IH.
Qed.

(** What one call of [_resizeCache] does. *)
Lemma resizeCache_spec : forall s sel,
  _selectedTiles s = Some sel -> tree_inv (_cache s) (heap s) ->
  exists s' removed,
    _resizeCache s = Some s' /\
    same_settings s s' /\ _selectedTiles s' = Some sel /\
    _dirty s' = false /\
    unloads (log s') = unloads (log s) ++ map snd removed /\
    NoDup (map snd removed) /\
    (forall e, In e removed ->
       In e (_cache s) /\ isVisible (heap s (snd e)) = false) /\
    (forall e, In e (_cache s') <-> In e (_cache s) /\ ~ In e removed) /\
    stable ident (heap s) (heap s') /\ stable flags (heap s) (heap s') /\
    tree_inv (_cache s') (heap s') /\
    (limits_hold s' sel \/ all_visible s').
Proof.
  intros s sel Hsel Hinv. unfold _resizeCache. rewrite Hsel.
  set (M := effective_maxCacheSize (opts s) sel).
  set (B := effective_maxCacheByteSize (opts s)).
  destruct (exceeds (map_size (_cache s)) M || exceeds (_cacheByteSize s) B)
    eqn:Hover.
  - destruct (evict_scan_spec (_cache s) M B s)
      as (j & H1 & H2 & H3 & H4 & H5 & H6 & H7).
    cbn zeta in *.
    set (sc := evict_scan (_cache s) M B s) in *.
    set (removed := filter (invisible (heap s)) (firstn j (_cache s))) in *.
    specialize (H6 Hinv).
    destruct (rebuildTree_spec sc H6) as (Q & I & F & T & _).
    eexists; exists removed. split; [reflexivity|].
    state_simpl.
    pose proof Q as (Q1 & Q2 & Q3 & Q4 & Q5 & Q6 & Q7 & Q8 & Q9 & Q10).
    assert (Hrem : forall e, In e removed ->
              In e (_cache s) /\ isVisible (heap s (snd e)) = false).
    { intros e He. unfold removed in He. apply filter_In in He.
      destruct He as [He Hv]. apply In_firstn in He.
      unfold invisible in Hv. now apply negb_true_iff in Hv. }
    split.
    { eapply same_settings_trans; [exact H2|].
      apply quiet_settings in Q. exact Q. }
    split; [state_simpl; congruence|]. split; [reflexivity|].
    split.
    { state_simpl. rewrite Q10, H4, unloads_app. f_equal.
      apply unloads_map_unload. }
    split.
    { unfold removed. apply NoDup_map_filter, NoDup_map_firstn.
      apply Hinv. }
    split; [exact Hrem|].
    split.
    { intros e. state_simpl. rewrite Q2, H5. split; intros [A1 A2]; split; auto.
      - intros He. apply (A2 e He). reflexivity.
      - intros d Hd Heq. apply A2.
        destruct d as [kd td], e as [ke te]; cbn in Heq; subst kd.
        destruct (Hrem _ Hd) as [Hd' _].
        rewrite <- (NoDup_keys_inj _ _ _ _ (inv_keys _ _ Hinv) Hd' A1).
        exact Hd. }
    split; [state_simpl; rewrite <- H1; exact I|].
    split; [state_simpl; rewrite <- H1; exact F|].
    split; [state_simpl; rewrite Q2; exact T|].
    destruct H7 as [H7|H7].
    + left. unfold limits_hold, within_limits in *. state_simpl.
      destruct H2 as (H2 & _). rewrite Q1, Q2, Q3, H2. exact H7.
    + right. intros tile Ht. state_simpl. state_simpl_in Ht. rewrite Q2 in Ht.
      unfold map_values in Ht. apply in_map_iff in Ht.
      destruct Ht as ([k t] & Hk & Hin); cbn in Hk; subst t.
      rewrite (flags_isVisible _ _ _ F), H1.
      apply H5 in Hin. destruct Hin as [Hin Hnot].
      destruct (isVisible (heap s tile)) eqn:Hv; auto.
      exfalso. apply (Hnot (k, tile)); auto.
      unfold removed. apply filter_In. split.
      * rewrite firstn_all2 by exact H7. exact Hin.
      * unfold invisible; cbn. now rewrite Hv.
  - exists (if _dirty s
            then with_dirty false
                   (with_tiles (sort_by_zoom (heap s) (map_values (_cache s))) s)
            else s), [].
    split; [reflexivity|].
    assert (Hlim : limits_hold s sel).
    { unfold limits_hold, within_limits. fold M B.
      apply orb_false_iff in Hover. destruct Hover as [-> ->]. reflexivity. }
    destruct (_dirty s) eqn:Hd.
    + split; [unfold same_settings; state_simpl; auto|].
      split; [exact Hsel|]. split; [reflexivity|].
      split; [state_simpl; now rewrite app_nil_r|]. split; [constructor|].
      split; [intros e []|]. split; [state_simpl; tauto|].
      split; [apply stable_refl|]. split; [apply stable_refl|].
      split; [exact Hinv|]. left; exact Hlim.
    + rewrite app_nil_r.
      split; [apply same_settings_refl|]. split; [exact Hsel|].
      split; [exact Hd|]. split; [reflexivity|]. split; [constructor|].
      split; [intros e []|]. split; [tauto|].
      split; [apply stable_refl|]. split; [apply stable_refl|].
      split; [exact Hinv|]. left; exact Hlim.
Qed.

(** * The update cycle, step by step *)

Lemma grows_refl : forall s, grows s s.
Proof. intros; unfold grows; auto using incl_refl. Qed.

Lemma grows_trans : forall s1 s2 s3, grows s1 s2 -> grows s2 s3 -> grows s1 s3.
Proof.
  unfold grows; intros s1 s2 s3 (A1 & A2 & A3 & A4 & A5) (B1 & B2 & B3 & B4 & B5).
  repeat split; try congruence. eapply incl_tran; eauto.
Qed.

Lemma quiet_grows : forall s s', quiet s s' -> grows s s'.
Proof.
  unfold quiet, grows; intros s s' H.
  destruct H as (A1 & A2 & A3 & A4 & A5 & A6 & A7 & A8 & A9 & A10).
  rewrite A2. auto using incl_refl.
Qed.

Lemma Inv_quiet : forall s s',
  quiet s s' -> stable ident (heap s) (heap s') ->
  stable links (heap s) (heap s') -> Inv s -> Inv s'.
Proof.
  unfold Inv; intros s s' Q I L H.
  destruct Q as (_ & -> & _). eapply tree_inv_stable; eauto.
Qed.

(** Reads the create path of [_getTile] in [H]: the assertion of
    [getTileMetadata] held. *)
Ltac metadata_in H :=
  unfold getTileMetadata in H;
  match type of H with
  | context [_viewport ?s] =>
      let Hvp := fresh "Hvp" in
      destruct (_viewport s) eqn:Hvp; [|discriminate H]; cbn [bind] in H
  end.

Lemma getTile_create_spec : forall i s r s',
  _getTile i true s = Some (r, s') -> Inv s -> Inv s' /\ grows s s'.
Proof.
  unfold _getTile; intros i s r s' H Hinv.
  destruct (map_get (getTileCacheKey i) (_cache s)) as [tile|] eqn:Hget.
  - assert (Hq : quiet s s' /\ stable shape (heap s) (heap s')).
    { destruct (needsReload _); inversion H; subst; clear H.
      - split; [apply quiet_load|]. state_simpl. apply stable_upd; reflexivity.
      - split; [apply quiet_refl|apply stable_refl]. }
    destruct Hq as [Q S]. split; [|now apply quiet_grows].
    eapply Inv_quiet; eauto using shape_ident, shape_links.
  - metadata_in H. inversion H; subst; clear H. split.
    + unfold Inv. state_simpl. now apply tree_inv_create.
    + unfold grows. state_simpl. repeat split; auto.
      * rewrite unloads_app. cbn. now rewrite app_nil_r.
      * rewrite map_set_absent by exact Hget. now apply incl_appl, incl_refl.
Qed.

Lemma get_tiles_spec : forall idx s tiles s',
  get_tiles idx s = Some (tiles, s') -> Inv s ->
  Inv s' /\ grows s s' /\ same_settings s s'.
Proof.
  induction idx as [|i rest IH]; intros s tiles s' H Hinv; cbn [get_tiles] in H.
  - inversion H; subst. auto using grows_refl, same_settings_refl.
  - destruct (_getTile i true s) as [[r s1]|] eqn:E; cbn [bind] in H;
      [|discriminate].
    assert (Hset : same_settings s s1).
    { unfold _getTile in E.
      destruct (map_get _ _); [destruct (needsReload _)| metadata_in E];
        inversion E; subst; unfold same_settings; state_simpl; auto. }
    apply getTile_create_spec in E; auto. destruct E as [Hinv1 Hg1].
    destruct r as [tile|]; [|discriminate].
    destruct (get_tiles rest s1) as [[ts s2]|] eqn:E2; cbn [bind] in H;
      [|discriminate].
    inversion H; subst.
    destruct (IH _ _ _ E2 Hinv1) as (A1 & A2 & A3).
    eauto using grows_trans, same_settings_trans.
Qed.

(** ** The reload branch of update *)

Lemma number_text_head : forall n,
  exists c rest,
    number_text n = String.String c rest /\ (is_digit c = true \/ c = hyphen).
Proof.
  intros n. unfold number_text.
  destruct (Z.to_int n) as [d|d]; cbn.
  - unfold DecimalString.NilZero.string_of_uint.
    destruct d; cbn; eauto.
  - eauto.
Qed.

Lemma getTileCacheKey_key_text : forall i,
  key_text (getTileCacheKey i) = getTileCacheKey_text i.
Proof. reflexivity. Qed.

(** The text of a missing coordinate begins the key of no index. *)
Lemma key_text_defined : forall k, key_text k <> undefined_key_text.
Proof.
  intros [[x y] z]. unfold key_text.
  destruct (number_text_head x) as (c & rest & -> & Hc).
  cbn. intros H. injection H as Hhead _.
  destruct Hc as [Hc| ->]; [subst c|]; discriminate.
Qed.

Lemma map_get_text_undefined : forall c,
  map_get_text undefined_key_text c = None.
Proof.
  induction c as [|[k v] c IH]; cbn [map_get_text]; [reflexivity|].
  destruct (String.eqb undefined_key_text (key_text k)) eqn:E; [|exact IH].
  apply String.eqb_eq in E. symmetry in E. now apply key_text_defined in E.
Qed.

Lemma getTile_wrapped_misses : forall s, _getTile_wrapped s = (None, s).
Proof.
  intros s. unfold _getTile_wrapped. now rewrite map_get_text_undefined.
Qed.

Lemma reget_tiles_cases : forall sel s,
  reget_tiles sel s = match sel with [] => Some ([], s) | _ :: _ => None end.
Proof.
  intros [|t rest] s; cbn [reget_tiles]; [reflexivity|].
  now rewrite getTile_wrapped_misses.
Qed.

Lemma reget_tiles_spec : forall sel s tiles s',
  reget_tiles sel s = Some (tiles, s') ->
  quiet s s' /\ stable shape (heap s) (heap s').
Proof.
  intros sel s tiles s' H. rewrite reget_tiles_cases in H.
  destruct sel; [|discriminate].
  inversion H; subst. split; [apply quiet_refl|apply stable_refl].
Qed.

Lemma update_select_spec : forall viewport modelMatrix idx s s1,
  update_select viewport modelMatrix idx s = Some s1 -> Inv s ->
  Inv s1 /\ grows s s1 /\ _frameNumber s1 = _frameNumber s.
Proof.
  unfold update_select; intros viewport modelMatrix idx s s1 H Hinv.
  destruct (_ || _).
  - set (s2 := with_viewport (Some viewport)
                 (if negb (Matrix4_equals (new_Matrix4 modelMatrix) (_modelMatrix s))
                  then with_modelMatrix (new_Matrix4 modelMatrix) s else s)) in H.
    assert (Hinv2 : Inv s2)
      by (unfold s2; destruct (negb _); exact Hinv).
    assert (Hg2 : grows s s2)
      by (unfold s2; destruct (negb _); unfold grows; state_simpl;
          auto using incl_refl).
    assert (Hf2 : _frameNumber s2 = _frameNumber s)
      by (unfold s2; destruct (negb _); reflexivity).
    destruct (get_tiles idx s2) as [[tiles s3]|] eqn:E; cbn [bind] in H;
      [|discriminate].
    destruct (get_tiles_spec _ _ _ _ E Hinv2) as (Hinv3 & Hg3 & Hs3).
    set (s4 := with_selectedTiles (Some tiles) s3) in H.
    assert (Hinv4 : Inv s4) by exact Hinv3.
    assert (Hg4 : grows s s4) by (eapply grows_trans; [exact Hg2|exact Hg3]).
    assert (Hf4 : _frameNumber s4 = _frameNumber s).
    { destruct Hs3 as (_ & _ & _ & _ & Hf). unfold s4; state_simpl. congruence. }
    destruct (_dirty s4); inversion H; subst; auto.
    destruct (rebuildTree_spec s4 Hinv4) as (Q & I & F & T & _).
    split; [|split].
    + unfold Inv. destruct Q as (_ & -> & _). exact T.
    + eapply grows_trans; [exact Hg4|now apply quiet_grows].
    + destruct Q as (_ & _ & _ & _ & _ & _ & _ & _ & Hf & _). congruence.
  - destruct (tileset_needsReload s).
    + destruct (_selectedTiles s) as [sel|]; [|discriminate].
      destruct (reget_tiles sel s) as [[tiles s2]|] eqn:E; cbn in H;
        [|discriminate].
      inversion H; subst. apply reget_tiles_spec in E. destruct E as [Q S].
      split; [|split].
      * apply (Inv_quiet s s2) in Hinv; eauto using shape_ident, shape_links.
      * apply quiet_grows in Q. exact Q.
      * destruct Q as (_ & _ & _ & _ & _ & _ & _ & _ & Hf & _). exact Hf.
    + inversion H; subst. auto using grows_refl.
Qed.

Lemma save_and_reset_stable : forall X (proj : Tile2DHeader -> X) values h,
  ignores_flags proj -> stable proj h (snd (save_and_reset values h)).
Proof.
  intros X proj values; induction values as [|t rest IH]; intros h Hp; cbn.
  - apply stable_refl.
  - destruct (save_and_reset rest _) as [vs h2] eqn:E; cbn.
    change h2 with (snd (vs, h2)); rewrite <- E.
    eapply stable_trans; [|apply IH, Hp].
    apply stable_upd. intros t0. destruct Hp as [[_ Hv] Hs].
    now rewrite Hv, Hs.
Qed.

Lemma select_tiles_stable : forall X (proj : Tile2DHeader -> X) sel h,
  ignores_flags proj -> stable proj h (select_tiles sel h).
Proof.
  intros X proj sel h Hp. unfold select_tiles.
  apply stable_fold_left. intros h0 a. apply stable_upd.
  intros t0. destruct Hp as [[_ Hv] Hs]. now rewrite Hv, Hs.
Qed.

Lemma updateTileStates_spec : forall s changed s',
  updateTileStates s = Some (changed, s') ->
  quiet s s' /\ log s' = log s /\
  (forall X (proj : Tile2DHeader -> X),
     ignores_flags proj -> stable proj (heap s) (heap s')) /\
  exists sel, _selectedTiles s = Some sel.
Proof.
  unfold updateTileStates; intros s changed s' H.
  destruct (_selectedTiles s) as [sel|] eqn:Hsel; [|discriminate].
  destruct (save_and_reset (map_values (_cache s)) (heap s)) as [vs h1] eqn:E.
  destruct (STRATEGIES _ _ _) as [h3|] eqn:E3; cbn in H; [|discriminate].
  inversion H; subst; clear H.
  split; [unfold quiet; state_simpl; auto 12|].
  split; [reflexivity|]. split; [|eauto].
  intros X proj Hp. state_simpl.
  pose proof (save_and_reset_stable _ proj (map_values (_cache s)) (heap s) Hp)
    as S1.
  rewrite E in S1; cbn [snd] in S1.
  eapply stable_trans; [exact S1|].
  eapply stable_trans; [apply (select_tiles_stable _ proj sel h1 Hp)|].
  eapply STRATEGIES_stable; [apply Hp|exact E3].
Qed.

Lemma ignores_flags_ident : ignores_flags ident.
Proof. split; [apply ignores_marks_ident|reflexivity]. Qed.
Lemma ignores_flags_links : ignores_flags links.
Proof. split; [apply ignores_marks_links|reflexivity]. Qed.

Lemma abort_tile_shape : forall t, shape (abort_tile t) = shape t.
Proof. intros t; unfold abort_tile; destruct (isLoading t); reflexivity. Qed.

Lemma prune_loop_quiet : forall maxReq cands n s,
  quiet s (prune_loop maxReq n cands s) /\
  stable shape (heap s) (heap (prune_loop maxReq n cands s)).
Proof.
  intros maxReq cands; induction cands as [|t rest IH]; intros n s; cbn.
  - split; [apply quiet_refl|apply stable_refl].
  - destruct (_ && _); [|split; [apply quiet_refl|apply stable_refl]].
    destruct (IH (n - 1) (emit (Abort t) (modify t abort_tile s))) as [Q S].
    split.
    + eapply quiet_trans; [|exact Q].
      eapply quiet_trans; [apply quiet_modify|apply quiet_emit; discriminate].
    + eapply stable_trans; [|exact S]. state_simpl.
      apply stable_upd, abort_tile_shape.
Qed.

Lemma update_before_resize_spec : forall viewport modelMatrix idx s changed s3,
  update_before_resize viewport modelMatrix idx s = Some (changed, s3) ->
  Inv s ->
  Inv s3 /\ grows s s3 /\ _frameNumber s3 = _frameNumber s /\
  exists sel, _selectedTiles s3 = Some sel.
Proof.
  unfold update_before_resize; intros viewport modelMatrix idx s changed s3 H Hinv.
  destruct (update_select viewport modelMatrix idx s) as [s1|] eqn:E1;
    cbn in H; [|discriminate].
  destruct (updateTileStates s1) as [[ch s2]|] eqn:E2; cbn in H; [|discriminate].
  inversion H; subst; clear H.
  destruct (update_select_spec _ _ _ _ _ E1 Hinv) as (Hinv1 & Hg1 & Hf1).
  destruct (updateTileStates_spec _ _ _ E2) as (Q2 & _ & S2 & sel & Hsel).
  destruct (prune_loop_quiet (maxRequests (opts s2)) (abortCandidates s2)
              (ongoingRequestCount s2) s2) as [Q3 S3].
  fold (_pruneRequests s2) in Q3, S3.
  assert (Hinv2 : Inv s2).
  { eapply Inv_quiet; eauto using ignores_flags_ident, ignores_flags_links. }
  split; [|split; [|split]].
  - eapply Inv_quiet; eauto using shape_ident, shape_links.
  - eapply grows_trans; [exact Hg1|].
    eapply grows_trans; apply quiet_grows; eauto.
  - destruct Q2 as (_ & _ & _ & _ & _ & _ & _ & _ & Hf2 & _).
    destruct Q3 as (_ & _ & _ & _ & _ & _ & _ & _ & Hf3 & _). congruence.
  - exists sel. destruct Q2 as (_ & _ & _ & Hs2 & _).
    destruct Q3 as (_ & _ & _ & Hs3 & _). congruence.
Qed.

(** ** Every reachable tileset satisfies the invariant *)

Lemma setOptions_frame : forall o s,
  _cache (setOptions o s) = _cache s /\ heap (setOptions o s) = heap s.
Proof.
  intros o s. unfold setOptions.
  destruct (Number_isFinite (maxZoom o)); destruct (maxZoom o) as [[]|];
    destruct (Number_isFinite (minZoom o)); destruct (minZoom o) as [[]|];
    split; reflexivity.
Qed.

Lemma Inv_new : forall o, Inv (new_Tileset2D o).
Proof.
  intros o. unfold Inv, new_Tileset2D.
  match goal with |- context [setOptions o ?s0] =>
    destruct (setOptions_frame o s0) as [-> ->] end.
  state_simpl. constructor.
  - cbn; constructor.
  - cbn; constructor.
  - intros ? ? H; destruct H.
  - intros r Hr; cbn in Hr; lia.
  - intros r p Hr; cbn in Hr; lia.
  - intros ? ? ? H; destruct H.
Qed.

Lemma Inv_reloadAll_loop : forall entries s,
  Inv s -> Inv (reloadAll_loop entries s).
Proof.
  induction entries as [|[k t] rest IH]; intros s H; cbn; auto.
  destruct (negb _); apply IH; unfold Inv in *; state_simpl.
  - now apply tree_inv_delete.
  - eapply tree_inv_stable; [| |exact H]; apply stable_upd; reflexivity.
Qed.

Lemma tree_inv_nil : forall c h, tree_inv c h -> tree_inv [] h.
Proof.
  intros c h [K V E Z P C]. constructor.
  - cbn; constructor.
  - cbn; constructor.
  - intros ? ? H; destruct H.
  - exact Z.
  - exact P.
  - intros ? ? ? H; destruct H.
Qed.

Lemma finalize_heap : forall l s,
  stable shape (heap s)
    (heap (fold_left
             (fun s tile =>
                if isLoading (heap s tile)
                then emit (Abort tile) (modify tile abort_tile s)
                else s) l s)).
Proof.
  induction l as [|t rest IH]; intros s; cbn.
  - apply stable_refl.
  - eapply stable_trans; [|apply IH].
    destruct (isLoading _); [|apply stable_refl].
    state_simpl. apply stable_upd, abort_tile_shape.
Qed.

Lemma Inv_finalize : forall s, Inv s -> Inv (finalize s).
Proof.
  intros s H. unfold Inv, finalize in *. state_simpl.
  apply tree_inv_nil with (c := _cache s).
  pose proof (finalize_heap (map_values (_cache s)) s) as S.
  eapply tree_inv_stable; eauto using shape_ident, shape_links.
Qed.

Lemma Inv_update : forall viewport modelMatrix idx s s',
  update viewport modelMatrix idx s = Some s' -> Inv s -> Inv s'.
Proof.
  unfold update; intros viewport modelMatrix idx s s' H Hinv.
  destruct (update_before_resize viewport modelMatrix idx s)
    as [[changed s3]|] eqn:E; cbn in H; [|discriminate].
  destruct (update_before_resize_spec _ _ _ _ _ _ E Hinv)
    as (Hinv3 & _ & _ & sel & Hsel).
  assert (H4 : forall s4,
            (if _dirty s3 then _resizeCache s3 else Some s3) = Some s4 ->
            Inv s4).
  { intros s4 H4. destruct (_dirty s3).
    - destruct (resizeCache_spec s3 sel Hsel Hinv3)
        as (s4' & removed & R1 & R).
      rewrite R1 in H4; inversion H4; subst. apply R.
    - inversion H4; subst; exact Hinv3. }
  destruct (if _dirty s3 then _resizeCache s3 else Some s3) as [s4|];
    cbn in H; [|discriminate].
  inversion H; subst. specialize (H4 s4 eq_refl).
  destruct changed; exact H4.
Qed.

Lemma Inv_tile_loaded : forall tile data bytes s s',
  tile_loaded tile data bytes s = Some s' -> Inv s -> Inv s'.
Proof.
  unfold tile_loaded; intros tile data bytes s s' H Hinv.
  set (s2 := emit (OnTileLoad tile)
               (modify tile (with_load (Some data) Loaded false bytes) s)) in *.
  assert (Hinv2 : Inv s2).
  { unfold Inv, s2; state_simpl.
    eapply tree_inv_stable; [| |exact Hinv]; apply stable_upd; reflexivity. }
  destruct (truthy _); [|inversion H; subst; exact Hinv2].
  set (s3 := with_cacheByteSize _ s2) in H.
  destruct (_selectedTiles s3) as [sel|] eqn:Hsel.
  - destruct (resizeCache_spec s3 sel Hsel Hinv2) as (s4 & removed & R1 & R).
    rewrite R1 in H; inversion H; subst. apply R.
  - unfold _resizeCache in H. rewrite Hsel in H. discriminate.
Qed.

Lemma Inv_step : forall s s', step s s' -> Inv s -> Inv s'.
Proof.
  intros s s' Hstep Hinv. destruct Hstep.
  - eapply Inv_update; eauto.
  - unfold Inv. destruct (setOptions_frame o s) as [-> ->]. exact Hinv.
  - now apply Inv_reloadAll_loop.
  - now apply Inv_finalize.
  - eapply Inv_tile_loaded; eauto.
  - unfold Inv, tile_failed; state_simpl.
    eapply tree_inv_stable; [| |exact Hinv]; apply stable_upd; reflexivity.
Qed.

Lemma reachable_Inv : forall s, reachable s -> Inv s.
Proof.
  induction 1 as [o|s s' _ IH Hstep]; [apply Inv_new|].
  eapply Inv_step; eauto.
Qed.

Lemma reachable_run_update : forall viewport modelMatrix idx s,
  reachable s -> reachable (run (update viewport modelMatrix idx) s).
Proof.
  intros viewport modelMatrix idx s H. unfold run.
  destruct (update viewport modelMatrix idx s) as [s'|] eqn:E; auto.
  eapply reach_step; [exact H|]. eapply step_update; eauto.
Qed.

Lemma reachable_run_loaded : forall tile data bytes s,
  reachable s -> (tile < size (heap s))%nat ->
  isLoading (heap s tile) = true ->
  reachable (run (tile_loaded tile data bytes) s).
Proof.
  intros tile data bytes s H Ht Hl. unfold run.
  destruct (tile_loaded tile data bytes s) as [s'|] eqn:E; auto.
  eapply reach_step; [exact H|]. eapply step_loaded; eauto.
Qed.

(** * Cache limits after update (C2) *)

(** C2 (as amended).  When [update] reaches its resize step with the cache
    marked as modified, it returns, and afterwards either the number of
    resident tiles and the tracked byte total are within the effective
    limits, or every tile still resident is visible. *)
Theorem update_limits_or_all_visible :
  forall s viewport modelMatrix idx changed s3,
  reachable s ->
  update_before_resize viewport modelMatrix idx s = Some (changed, s3) ->
  _dirty s3 = true ->
  exists s' sel,
    update viewport modelMatrix idx s = Some s' /\
    _selectedTiles s' = Some sel /\
    (limits_hold s' sel \/ all_visible s').
Proof.
  intros s viewport modelMatrix idx changed s3 Hr E Hd.
  destruct (update_before_resize_spec _ _ _ _ _ _ E (reachable_Inv _ Hr))
    as (Hinv3 & _ & _ & sel & Hsel).
  destruct (resizeCache_spec s3 sel Hsel Hinv3)
    as (s4 & removed & R1 & _ & R3 & _ & _ & _ & _ & _ & _ & _ & _ & R12).
  unfold update. rewrite E. cbn [bind]. rewrite Hd, R1. cbn [bind].
  eexists; exists sel. split; [reflexivity|].
  destruct changed.
  - split; [exact R3|]. exact R12.
  - split; [exact R3|]. exact R12.
Qed.

(** ** Two selected tiles, room for one *)

Lemma update_limits_or_all_visible_witness :
  exists s' sel,
    update 0%nat None [mkIndex 0 0 1; mkIndex 1 0 1] (new_Tileset2D tight_never)
    = Some s' /\
    _selectedTiles s' = Some sel /\
    (limits_hold s' sel \/ all_visible s').
Proof.
  eapply (update_limits_or_all_visible (new_Tileset2D tight_never) 0%nat None
            [mkIndex 0 0 1; mkIndex 1 0 1]).
  - apply reach_new.
  - vm_compute; reflexivity.
  - vm_compute; reflexivity.
Defined.

(** C2 as stated fails: with [maxCacheSize = 1] and two selected tiles,
    both are visible, none is evicted, and two tiles are resident after
    [update].  When the next [update] selects only the first of them, no
    tile is created, the resize step is skipped, and two tiles stay
    resident although the second is no longer visible. *)
Lemma cache_limit_counterexample :
  (update 0%nat None [mkIndex 0 0 1; mkIndex 1 0 1] (new_Tileset2D tight_never)
   = Some full_s1 /\
   _selectedTiles full_s1 = Some [0%nat; 1%nat] /\
   effective_maxCacheSize (opts full_s1) [0%nat; 1%nat] = Lim 1 /\
   map_size (_cache full_s1) = 2 /\
   exceeds (map_size (_cache full_s1))
           (effective_maxCacheSize (opts full_s1) [0%nat; 1%nat]) = true) /\
  (update 1%nat None [mkIndex 0 0 1] full_s1 = Some full_s2 /\
   _selectedTiles full_s2 = Some [0%nat] /\
   effective_maxCacheSize (opts full_s2) [0%nat] = Lim 1 /\
   map_size (_cache full_s2) = 2 /\
   isVisible (heap full_s2 1%nat) = false).
Proof.
  split.
  - split; [vm_compute; reflexivity|].
    split; [vm_compute; reflexivity|].
    split; [vm_compute; reflexivity|].
    split; vm_compute; reflexivity.
  - split; [vm_compute; reflexivity|].
    split; [vm_compute; reflexivity|].
    split; [vm_compute; reflexivity|].
    split; vm_compute; reflexivity.
Qed.

(** * Eviction and onTileUnload (C3) *)




(** ** A selected tile is evicted *)

Lemma reachable_bug_s3 : reachable bug_s3.
Proof.
  apply reachable_run_update, reachable_run_loaded.
  - apply reachable_run_update, reach_new.
  - vm_compute; lia.
  - vm_compute; reflexivity.
Qed.



(** * The frame counter of a repeated update (C7) *)

(** C7 at its failing input.  The first [update] with viewport 1 returns
    frame 1 and evicts the selected tile 1; the second [update] with the
    same viewport and matrix, with no reload pending and nothing having
    happened in between, hides tile 0 (no resident selected tile asks for
    it any more) and returns frame 2. *)
Theorem update_twice_frame_counter :
  reachable bug_s3 /\
  update 1%nat None [mkIndex 0 0 1] bug_s3 = Some bug_s4 /\
  update 1%nat None [mkIndex 0 0 1] bug_s4 = Some bug_s5 /\
  tileset_needsReload bug_s4 = false /\
  _frameNumber bug_s4 = 1 /\
  _frameNumber bug_s5 = 2 /\
  isVisible (heap bug_s4 0%nat) = true /\
  isVisible (heap bug_s5 0%nat) = false /\
  _selectedTiles bug_s4 = Some [1%nat] /\
  map_values (_cache bug_s4) = [0%nat] /\
  unloads (log bug_s4) = [1%nat].
Proof.
  split; [exact reachable_bug_s3|].
  split; [vm_compute; reflexivity|].
  split; [vm_compute; reflexivity|].
  split; [vm_compute; reflexivity|].
  split; [vm_compute; reflexivity|].
  split; [vm_compute; reflexivity|].
  split; [vm_compute; reflexivity|].
  split; [vm_compute; reflexivity|].
  split; [vm_compute; reflexivity|].
  split; vm_compute; reflexivity.
Qed.

(** * The theorems of C6, C8 and C10 on concrete tilesets *)

Lemma reloadAll_spec_witness :
  log (reloadAll reload_s) = log reload_s /\
  ~ In ((0, 0, 0), 0%nat) (_cache (reloadAll reload_s)) /\
  In ((1, 0, 0), 1%nat) (_cache (reloadAll reload_s)) /\
  needs_reload (heap (reloadAll reload_s) 1%nat) = true.
Proof.
  assert (Hnd : NoDup (map fst (_cache reload_s))).
  { vm_compute. repeat constructor; cbn; intuition congruence. }
  destruct (reloadAll_spec reload_s Hnd) as (H1 & H2 & H3 & _).
  split; [exact H1|].
  split.
  - apply (H2 (0, 0, 0) 0%nat); [vm_compute; auto|vm_compute; reflexivity].
  - apply (H3 (1, 0, 0) 1%nat); [vm_compute; auto|vm_compute; reflexivity].
Defined.

Lemma never_visible_iff_selected_witness :
  exists changed s',
    updateTileStates never_s = Some (changed, s') /\
    _cache s' = _cache never_s /\
    _selectedTiles s' = Some [1%nat] /\
    forall tile, In tile (map_values (_cache s')) ->
      isVisible (heap s' tile) = isSelected (heap s' tile) /\
      (isSelected (heap s' tile) = true <-> In tile [1%nat]).
Proof.
  apply (never_visible_iff_selected never_s [1%nat]).
  - vm_compute; reflexivity.
  - vm_compute; reflexivity.
Defined.

Lemma pruneRequests_spec_witness :
  log (_pruneRequests prune_s1) = log prune_s1 ++ [Abort 0%nat] /\
  isLoading (heap (_pruneRequests prune_s1) 0%nat) = false /\
  isLoading (heap (_pruneRequests prune_s1) 1%nat) = true.
Proof.
  destruct (pruneRequests_spec prune_s1) as (H1 & _ & _ & _ & _ & _ & H7).
  destruct (H7 0%nat 1%nat) as (Ha & Hb & Hc);
    try (vm_compute; reflexivity); [discriminate|].
  rewrite Ha in H1. split; [exact H1|]. split; assumption.
Defined.

(** * The strategies return on a well-formed tree *)

Lemma links_ascend_stable : forall h h',
  stable ident h h' -> stable links h h' ->
  links_ascend h -> links_ascend h'.
Proof.
  intros h h' I L H r Hr. pose proof (proj1 I) as Hs.
  rewrite Hs in Hr. destruct (H r Hr) as [Hp Hc]. split.
  - intros p Hpar. rewrite (links_parent _ _ _ L) in Hpar.
    rewrite Hs, !(ident_zoom _ _ _ I). now apply Hp.
  - intros c Hin. rewrite (links_children _ _ _ L) in Hin.
    rewrite Hs, !(ident_zoom _ _ _ I). now apply Hc.
Qed.

Lemma filter_length_le : forall (A : Type) (f g : A -> bool) l,
  (forall x, In x l -> f x = true -> g x = true) ->
  (length (filter f l) <= length (filter g l))%nat.
Proof.
  induction l as [|a l IH]; cbn; intros H; [lia|].
  assert (IH' : (length (filter f l) <= length (filter g l))%nat)
    by (apply IH; intros; apply H; auto).
  destruct (f a) eqn:Ef.
  - rewrite (H a (or_introl eq_refl) Ef). cbn; lia.
  - destruct (g a); cbn; lia.
Qed.

Lemma filter_length_lt : forall (A : Type) (f g : A -> bool) l a,
  (forall x, In x l -> f x = true -> g x = true) ->
  In a l -> f a = false -> g a = true ->
  (length (filter f l) < length (filter g l))%nat.
Proof.
  induction l as [|b l IH]; cbn; intros a H Hin Hf Hg; [contradiction|].
  assert (Hle : (length (filter f l) <= length (filter g l))%nat)
    by (apply filter_length_le; intros; apply H; auto).
  destruct Hin as [->|Hin].
  - rewrite Hf, Hg. cbn; lia.
  - assert (Hlt : (length (filter f l) < length (filter g l))%nat)
      by (apply (IH a); auto).
    destruct (f b) eqn:Ef.
    + rewrite (H b (or_introl eq_refl) Ef). cbn; lia.
    + destruct (g b); cbn; lia.
Qed.

Lemma filter_length_bound : forall (A : Type) (f : A -> bool) l,
  (length (filter f l) <= length l)%nat.
Proof.
  induction l as [|a l IH]; cbn; [lia|]. destruct (f a); cbn; lia.
Qed.

Lemma below_bound : forall h r, (below h r <= size h)%nat.
Proof.
  intros; unfold below.
  etransitivity; [apply filter_length_bound|]. now rewrite length_seq.
Qed.

Lemma above_bound : forall h r, (above h r <= size h)%nat.
Proof.
  intros; unfold above.
  etransitivity; [apply filter_length_bound|]. now rewrite length_seq.
Qed.

Lemma below_lt : forall h p r,
  (p < size h)%nat -> zoom (h p) < zoom (h r) ->
  (below h p < below h r)%nat.
Proof.
  intros h p r Hp Hz. unfold below. apply filter_length_lt with (a := p).
  - intros x _ Hx. apply Z.ltb_lt in Hx. apply Z.ltb_lt. lia.
  - apply in_seq; lia.
  - apply Z.ltb_ge; lia.
  - now apply Z.ltb_lt.
Qed.

Lemma above_lt : forall h c r,
  (c < size h)%nat -> zoom (h r) < zoom (h c) ->
  (above h c < above h r)%nat.
Proof.
  intros h c r Hc Hz. unfold above. apply filter_length_lt with (a := c).
  - intros x _ Hx. apply Z.ltb_lt in Hx. apply Z.ltb_lt. lia.
  - apply in_seq; lia.
  - apply Z.ltb_ge; lia.
  - now apply Z.ltb_lt.
Qed.

Lemma above_stable : forall h h' r,
  stable ident h h' -> above h' r = above h r.
Proof.
  intros h h' r I. unfold above. rewrite (proj1 I).
  apply f_equal, filter_ext. intros x. now rewrite !(ident_zoom _ _ _ I).
Qed.

Lemma ancestors_walk_total : forall h fuel t,
  links_ascend h -> (t < size h)%nat -> (below h t < fuel)%nat ->
  exists res, ancestors_walk fuel (Some t) h = Some res.
Proof.
  intros h fuel; induction fuel as [|fuel IH]; intros t Hl Ht Hf; [lia|].
  cbn. destruct (hasData (h t)); [eauto|].
  destruct (parent (h t)) as [p|] eqn:Hp.
  - destruct (Hl t Ht) as [Hpar _]. destruct (Hpar p Hp) as [Hp' Hz].
    apply IH; auto. pose proof (below_lt h p t Hp' Hz). lia.
  - destruct fuel; cbn; eauto.
Qed.

Lemma getPlaceholderInAncestors_total : forall h t,
  links_ascend h -> (t < size h)%nat ->
  exists res, getPlaceholderInAncestors t h = Some res.
Proof.
  intros h t Hl Ht. apply ancestors_walk_total; auto.
  pose proof (below_bound h t). lia.
Qed.

Lemma foldM_total : forall (A S : Type) (f : A -> S -> option S)
  (I : S -> Prop) l s,
  (forall a s, In a l -> I s -> exists s', f a s = Some s' /\ I s') ->
  I s -> exists s', foldM f l s = Some s' /\ I s'.
Proof.
  intros A S f I l; induction l as [|a l IH]; intros s Hf Hs; cbn.
  - eauto.
  - destruct (Hf a s (or_introl eq_refl) Hs) as (s1 & E & H1).
    rewrite E; cbn. apply IH; auto. intros; apply Hf; auto. now right.
Qed.

Lemma children_walk_total : forall fuel h tile,
  links_ascend h -> (tile < size h)%nat -> (above h tile < fuel)%nat ->
  exists h', children_walk fuel tile h = Some h'.
Proof.
  induction fuel as [|fuel IH]; intros h tile Hl Ht Hf; [lia|].
  cbn [children_walk].
  destruct (foldM_total _ _
              (fun child (h0 : Heap) =>
                 if hasData (h0 child)
                 then Some (upd child (or_state TILE_STATE_VISIBLE) h0)
                 else children_walk fuel child h0)
              (fun h0 => stable ident h h0 /\ stable links h h0)
              (children (h tile)) h) as (h' & E & _).
  - intros c h0 Hc [I L].
    destruct (Hl tile Ht) as [_ Hch]. destruct (Hch c Hc) as [Hc' Hz].
    destruct (hasData (h0 c)).
    + eexists; split; [reflexivity|].
      split; (eapply stable_trans; [eassumption|]);
        apply stable_upd; reflexivity.
    + destruct (IH h0 c) as (h1 & E1).
      * eapply links_ascend_stable; eauto.
      * now rewrite (proj1 I).
      * rewrite (above_stable _ _ _ I).
        pose proof (above_lt h c tile Hc' Hz). lia.
      * exists h1. split; [exact E1|].
        split; (eapply stable_trans; [eassumption|]).
        -- apply (children_walk_stable ident ignores_marks_ident _ _ _ _ E1).
        -- apply (children_walk_stable links ignores_marks_links _ _ _ _ E1).
  - split; apply stable_refl.
  - eauto.
Qed.

Lemma getPlaceholderInChildren_total : forall h t,
  links_ascend h -> (t < size h)%nat ->
  exists h', getPlaceholderInChildren t h = Some h'.
Proof.
  intros h t Hl Ht. apply children_walk_total; auto.
  pose proof (above_bound h t). lia.
Qed.

(** * Best-available shows only tiles that have data (C4) *)

Lemma clear_states_zero : forall l (h : Heap) u,
  In u l -> state (clear_states l h u) = 0.
Proof.
  unfold clear_states.
  induction l as [|a l IH]; intros h u Hin; cbn; [contradiction|].
  destruct (in_dec Nat.eq_dec u l) as [Hl|Hl]; [now apply IH|].
  destruct Hin as [->|Hin]; [|contradiction].
  assert (Hkeep : forall (h0 : Heap),
            fold_left (fun (h : Heap) tile => upd tile (with_state 0) h) l h0 u
            = h0 u).
  { clear -Hl. induction l as [|b l IH]; intros h0; cbn; auto.
    rewrite IH by (intros H; apply Hl; now right).
    apply upd_other. intros ->; apply Hl; now left. }
  rewrite Hkeep. now rewrite upd_same.
Qed.

Lemma marked_upd : forall l h x,
  marked_with_data l h -> hasData (h x) = true ->
  marked_with_data l (upd x (or_state TILE_STATE_VISIBLE) h).
Proof.
  intros l h x Hm Hx u Hu Hbit.
  destruct (Nat.eq_dec u x) as [->|Hne].
  - rewrite upd_same. exact Hx.
  - rewrite upd_other in Hbit |- * by exact Hne. now apply Hm.
Qed.

Lemma ancestors_walk_marks : forall l fuel tile h found h',
  ancestors_walk fuel tile h = Some (found, h') ->
  marked_with_data l h -> marked_with_data l h'.
Proof.
  intros l; induction fuel as [|fuel IH]; intros [t|] h found h' H Hm;
    cbn in H; try discriminate; try (inversion H; subst; exact Hm).
  destruct (hasData (h t)) eqn:Hd.
  - inversion H; subst. now apply marked_upd.
  - eapply IH; eauto.
Qed.

Lemma foldM_invariant : forall (A S : Type) (f : A -> S -> option S)
  (I : S -> Prop) l s s',
  (forall a s s', f a s = Some s' -> I s -> I s') ->
  foldM f l s = Some s' -> I s -> I s'.
Proof.
  intros A S f I l; induction l as [|a l IH]; intros s s' Hf H Hs; cbn in H.
  - inversion H; now subst.
  - destruct (f a s) as [s1|] eqn:E; cbn in H; [|discriminate].
    eapply IH; eauto.
Qed.

Lemma children_walk_marks : forall l fuel tile h h',
  children_walk fuel tile h = Some h' ->
  marked_with_data l h -> marked_with_data l h'.
Proof.
  intros l; induction fuel as [|fuel IH]; intros tile h h' H Hm;
    cbn in H; [discriminate|].
  eapply foldM_invariant; [|exact H|exact Hm].
  intros c h1 h2 E H1. cbn in E.
  destruct (hasData (h1 c)) eqn:Hd.
  - inversion E; subst. now apply marked_upd.
  - eapply IH; eauto.
Qed.

Lemma default_step_marks : forall l tile h h',
  default_step tile h = Some h' ->
  marked_with_data l h -> marked_with_data l h'.
Proof.
  unfold default_step, getPlaceholderInAncestors, getPlaceholderInChildren.
  intros l tile h h' H Hm.
  destruct (isSelected (h tile)); [|inversion H; subst; exact Hm].
  destruct (ancestors_walk _ _ h) as [[found h1]|] eqn:E; cbn in H;
    [|discriminate].
  apply (ancestors_walk_marks l) in E; auto.
  destruct found; [inversion H; subst; exact E|].
  eapply (children_walk_marks l (S (size h1)) tile); eauto.
Qed.

Lemma show_all_other : forall l (h : Heap) u,
  ~ In u l ->
  fold_left (fun (h : Heap) tile => show_from_state tile h) l h u = h u.
Proof.
  induction l as [|a l IH]; intros h u Hu; cbn; auto.
  rewrite IH by (intros H; apply Hu; now right).
  apply upd_other. intros ->; apply Hu; now left.
Qed.

Lemma show_all_visible : forall l (h : Heap) u,
  In u l ->
  isVisible (fold_left (fun (h : Heap) tile => show_from_state tile h) l h u)
  = has_bit (state (h u)) TILE_STATE_VISIBLE.
Proof.
  induction l as [|a l IH]; intros h u Hin; cbn; [contradiction|].
  destruct (in_dec Nat.eq_dec u l) as [Hl|Hl].
  - rewrite IH by exact Hl. unfold show_from_state.
    f_equal. apply (stable_field _ state h _ u).
    apply stable_upd; reflexivity.
  - destruct Hin as [->|Hin]; [|contradiction].
    rewrite show_all_other by exact Hl.
    unfold show_from_state. now rewrite upd_same.
Qed.

Lemma default_step_total : forall h tile,
  links_ascend h -> (tile < size h)%nat ->
  exists h', default_step tile h = Some h'.
Proof.
  intros h tile Hl Ht. unfold default_step.
  destruct (isSelected (h tile)); [|eauto].
  destruct (getPlaceholderInAncestors_total h tile Hl Ht) as ([found h1] & E).
  rewrite E; cbn. destruct found; [eauto|].
  unfold getPlaceholderInAncestors in E.
  apply getPlaceholderInChildren_total.
  - eapply links_ascend_stable; [| |exact Hl].
    + apply (ancestors_walk_stable ident ignores_marks_ident _ _ _ _ _ E).
    + apply (ancestors_walk_stable links ignores_marks_links _ _ _ _ _ E).
  - rewrite (proj1 (ancestors_walk_stable ident ignores_marks_ident _ _ _ _ _ E)).
    exact Ht.
Qed.

(** On a well-formed tree [updateTileStateDefault] returns, and a tile of
    [allTiles] it leaves visible has data. *)
Lemma default_visible_has_data : forall allTiles h,
  links_ascend h -> (forall r, In r allTiles -> (r < size h)%nat) ->
  exists h',
    updateTileStateDefault allTiles h = Some h' /\
    forall u, In u allTiles -> isVisible (h' u) = true -> hasData (h u) = true.
Proof.
  intros allTiles h Hl Hres. unfold updateTileStateDefault.
  set (h1 := clear_states allTiles h).
  destruct (foldM_total _ _ default_step
              (fun h0 => stable ident h h0 /\ stable links h h0 /\
                         stable hasData h h0 /\ marked_with_data allTiles h0)
              allTiles h1) as (h2 & E & I2 & L2 & D2 & M2).
  - intros a h0 Ha (I0 & L0 & D0 & M0).
    destruct (default_step_total h0 a) as (h0' & E0).
    + eapply links_ascend_stable; eauto.
    + rewrite (proj1 I0). now apply Hres.
    + exists h0'. split; [exact E0|].
      split; [eapply stable_trans; [exact I0|];
              apply (default_step_stable ident ignores_marks_ident _ _ _ E0)|].
      split; [eapply stable_trans; [exact L0|];
              apply (default_step_stable links ignores_marks_links _ _ _ E0)|].
      split; [eapply stable_trans; [exact D0|];
              apply (default_step_stable hasData ignores_marks_hasData _ _ _ E0)|].
      eapply default_step_marks; eauto.
  - split; [apply (clear_states_stable ident ignores_marks_ident)|].
    split; [apply (clear_states_stable links ignores_marks_links)|].
    split; [apply (clear_states_stable hasData ignores_marks_hasData)|].
    intros u Hu Hbit. unfold h1 in Hbit.
    rewrite clear_states_zero in Hbit by exact Hu. discriminate.
  - rewrite E; cbn. eexists; split; [reflexivity|].
    intros u Hu Hv. rewrite show_all_visible in Hv by exact Hu.
    rewrite <- (stable_field _ hasData h h2 u D2). now apply M2.
Qed.


(** * No-overlap: a visible tile hides its subtree (C5) *)

(** ** The sort by level *)

Lemma insert_by_zoom_perm : forall h t l,
  Permutation (insert_by_zoom h t l) (t :: l).
Proof.
  induction l as [|u l IH]; cbn; [reflexivity|].
  destruct (zoom (h t) <=? zoom (h u)); [reflexivity|].
  rewrite IH. apply perm_swap.
Qed.

Lemma sort_by_zoom_perm : forall h l, Permutation (sort_by_zoom h l) l.
Proof.
  induction l as [|t l IH]; cbn; [reflexivity|].
  rewrite insert_by_zoom_perm. now constructor.
Qed.

Lemma insert_by_zoom_sorted : forall h t l,
  StronglySorted (level_le h) l ->
  StronglySorted (level_le h) (insert_by_zoom h t l).
Proof.
  induction l as [|u l IH]; cbn; intros Hs.
  - repeat constructor.
  - apply StronglySorted_inv in Hs. destruct Hs as [Hs Hall].
    destruct (zoom (h t) <=? zoom (h u)) eqn:E.
    + apply Z.leb_le in E. constructor; [now constructor|].
      constructor; [exact E|].
      eapply Forall_impl; [|exact Hall]. unfold level_le; intros; lia.
    + apply Z.leb_gt in E. constructor; [now apply IH|].
      eapply Permutation_Forall; [symmetry; apply insert_by_zoom_perm|].
      constructor; [unfold level_le; lia|exact Hall].
Qed.

Lemma sort_by_zoom_sorted : forall h l,
  StronglySorted (level_le h) (sort_by_zoom h l).
Proof.
  induction l as [|t l IH]; cbn; [constructor|].
  now apply insert_by_zoom_sorted.
Qed.

Lemma sort_by_zoom_ext : forall (h h' : Heap) l,
  (forall x, zoom (h' x) = zoom (h x)) ->
  sort_by_zoom h' l = sort_by_zoom h l.
Proof.
  intros h h' l Hz. induction l as [|t l IH]; cbn; [reflexivity|].
  rewrite IH. generalize (sort_by_zoom h l) as m.
  induction m as [|u m IHm]; cbn; [reflexivity|].
  now rewrite !Hz, IHm.
Qed.

Lemma sorted_prefix_le : forall (A : Type) (R : A -> A -> Prop) done w rest,
  StronglySorted R (done ++ w :: rest) -> forall u, In u done -> R u w.
Proof.
  induction done as [|a done IH]; cbn; intros w rest Hs u Hu; [contradiction|].
  apply StronglySorted_inv in Hs. destruct Hs as [Hs Hall].
  destruct Hu as [->|Hu]; [|eapply IH; eauto].
  rewrite Forall_forall in Hall. apply Hall, in_or_app. right; now left.
Qed.

(** ** Descendants *)

Lemma descends_stable : forall h h' u d,
  stable links h h' -> descends h u d -> descends h' u d.
Proof.
  intros h h' u d L H. induction H as [u c Hc|u c d Hc _ IH].
  - apply descends_child. now rewrite (links_children _ _ _ L).
  - eapply descends_step; [|exact IH]. now rewrite (links_children _ _ _ L).
Qed.

Lemma stable_sym : forall X (proj : Tile2DHeader -> X) h h',
  stable proj h h' -> stable proj h' h.
Proof. intros X proj h h' [S P]; split; auto. Qed.

Lemma descends_zoom : forall h u d,
  links_ascend h -> (u < size h)%nat -> descends h u d ->
  (d < size h)%nat /\ zoom (h u) < zoom (h d).
Proof.
  intros h u d Hl Hu H. induction H as [u c Hc|u c d Hc _ IH].
  - apply (Hl u Hu); exact Hc.
  - destruct (proj2 (Hl u Hu) c Hc) as [Hc' Hz].
    destruct (IH Hc') as [Hd Hz']. split; [exact Hd|lia].
Qed.



(** ** What the third loop touches *)

Section WalkFrames.
Context {X : Type} (proj : Tile2DHeader -> X).
Hypothesis Hstate : forall v t, proj (with_state v t) = proj t.

Lemma children_walk_keeps : forall fuel tile h h',
  children_walk fuel tile h = Some h' -> stable proj h h'.
Proof.
  induction fuel as [|fuel IH]; intros tile h h' H; cbn in H; [discriminate|].
  eapply stable_foldM; [|exact H].
  intros child h1 h2 E; cbn in E.
  destruct (hasData (h1 child)).
  - inversion E. apply stable_upd. intros; apply Hstate.
  - eapply IH; eauto.
Qed.

Lemma hide_children_keeps : forall r h, stable proj h (hide_children r h).
Proof.
  intros; apply stable_fold_left; intros; apply stable_upd.
  intros; apply Hstate.
Qed.
End WalkFrames.

Lemma foldM_invariant_in : forall (A S : Type) (f : A -> S -> option S)
  (I : S -> Prop) l s s',
  (forall a s s', In a l -> f a s = Some s' -> I s -> I s') ->
  foldM f l s = Some s' -> I s -> I s'.
Proof.
  intros A S f I l; induction l as [|a l IH]; intros s s' Hf H Hs; cbn in H.
  - inversion H; now subst.
  - destruct (f a s) as [s1|] eqn:E; cbn in H; [|discriminate].
    eapply IH; [|exact H|].
    + intros; eapply Hf; eauto. now right.
    + eapply Hf; eauto. now left.
Qed.

(** The recursion of [getPlaceholderInChildren] writes only to
    descendants of its tile. *)
Lemma children_walk_frame : forall fuel tile h h',
  children_walk fuel tile h = Some h' ->
  forall x, ~ descends h tile x -> h' x = h x.
Proof.
  induction fuel as [|fuel IH]; intros tile h h' H; cbn in H; [discriminate|].
  assert (Hinv : stable links h h' /\
                 forall x, ~ descends h tile x -> h' x = h x).
  { eapply (foldM_invariant_in _ _ _
              (fun h1 => stable links h h1 /\
                         forall x, ~ descends h tile x -> h1 x = h x));
      [|exact H|].
    - intros c h1 h2 Hc E [L1 F1]. cbn in E.
      destruct (hasData (h1 c)).
      + inversion E; subst. split.
        * eapply stable_trans; [exact L1|]. apply stable_upd; reflexivity.
        * intros x Hx. rewrite upd_other; [now apply F1|].
          intros ->. apply Hx. now apply descends_child.
      + split.
        * eapply stable_trans; [exact L1|].
          apply (children_walk_stable links ignores_marks_links _ _ _ _ E).
        * intros x Hx. rewrite (IH c h1 h2 E); [now apply F1|].
          intros Hd. apply Hx. eapply descends_step; [exact Hc|].
          eapply descends_stable; [apply stable_sym; exact L1|exact Hd].
    - split; [apply stable_refl|auto]. }
  apply Hinv.
Qed.

Lemma hide_children_other : forall tile (h : Heap) x,
  ~ In x (children (h tile)) -> hide_children tile h x = h x.
Proof.
  intros tile h x. unfold hide_children.
  generalize (children (h tile)) as l. intros l; revert h.
  induction l as [|c l IH]; intros h Hx; cbn; auto.
  rewrite IH by (intros H; apply Hx; now right).
  apply upd_other. intros ->; apply Hx; now left.
Qed.

Lemma hide_children_state : forall tile (h : Heap) c,
  In c (children (h tile)) ->
  state (hide_children tile h c) = TILE_STATE_VISITED.
Proof.
  intros tile h c. unfold hide_children.
  generalize (children (h tile)) as l. intros l; revert h.
  induction l as [|a l IH]; intros h Hc; cbn; [contradiction|].
  destruct (in_dec Nat.eq_dec c l) as [Hl|Hl]; [now apply IH|].
  destruct Hc as [->|Hc]; [|contradiction].
  assert (Hkeep : forall (h0 : Heap),
            fold_left (fun (h : Heap) child =>
                         upd child (with_state TILE_STATE_VISITED) h) l h0 c
            = h0 c).
  { clear -Hl. induction l as [|b l IH]; intros h0; cbn; auto.
    rewrite IH by (intros H; apply Hl; now right).
    apply upd_other. intros ->; apply Hl; now left. }
  rewrite Hkeep. now rewrite upd_same.
Qed.

Lemma replace_step_effect : forall w (h1 h1' : Heap),
  replace_step w h1 = Some h1' ->
  stable ident h1 h1' /\ stable links h1 h1' /\
  (forall x, x <> w -> isVisible (h1' x) = isVisible (h1 x)) /\
  isVisible (h1' w) = has_bit (state (h1 w)) TILE_STATE_VISIBLE /\
  (forall x, ~ descends h1 w x -> state (h1' x) = state (h1 x)) /\
  (has_bit (state (h1 w)) TILE_STATE_VISIBLE
   || has_bit (state (h1 w)) TILE_STATE_VISITED = true ->
   forall c, In c (children (h1 w)) -> state (h1' c) = TILE_STATE_VISITED).
Proof.
  intros w h1 h1' H.
  split; [apply (replace_step_stable ident ignores_marks_ident _ _ _ H)|].
  split; [apply (replace_step_stable links ignores_marks_links _ _ _ H)|].
  unfold replace_step in H.
  set (h1a := show_from_state w h1) in *.
  assert (Va : isVisible (h1a w) = has_bit (state (h1 w)) TILE_STATE_VISIBLE)
    by (unfold h1a, show_from_state; now rewrite upd_same).
  assert (Vo : forall x, x <> w -> isVisible (h1a x) = isVisible (h1 x))
    by (intros x Hx; unfold h1a, show_from_state; now rewrite upd_other).
  assert (Sa : stable state h1 h1a)
    by (apply stable_upd; reflexivity).
  assert (La : stable links h1 h1a)
    by (apply stable_upd; reflexivity).
  rewrite Va, (stable_field _ state h1 h1a w Sa) in H.
  destruct (has_bit (state (h1 w)) TILE_STATE_VISIBLE
            || has_bit (state (h1 w)) TILE_STATE_VISITED) eqn:Hc.
  - inversion H; subst h1'; clear H.
    pose proof (hide_children_keeps isVisible (fun _ _ => eq_refl) w h1a) as Vk.
    split; [intros x Hx; rewrite (stable_field _ _ _ _ x Vk); now apply Vo|].
    split; [rewrite (stable_field _ _ _ _ w Vk); exact Va|].
    split.
    + intros x Hx. rewrite hide_children_other.
      * apply (stable_field _ state h1 h1a x Sa).
      * rewrite (links_children _ _ _ La). intros Hin. apply Hx.
        now apply descends_child.
    + intros _ c Hin. apply hide_children_state.
      now rewrite (links_children _ _ _ La).
  - assert (Hrest : stable isVisible h1a h1' /\
                    forall x, ~ descends h1a w x -> h1' x = h1a x).
    { destruct (isSelected (h1a w)).
      - split.
        + apply (children_walk_keeps isVisible (fun _ _ => eq_refl) _ _ _ _ H).
        + apply (children_walk_frame _ _ _ _ H).
      - inversion H; subst. split; [apply stable_refl|auto]. }
    destruct Hrest as [Vk Fk].
    split; [intros x Hx; rewrite (stable_field _ _ _ _ x Vk); now apply Vo|].
    split; [rewrite (stable_field _ _ _ _ w Vk); exact Va|].
    split; [|discriminate].
    intros x Hx. rewrite Fk.
    + apply (stable_field _ state h1 h1a x Sa).
    + intros Hd. apply Hx.
      eapply descends_stable; [apply stable_sym; exact La|exact Hd].
Qed.

Lemma replace_step_total : forall h w,
  links_ascend h -> (w < size h)%nat -> exists h', replace_step w h = Some h'.
Proof.
  intros h w Hl Hw. unfold replace_step.
  destruct (_ || _); [eauto|].
  destruct (isSelected _); [|eauto].
  apply getPlaceholderInChildren_total.
  - eapply links_ascend_stable; [| |exact Hl]; apply stable_upd; reflexivity.
  - exact Hw.
Qed.

Lemma replace_ancestors_step_total : forall h w,
  links_ascend h -> (w < size h)%nat ->
  exists h', replace_ancestors_step w h = Some h'.
Proof.
  intros h w Hl Hw. unfold replace_ancestors_step.
  destruct (isSelected _); [|eauto].
  destruct (getPlaceholderInAncestors_total h w Hl Hw) as ([found h1] & E).
  rewrite E; cbn; eauto.
Qed.

Section NoOverlap.
Variable allTiles : list TileRef.
Variable h : Heap.
Hypothesis Hascend : links_ascend h.
Hypothesis Hnodup : NoDup allTiles.
Hypothesis Hres : forall r, In r allTiles -> (r < size h)%nat.
Hypothesis Hclosed :
  forall r c, In r allTiles -> In c (children (h r)) -> In c allTiles.
Hypothesis Hone :
  forall x y c, In x allTiles -> In y allTiles ->
    In c (children (h x)) -> In c (children (h y)) -> x = y.


End NoOverlap.

(** * The theorems of C4 and C5 on concrete tilesets *)

(** ** A loaded parent and two loading children *)

(** Finishes a goal over a concrete heap once it has been evaluated. *)
Ltac by_cases :=
  repeat split; intros;
  repeat match goal with
         | H : _ \/ _ |- _ => destruct H
         | H : False |- _ => destruct H
         | H : Some _ = Some _ |- _ => inversion H; clear H; subst
         | H : None = Some _ |- _ => discriminate H
         | H : @eq nat _ _ |- _ => subst
         end;
  try reflexivity; try lia; auto 10.

Lemma family_size : size (heap family_s) = 3%nat.
Proof. vm_compute; reflexivity. Qed.

Lemma family_children :
  children (heap family_s 0%nat) = [1; 2]%nat /\
  children (heap family_s 1%nat) = [] /\
  children (heap family_s 2%nat) = [].
Proof. repeat split; vm_compute; reflexivity. Qed.

Lemma family_links_ascend : links_ascend (heap family_s).
Proof.
  intros r Hr. rewrite family_size in Hr.
  destruct r as [|[|[|r]]]; [| | |lia]; vm_compute; by_cases.
Qed.


(** ** A child that reloadAll dropped from the cache *)



(** ** A selected tile whose parent has not loaded either *)






(** * getParentIndex *)

(** X1.  [getParentIndex] sends exactly four coordinates to a coordinate
    [p]: the four quadrants [(2x + a, 2y + b, z + 1)] of [p], with [a] and
    [b] in 0..1, also where x or y is negative ([Math.floor] rounds
    down). *)
Theorem getParentIndex_quadrants : forall i p,
  getParentIndex i = p <->
  exists a b, (a = 0 \/ a = 1) /\ (b = 0 \/ b = 1) /\
    i = mkIndex (2 * ix p + a) (2 * iy p + b) (iz p + 1).
Proof.
  intros [x y z] [px py pz]; unfold getParentIndex; cbn [ix iy iz]. split.
  - intros H; inversion H; subst; clear H.
    exists (x mod 2), (y mod 2).
    pose proof (Z.mod_pos_bound x 2 ltac:(lia)).
    pose proof (Z.mod_pos_bound y 2 ltac:(lia)).
    pose proof (Z.div_mod x 2 ltac:(lia)).
    pose proof (Z.div_mod y 2 ltac:(lia)).
    split; [lia|]. split; [lia|].
    f_equal; lia.
  - intros (a & b & Ha & Hb & H). inversion H; subst; clear H.
    f_equal; try lia.
    + symmetry; apply (Z.div_unique (2 * px + a) 2 px a); lia.
    + symmetry; apply (Z.div_unique (2 * py + b) 2 py b); lia.
Qed.

(** * The cache is a map from keys to headers *)

Lemma map_get_NoDup_In : forall (c : Cache) k r,
  NoDup (map fst c) -> In (k, r) c -> map_get k c = Some r.
Proof.
  intros c k r Hnd Hin.
  destruct (map_get k c) as [r'|] eqn:E.
  - apply map_get_In in E. f_equal. eapply NoDup_keys_inj; eauto.
  - exfalso. eapply map_get_None; eauto.
Qed.

(** X3.  In every reachable tileset each cache entry is filed under the
    key of the coordinate of its header, looking that key up gives the
    header back, the level of the header is the level of its coordinate,
    and no two resident headers have the same coordinate. *)
Theorem reachable_one_header_per_index : forall s,
  reachable s ->
  (forall k r, In (k, r) (_cache s) ->
     k = getTileCacheKey (index (heap s r)) /\
     map_get (getTileCacheKey (index (heap s r))) (_cache s) = Some r /\
     zoom (heap s r) = getTileZoom (index (heap s r))) /\
  (forall k1 r1 k2 r2, In (k1, r1) (_cache s) -> In (k2, r2) (_cache s) ->
     index (heap s r1) = index (heap s r2) -> r1 = r2).
Proof.
  intros s Hr. pose proof (reachable_Inv s Hr) as [K V E Z P C]. split.
  - intros k r Hin. destruct (E k r Hin) as [Hlt Hk].
    split; [exact Hk|]. split; [|now apply Z].
    rewrite <- Hk. now apply map_get_NoDup_In.
  - intros k1 r1 k2 r2 H1 H2 Hi.
    destruct (E k1 r1 H1) as [_ Hk1]. destruct (E k2 r2 H2) as [_ Hk2].
    rewrite Hi in Hk1. rewrite <- Hk2 in Hk1. subst k1.
    eapply NoDup_keys_inj; eauto.
Qed.

(** * _getTile *)

Lemma map_get_set_same : forall k v (m : Cache),
  map_get k (map_set k v m) = Some v.
Proof.
  induction m as [|[k' v'] m IH]; cbn.
  - now rewrite key_eqb_refl.
  - destruct (key_eqb k k') eqn:E; cbn; rewrite E; auto.
Qed.

(** X4.  On a reachable tileset [_getTile] with [create] set throws when
    no viewport is stored and the coordinate is not resident (the
    assertion of [getTileMetadata]).  Otherwise it returns a header of the
    coordinate asked for, resident under the key of that coordinate, and
    looking the same coordinate up again, with or without [create], returns
    that very header and neither allocates a header nor changes the
    cache. *)
Theorem getTile_create_then_lookup : forall s i,
  reachable s ->
  (_viewport s = None -> map_get (getTileCacheKey i) (_cache s) = None ->
   _getTile i true s = None) /\
  (_viewport s <> None \/ map_get (getTileCacheKey i) (_cache s) <> None ->
   exists t s1,
     _getTile i true s = Some (Some t, s1) /\
     index (heap s1 t) = i /\ zoom (heap s1 t) = getTileZoom i /\
     map_get (getTileCacheKey i) (_cache s1) = Some t /\
     forall create,
       exists s2,
         _getTile i create s1 = Some (Some t, s2) /\
         _cache s2 = _cache s1 /\ size (heap s2) = size (heap s1)).
Proof.
  intros s i Hr. pose proof (reachable_Inv s Hr) as [K V E Z P C].
  assert (Hagain : forall s1 t,
            map_get (getTileCacheKey i) (_cache s1) = Some t ->
            forall create,
              exists s2,
                _getTile i create s1 = Some (Some t, s2) /\
                _cache s2 = _cache s1 /\ size (heap s2) = size (heap s1)).
  { intros s1 t Ht create. unfold _getTile. rewrite Ht.
    destruct (needsReload (heap s1 t)); eexists;
      (split; [reflexivity|]); cbn; auto. }
  split.
  - intros Hv Hget. unfold _getTile, getTileMetadata. now rewrite Hget, Hv.
  - intros Hor. unfold _getTile.
    destruct (map_get (getTileCacheKey i) (_cache s)) as [t|] eqn:Hget.
    + pose proof Hget as Hget'.
      apply map_get_In in Hget. destruct (E _ _ Hget) as [Hlt Hk].
      apply getTileCacheKey_inj in Hk.
      exists t.
      destruct (needsReload (heap s t)); eexists; (split; [reflexivity|]).
      * state_simpl. rewrite upd_same. cbn [loadData_tile with_load index zoom].
        split; [now rewrite Hk|].
        split; [rewrite (Z t Hlt); now rewrite Hk|].
        split; [exact Hget'|].
        apply (Hagain (emit (LoadData t) (modify t loadData_tile s))).
        exact Hget'.
      * split; [now rewrite Hk|].
        split; [rewrite (Z t Hlt); now rewrite Hk|].
        split; [exact Hget'|]. apply Hagain. exact Hget'.
    + destruct Hor as [Hv|Hn]; [|congruence].
      unfold getTileMetadata. destruct (_viewport s); [|congruence].
      cbn [bind]. exists (size (heap s)). eexists. split; [reflexivity|].
      assert (Hg : map_get (getTileCacheKey i)
                     (_cache (emit (LoadData (size (heap s)))
                        (modify (size (heap s)) loadData_tile
                           (with_dirty true
                              (with_cache
                                 (map_set (getTileCacheKey i) (size (heap s))
                                    (_cache (with_heap
                                       (alloc (with_zoom (getTileZoom i)
                                                 (new_Tile2DHeader i)) (heap s)) s)))
                                 (with_heap
                                    (alloc (with_zoom (getTileZoom i)
                                              (new_Tile2DHeader i)) (heap s)) s))))))
                   = Some (size (heap s))).
      { state_simpl. apply map_get_set_same. }
      split; [state_simpl; rewrite upd_same, alloc_new; reflexivity|].
      split; [state_simpl; rewrite upd_same, alloc_new; reflexivity|].
      split; [exact Hg|]. apply Hagain. exact Hg.
Qed.

(** * finalize *)

Lemma finalize_loop_spec : forall l s,
  NoDup l ->
  let s1 := fold_left
              (fun s tile =>
                 if isLoading (heap s tile)
                 then emit (Abort tile) (modify tile abort_tile s)
                 else s) l s in
  log s1 = log s ++ map Abort (filter (fun t => isLoading (heap s t)) l) /\
  (forall r, heap s1 r = if includes l r then abort_tile (heap s r) else heap s r) /\
  _viewport s1 = _viewport s /\ _cacheByteSize s1 = _cacheByteSize s /\
  _frameNumber s1 = _frameNumber s /\ opts s1 = opts s.
Proof.
  induction l as [|t rest IH]; intros s Hnd; cbn zeta.
  - cbn. rewrite app_nil_r. auto 10.
  - inversion Hnd as [|? ? Hnotin Hnd']; subst. cbn [fold_left filter].
    set (s0 := if isLoading (heap s t)
               then emit (Abort t) (modify t abort_tile s) else s).
    assert (Hh : forall r, heap s0 r = if Nat.eqb r t then abort_tile (heap s r)
                                      else heap s r).
    { intros r. unfold s0. destruct (isLoading (heap s t)) eqn:El.
      - state_simpl. destruct (Nat.eqb_spec r t) as [->|Hne].
        + now rewrite upd_same.
        + now rewrite upd_other.
      - destruct (Nat.eqb_spec r t) as [->|Hne]; auto.
        unfold abort_tile. now rewrite El. }
    assert (Hlog : log s0 = log s ++ (if isLoading (heap s t) then [Abort t] else []))
      by (unfold s0; destruct (isLoading (heap s t)); cbn;
          [reflexivity|now rewrite app_nil_r]).
    assert (Hf : _viewport s0 = _viewport s /\ _cacheByteSize s0 = _cacheByteSize s /\
                 _frameNumber s0 = _frameNumber s /\ opts s0 = opts s)
      by (unfold s0; destruct (isLoading (heap s t)); cbn; auto).
    destruct (IH s0 Hnd') as (H1 & H2 & H3 & H4 & H5 & H6). cbn zeta in *.
    destruct Hf as (F3 & F4 & F5 & F6).
    split.
    { rewrite H1, Hlog, <- app_assoc. f_equal.
      assert (Hfe : filter (fun t0 => isLoading (heap s0 t0)) rest
                    = filter (fun t0 => isLoading (heap s t0)) rest).
      { apply filter_ext_in. intros a Ha. rewrite Hh.
        destruct (Nat.eqb_spec a t) as [->|]; [contradiction|reflexivity]. }
      rewrite Hfe. destruct (isLoading (heap s t)); reflexivity. }
    split.
    { intros r. rewrite H2, Hh. unfold includes. cbn [existsb].
      destruct (Nat.eqb_spec r t) as [->|Hne]; cbn [orb].
      - destruct (existsb (Nat.eqb t) rest); auto using abort_tile_idem.
      - reflexivity. }
    repeat split; congruence.
Qed.

(** X5.  [finalize] on a cache with one entry per header: the cache and
    the tile list are emptied, the selection is null (so [isLoaded] and
    [needsReload] are false), [abort] is called once on each cached header
    that is loading, in cache order, and on no other; no [onTileUnload] is
    issued, and the viewport, the byte count and the frame counter stay. *)
Theorem finalize_spec : forall s,
  NoDup (map_values (_cache s)) ->
  _cache (finalize s) = [] /\ _tiles (finalize s) = [] /\
  _selectedTiles (finalize s) = None /\
  tileset_isLoaded (finalize s) = false /\
  tileset_needsReload (finalize s) = false /\
  log (finalize s)
    = log s ++ map Abort (filter (fun t => isLoading (heap s t))
                                 (map_values (_cache s))) /\
  (forall r, heap (finalize s) r
             = if includes (map_values (_cache s)) r
               then abort_tile (heap s r) else heap s r) /\
  _viewport (finalize s) = _viewport s /\
  _cacheByteSize (finalize s) = _cacheByteSize s /\
  _frameNumber (finalize s) = _frameNumber s.
Proof.
  intros s Hnd.
  destruct (finalize_loop_spec (map_values (_cache s)) s Hnd)
    as (H1 & H2 & H3 & H4 & H5 & H6). cbn zeta in *.
  unfold finalize, tileset_isLoaded, tileset_needsReload. state_simpl.
  repeat split; auto.
Qed.

Lemma finalize_loop_frame : forall l s,
  let s1 := fold_left
              (fun s tile =>
                 if isLoading (heap s tile)
                 then emit (Abort tile) (modify tile abort_tile s)
                 else s) l s in
  _viewport s1 = _viewport s /\ _modelMatrix s1 = _modelMatrix s.
Proof.
  induction l as [|t rest IH]; intros s; cbn zeta; cbn [fold_left]; [auto|].
  destruct (IH (if isLoading (heap s t)
                then emit (Abort t) (modify t abort_tile s) else s)) as [H1 H2].
  cbn zeta in *. rewrite H1, H2.
  destruct (isLoading (heap s t)); split; reflexivity.
Qed.

(** X6.  After [finalize] the tileset keeps its viewport but has no
    selection, so [update] with the same viewport and model matrix does
    not select anew and fails on the assertion of [updateTileStates]. *)
Theorem update_after_finalize_throws : forall s viewport modelMatrix tileIndices,
  _viewport s = Some viewport ->
  Matrix4_equals (new_Matrix4 modelMatrix) (_modelMatrix s) = true ->
  update viewport modelMatrix tileIndices (finalize s) = None.
Proof.
  intros s v m idx Hv Hm.
  unfold update, update_before_resize, update_select.
  destruct (finalize_loop_frame (map_values (_cache s)) s) as [Hv' Hm'].
  cbn zeta in *.
  assert (Hv2 : _viewport (finalize s) = _viewport s) by exact Hv'.
  assert (Hm2 : _modelMatrix (finalize s) = _modelMatrix s) by exact Hm'.
  rewrite Hv2, Hm2, Hv, Hm. cbn [viewport_equals]. rewrite Nat.eqb_refl.
  cbn [negb orb].
  assert (Hs : _selectedTiles (finalize s) = None) by reflexivity.
  unfold tileset_needsReload. rewrite Hs. cbn [bind].
  unfold updateTileStates. rewrite Hs. reflexivity.
Qed.

(** * keeps *)

Lemma keeps_refl : forall X (proj : Tile2DHeader -> X) h, keeps proj h h.
Proof. intros; split; auto. Qed.

Lemma keeps_trans : forall X (proj : Tile2DHeader -> X) h1 h2 h3,
  keeps proj h1 h2 -> keeps proj h2 h3 -> keeps proj h1 h3.
Proof.
  intros X proj h1 h2 h3 [S1 P1] [S2 P2]. split; [lia|].
  intros r Hr. rewrite P2 by lia. now apply P1.
Qed.

Lemma stable_keeps : forall X (proj : Tile2DHeader -> X) h h',
  stable proj h h' -> keeps proj h h'.
Proof. intros X proj h h' [S P]. split; [lia|auto]. Qed.

Lemma keeps_field : forall X Y (f : X -> Y) (proj : Tile2DHeader -> X) h h',
  keeps proj h h' -> keeps (fun t => f (proj t)) h h'.
Proof. intros X Y f proj h h' [S P]. split; auto. intros; now rewrite P. Qed.

Lemma shape_keeps_ident : forall h h', keeps shape h h' -> keeps ident h h'.
Proof.
  intros h h' [S P]; split; auto. intros r Hr; specialize (P r Hr).
  unfold shape in P; congruence.
Qed.

Lemma shape_keeps_flags : forall h h', keeps shape h h' -> keeps flags h h'.
Proof.
  intros h h' [S P]; split; auto. intros r Hr; specialize (P r Hr).
  unfold shape in P; congruence.
Qed.

Lemma shape_keeps_links : forall h h', keeps shape h h' -> keeps links h h'.
Proof.
  intros h h' [S P]; split; auto. intros r Hr; specialize (P r Hr).
  unfold shape in P; congruence.
Qed.

Lemma keeps_isVisible : forall h h' r,
  keeps flags h h' -> (r < size h)%nat -> isVisible (h' r) = isVisible (h r).
Proof.
  intros h h' r [_ P] Hr. specialize (P r Hr). unfold flags in P. congruence.
Qed.

Lemma keeps_zoom : forall h h' r,
  keeps ident h h' -> (r < size h)%nat -> zoom (h' r) = zoom (h r).
Proof.
  intros h h' r [_ P] Hr. specialize (P r Hr). unfold ident in P. congruence.
Qed.

Lemma keeps_index : forall h h' r,
  keeps ident h h' -> (r < size h)%nat -> index (h' r) = index (h r).
Proof.
  intros h h' r [_ P] Hr. specialize (P r Hr). unfold ident in P. congruence.
Qed.

(** * _getTile with create, in detail *)

Lemma getTile_true_detail : forall i s r s',
  _getTile i true s = Some (r, s') -> Inv s ->
  exists t,
    r = Some t /\ index (heap s' t) = i /\
    In t (map_values (_cache s')) /\
    keeps shape (heap s) (heap s') /\
    _tiles s' = _tiles s /\
    (forall e, In e (_cache s') ->
       In e (_cache s) \/
       (size (heap s) <= snd e)%nat /\ isVisible (heap s' (snd e)) = false) /\
    (_dirty s' = false -> _cache s' = _cache s /\ _dirty s = false).
Proof.
  intros i s r s' H Hinv.
  destruct (getTile_create_spec _ _ _ _ H Hinv) as [Hinv' _].
  unfold _getTile in H.
  destruct (map_get (getTileCacheKey i) (_cache s)) as [t|] eqn:Hget.
  - apply map_get_In in Hget.
    destruct (inv_entry _ _ Hinv _ _ Hget) as [Hlt Hk].
    apply getTileCacheKey_inj in Hk.
    exists t.
    destruct (needsReload (heap s t)); injection H as <- <-.
    + state_simpl. rewrite upd_same.
      split; [reflexivity|]. split; [cbn; congruence|].
      split; [eapply In_values; eauto|].
      split; [apply stable_keeps, stable_upd; reflexivity|].
      split; [reflexivity|]. split; [auto|]. auto.
    + split; [reflexivity|]. split; [congruence|].
      split; [eapply In_values; eauto|].
      split; [apply keeps_refl|]. split; [reflexivity|]. split; auto.
  - metadata_in H. injection H as <- <-. exists (size (heap s)). state_simpl.
    rewrite map_set_absent by exact Hget.
    split; [reflexivity|].
    split; [rewrite upd_same, alloc_new; reflexivity|].
    split; [unfold map_values; rewrite map_app; apply in_or_app; right; now left|].
    split.
    { split; [unfold upd, alloc; cbn; lia|]. intros r Hr.
      rewrite upd_other by lia. now rewrite alloc_old. }
    split; [reflexivity|].
    split; [|discriminate].
    intros e He. apply in_app_iff in He. destruct He as [He|[<-|[]]]; [now left|].
    right. cbn [snd]. split; [lia|].
    rewrite upd_same, alloc_new. reflexivity.
Qed.

Lemma get_tiles_detail : forall idx s tiles s',
  get_tiles idx s = Some (tiles, s') -> Inv s ->
  map (fun t => index (heap s' t)) tiles = idx /\
  (forall t, In t tiles -> In t (map_values (_cache s'))) /\
  keeps shape (heap s) (heap s') /\
  _tiles s' = _tiles s /\
  (forall e, In e (_cache s') ->
     In e (_cache s) \/
     (size (heap s) <= snd e)%nat /\ isVisible (heap s' (snd e)) = false) /\
  (_dirty s' = false -> _cache s' = _cache s /\ _dirty s = false).
Proof.
  induction idx as [|i rest IH]; intros s tiles s' H Hinv;
    cbn [get_tiles] in H.
  - injection H as <- <-. cbn. repeat split; auto using keeps_refl; tauto.
  - destruct (_getTile i true s) as [[r s1]|] eqn:E; cbn [bind] in H;
      [|discriminate].
    destruct (getTile_create_spec _ _ _ _ E Hinv) as [Hinv1 Hg1].
    destruct (getTile_true_detail _ _ _ _ E Hinv)
      as (t & -> & Hi & Hres & K1 & T1 & N1 & D1).
    destruct (get_tiles rest s1) as [[ts s2]|] eqn:E2; cbn [bind] in H;
      [|discriminate].
    injection H as <- <-.
    destruct (IH _ _ _ E2 Hinv1) as (A1 & A2 & A3 & A4 & A5 & A6).
    destruct (get_tiles_spec _ _ _ _ E2 Hinv1) as (Hinv2 & Hg2 & _).
    assert (Hlt : (t < size (heap s1))%nat).
    { unfold map_values in Hres. apply in_map_iff in Hres.
      destruct Hres as ([k t'] & Hk & Hin); cbn in Hk; subst t'.
      apply (inv_entry _ _ Hinv1 _ _ Hin). }
    split.
    { cbn [map]. rewrite A1. f_equal.
      rewrite (keeps_index _ _ _ (shape_keeps_ident _ _ A3) Hlt). exact Hi. }
    split.
    { intros x [<-|Hx]; [|now apply A2].
      unfold map_values in *. apply in_map_iff in Hres.
      destruct Hres as (e & He & Hin). apply in_map_iff. exists e.
      split; [exact He|]. destruct Hg2 as (_ & _ & _ & _ & Hincl). now apply Hincl. }
    split; [eapply keeps_trans; eauto|].
    split; [congruence|].
    split.
    { intros e He. destruct (A5 e He) as [He1|[Hge Hv]].
      - destruct (N1 e He1) as [He0|[Hge Hv]]; [now left|right].
        split; [exact Hge|].
        destruct e as [k x]; cbn [snd] in *.
        destruct (inv_entry _ _ Hinv1 _ _ He1) as [Hx _].
        rewrite (keeps_isVisible _ _ _ (shape_keeps_flags _ _ A3) Hx). exact Hv.
      - right. split; [|exact Hv]. destruct K1 as [K1 _]. lia. }
    intros Hd. destruct (A6 Hd) as [C2 D2]. destruct (D1 D2) as [C1 D0].
    split; congruence.
Qed.

Lemma reget_tiles_tiles : forall sel s tiles s',
  reget_tiles sel s = Some (tiles, s') -> _tiles s' = _tiles s.
Proof.
  intros sel s tiles s' H. rewrite reget_tiles_cases in H.
  destruct sel; [|discriminate]. injection H as <- <-. reflexivity.
Qed.

(** The selection step of [update], in detail. *)
Lemma update_select_detail : forall viewport modelMatrix idx s s1,
  update_select viewport modelMatrix idx s = Some s1 -> Inv s ->
  keeps ident (heap s) (heap s1) /\ keeps flags (heap s) (heap s1) /\
  (forall e, In e (_cache s1) ->
     In e (_cache s) \/
     (size (heap s) <= snd e)%nat /\ isVisible (heap s1 (snd e)) = false) /\
  (_dirty s = false -> _dirty s1 = false ->
     _cache s1 = _cache s /\ _tiles s1 = _tiles s) /\
  (negb (viewport_equals viewport (_viewport s))
   || negb (Matrix4_equals (new_Matrix4 modelMatrix) (_modelMatrix s)) = true ->
   exists sel, _selectedTiles s1 = Some sel /\
     map (fun t => index (heap s1 t)) sel = idx /\
     (forall t, In t sel -> In t (map_values (_cache s1))) /\
     _viewport s1 = Some viewport).
Proof.
  unfold update_select; intros viewport modelMatrix idx s s1 H Hinv.
  destruct (negb (viewport_equals viewport (_viewport s))
            || negb (Matrix4_equals (new_Matrix4 modelMatrix) (_modelMatrix s))).
  - set (s2 := with_viewport (Some viewport)
                 (if negb (Matrix4_equals (new_Matrix4 modelMatrix) (_modelMatrix s))
                  then with_modelMatrix (new_Matrix4 modelMatrix) s else s)) in H.
    assert (Hinv2 : Inv s2) by (unfold s2; destruct (negb _); exact Hinv).
    assert (Hh2 : heap s2 = heap s) by (unfold s2; destruct (negb _); reflexivity).
    assert (Hc2 : _cache s2 = _cache s) by (unfold s2; destruct (negb _); reflexivity).
    assert (Ht2 : _tiles s2 = _tiles s) by (unfold s2; destruct (negb _); reflexivity).
    assert (Hd2 : _dirty s2 = _dirty s) by (unfold s2; destruct (negb _); reflexivity).
    assert (Hv2 : _viewport s2 = Some viewport) by reflexivity.
    destruct (get_tiles idx s2) as [[tiles s3]|] eqn:E; cbn [bind] in H;
      [|discriminate].
    destruct (get_tiles_spec _ _ _ _ E Hinv2) as (Hinv3 & Hg3 & Hs3).
    destruct (get_tiles_detail _ _ _ _ E Hinv2) as (A1 & A2 & A3 & A4 & A5 & A6).
    rewrite Hh2 in A3, A5. rewrite Hc2 in A5, A6. rewrite Ht2 in A4.
    rewrite Hd2 in A6.
    assert (Hv3 : _viewport s3 = Some viewport).
    { destruct Hs3 as (_ & _ & Hv & _). congruence. }
    set (s4 := with_selectedTiles (Some tiles) s3) in H.
    destruct (_dirty s4) eqn:Hd4; injection H as <-.
    + destruct (rebuildTree_spec s4 Hinv3) as (Q & I & F & T & _).
      pose proof Q as (_ & Qc & _ & Qs & _ & Qd & Qv & _).
      change (heap s4) with (heap s3) in I, F.
      change (_cache s4) with (_cache s3) in Qc.
      split; [eapply keeps_trans; [apply shape_keeps_ident; exact A3
                                  |apply stable_keeps; exact I]|].
      split; [eapply keeps_trans; [apply shape_keeps_flags; exact A3
                                  |apply stable_keeps; exact F]|].
      split.
      { intros e He. rewrite Qc in He. destruct (A5 e He) as [He0|[Hge Hv]];
          [now left|right]. split; [exact Hge|].
        rewrite (flags_isVisible _ _ _ F). exact Hv. }
      split.
      { intros _ Hd. rewrite Qd, Hd4 in Hd. discriminate. }
      intros _. exists tiles. split; [rewrite Qs; reflexivity|].
      split.
      { rewrite <- A1. apply map_ext. intros t.
        apply (ident_index _ _ _ I). }
      split; [rewrite Qc; exact A2|].
      rewrite Qv. exact Hv3.
    + split; [apply shape_keeps_ident; exact A3|].
      split; [apply shape_keeps_flags; exact A3|].
      split; [exact A5|].
      split.
      { intros _ _. destruct (A6 Hd4) as [C _]. split; [exact C|exact A4]. }
      intros _. exists tiles. split; [reflexivity|].
      split; [exact A1|]. split; [exact A2|exact Hv3].
  - destruct (tileset_needsReload s).
    + destruct (_selectedTiles s) as [sel|]; [|discriminate].
      destruct (reget_tiles sel s) as [[tiles s2]|] eqn:E; cbn in H;
        [|discriminate].
      injection H as <-. pose proof (reget_tiles_tiles _ _ _ _ E) as T.
      apply reget_tiles_spec in E. destruct E as [Q S].
      pose proof Q as (_ & Qc & _).
      state_simpl.
      split; [apply stable_keeps, shape_ident, S|].
      split; [apply stable_keeps, shape_flags, S|].
      split; [intros e He; left; congruence|].
      split; [auto|discriminate].
    + injection H as <-.
      split; [apply keeps_refl|]. split; [apply keeps_refl|].
      split; [auto|]. split; [auto|discriminate].
Qed.

(** * updateTileStates, in detail *)

Lemma visibility_changed_spec : forall values (h h3 : Heap),
  NoDup values ->
  (visibility_changed (fst (save_and_reset values h)) values h3 = false <->
   forall r, In r values -> isVisible (h3 r) = isVisible (h r)).
Proof.
  induction values as [|t rest IH]; intros h h3 Hnd; cbn.
  - split; [intros _ r []|reflexivity].
  - inversion Hnd as [|? ? Hnotin Hnd']; subst.
    destruct (save_and_reset rest
                (upd t (fun t0 => with_isVisible false (with_isSelected false t0)) h))
      as [vs h2] eqn:E.
    cbn [fst visibility_changed].
    specialize (IH (upd t (fun t0 => with_isVisible false (with_isSelected false t0)) h)
                   h3 Hnd').
    rewrite E in IH. cbn [fst] in IH.
    assert (Hrest : (forall r, In r rest ->
                       isVisible (h3 r)
                       = isVisible (upd t (fun t0 => with_isVisible false
                                                       (with_isSelected false t0)) h r))
                    <-> (forall r, In r rest -> isVisible (h3 r) = isVisible (h r))).
    { split; intros H r Hr; specialize (H r Hr);
        rewrite upd_other in * by (intros ->; contradiction); exact H. }
    destruct (Bool.eqb (isVisible (h t)) (isVisible (h3 t))) eqn:Ev; cbn [negb].
    + apply Bool.eqb_prop in Ev. rewrite IH, Hrest. split.
      * intros H r [<-|Hr]; auto.
      * intros H r Hr. apply H. now right.
    + split; [discriminate|]. intros H. specialize (H t (or_introl eq_refl)).
      rewrite H, Bool.eqb_reflx in Ev. discriminate.
Qed.

Lemma ignores_marks_isSelected : ignores_marks isSelected.
Proof. split; reflexivity. Qed.

Lemma updateTileStates_detail : forall s changed s' sel,
  updateTileStates s = Some (changed, s') ->
  _selectedTiles s = Some sel ->
  NoDup (map_values (_cache s)) ->
  _tiles s' = _tiles s /\
  (changed = false <->
   forall r, In r (map_values (_cache s)) ->
     isVisible (heap s' r) = isVisible (heap s r)) /\
  (forall r, In r sel -> isSelected (heap s' r) = true) /\
  (forall r, In r (map_values (_cache s)) -> ~ In r sel ->
     isSelected (heap s' r) = false).
Proof.
  unfold updateTileStates; intros s changed s' sel H Hsel Hnd.
  rewrite Hsel in H.
  destruct (save_and_reset (map_values (_cache s)) (heap s)) as [vs h1] eqn:E.
  destruct (STRATEGIES _ _ _) as [h3|] eqn:E3; cbn in H; [|discriminate].
  injection H as <- <-. state_simpl.
  split; [reflexivity|].
  pose proof (visibility_changed_spec (map_values (_cache s)) (heap s) h3 Hnd) as V.
  rewrite E in V. cbn [fst] in V.
  split; [exact V|].
  pose proof (STRATEGIES_stable isSelected ignores_marks_isSelected _ _ _ _ E3) as S3.
  split.
  - intros r Hr. rewrite (stable_field _ _ _ _ r S3).
    apply (select_tiles_flags sel h1 r Hr).
  - intros r Hres Hr. rewrite (stable_field _ _ _ _ r S3).
    rewrite select_tiles_other by exact Hr.
    change h1 with (snd (vs, h1)). rewrite <- E.
    apply (save_and_reset_flags _ _ _ Hres).
Qed.

Lemma prune_loop_tiles : forall maxReq cands n s,
  _tiles (prune_loop maxReq n cands s) = _tiles s.
Proof.
  intros maxReq cands; induction cands as [|t rest IH]; intros n s; cbn; auto.
  destruct (_ && _); [|reflexivity]. now rewrite IH.
Qed.

(** [update] as the composition of its steps. *)
Lemma update_steps : forall viewport modelMatrix idx s s',
  update viewport modelMatrix idx s = Some s' -> Inv s ->
  exists s1 changed s2 sel,
    update_select viewport modelMatrix idx s = Some s1 /\
    updateTileStates s1 = Some (changed, s2) /\
    Inv s1 /\
    _selectedTiles s1 = Some sel /\ _selectedTiles s' = Some sel /\
    _frameNumber s' = _frameNumber s + (if changed then 1 else 0) /\
    stable ident (heap s1) (heap s2) /\
    stable ident (heap s2) (heap s') /\ stable flags (heap s2) (heap s') /\
    incl (_cache s') (_cache s1) /\
    Inv s' /\
    _viewport s' = _viewport s1 /\ opts s' = opts s1 /\
    _dirty s2 = _dirty s1 /\
    (_dirty s1 = false -> _cache s' = _cache s1 /\ _tiles s' = _tiles s1 /\
                          _dirty s' = false) /\
    (_dirty s1 = true ->
       _tiles s' = sort_by_zoom (heap s') (map_values (_cache s')) /\
       _dirty s' = false).
Proof.
  unfold update, update_before_resize; intros viewport modelMatrix idx s s' H Hinv.
  destruct (update_select viewport modelMatrix idx s) as [s1|] eqn:E1;
    cbn in H; [|discriminate].
  destruct (updateTileStates s1) as [[ch s2]|] eqn:E2; cbn in H; [|discriminate].
  destruct (update_select_spec _ _ _ _ _ E1 Hinv) as (Hinv1 & Hg1 & Hf1).
  destruct (updateTileStates_spec _ _ _ E2) as (Q2 & _ & S2 & sel & Hsel).
  destruct (prune_loop_quiet (maxRequests (opts s2)) (abortCandidates s2)
              (ongoingRequestCount s2) s2) as [Q3 S3].
  fold (_pruneRequests s2) in Q3, S3, H.
  assert (Hinv2 : Inv s2).
  { eapply Inv_quiet; eauto using ignores_flags_ident, ignores_flags_links. }
  assert (Hinv3 : Inv (_pruneRequests s2)).
  { eapply Inv_quiet; eauto using shape_ident, shape_links. }
  pose proof Q2 as (Q2o & Q2c & _ & Q2s & _ & Q2d & Q2v & _ & Q2f & _).
  pose proof Q3 as (Q3o & Q3c & _ & Q3s & _ & Q3d & Q3v & _ & Q3f & _).
  assert (Hsel3 : _selectedTiles (_pruneRequests s2) = Some sel) by congruence.
  exists s1, ch, s2, sel.
  split; [reflexivity|]. split; [exact E2|]. split; [exact Hinv1|].
  split; [exact Hsel|].
  destruct (_dirty (_pruneRequests s2)) eqn:Hd3.
  - destruct (resizeCache_spec _ sel Hsel3 Hinv3)
      as (s4 & removed & R1 & R2 & R3 & R4 & R5 & R6 & R7 & R8 & R9 & R10 & R11 & _).
    rewrite R1 in H. cbn [bind] in H.
    assert (Hs' : _selectedTiles s' = _selectedTiles s4 /\ heap s' = heap s4 /\
                  _cache s' = _cache s4 /\ _tiles s' = _tiles s4 /\
                  _dirty s' = _dirty s4 /\
                  _frameNumber s' = _frameNumber s4 + (if ch then 1 else 0) /\
                  _viewport s' = _viewport s4 /\ opts s' = opts s4)
      by (destruct ch; injection H as <-; state_simpl; repeat split; lia).
    destruct Hs' as (Es & Eh & Ec & Et & Ed & Ef & Ev & Eo).
    destruct R2 as (R2o & _ & R2v & _ & R2f).
    split; [congruence|]. split; [rewrite Ef; congruence|].
    split; [apply S2, ignores_flags_ident|].
    split; [rewrite Eh; eapply stable_trans; [apply shape_ident; exact S3|exact R9]|].
    split; [rewrite Eh; eapply stable_trans; [apply shape_flags; exact S3|exact R10]|].
    split.
    { intros e He. rewrite Ec in He. apply R8 in He. destruct He as [He _].
      congruence. }
    split; [unfold Inv; rewrite Ec, Eh; exact R11|].
    split; [congruence|]. split; [congruence|].
    split; [exact Q2d|].
    split; [intros Hd; congruence|].
    intros _. rewrite Et, Ed, Eh, Ec. split; [|exact R4].
    unfold _resizeCache in R1. rewrite Hsel3 in R1.
    match type of R1 with
    | Some (if _dirty ?x then _ else _) = _ =>
        assert (Hdx : _dirty x = true)
          by (destruct (_ || _); [reflexivity|exact Hd3]);
        rewrite Hdx in R1
    end.
    injection R1 as <-. reflexivity.
  - cbn [bind] in H.
    assert (Hs' : _selectedTiles s' = _selectedTiles (_pruneRequests s2) /\
                  heap s' = heap (_pruneRequests s2) /\
                  _cache s' = _cache (_pruneRequests s2) /\
                  _tiles s' = _tiles (_pruneRequests s2) /\
                  _dirty s' = _dirty (_pruneRequests s2) /\
                  _frameNumber s' = _frameNumber (_pruneRequests s2)
                                    + (if ch then 1 else 0) /\
                  _viewport s' = _viewport (_pruneRequests s2) /\
                  opts s' = opts (_pruneRequests s2))
      by (destruct ch; injection H as <-; state_simpl; repeat split; lia).
    destruct Hs' as (Es & Eh & Ec & Et & Ed & Ef & Ev & Eo).
    split; [congruence|]. split; [rewrite Ef; congruence|].
    split; [apply S2, ignores_flags_ident|].
    split; [rewrite Eh; apply shape_ident; exact S3|].
    split; [rewrite Eh; apply shape_flags; exact S3|].
    split; [intros e He; congruence|].
    split; [unfold Inv; rewrite Ec, Eh; exact Hinv3|].
    split; [congruence|]. split; [congruence|].
    split; [exact Q2d|].
    split; [|intros Hd; congruence].
    intros _. split; [congruence|]. split; [|congruence].
    rewrite Et. unfold _pruneRequests. rewrite prune_loop_tiles.
    unfold updateTileStates in E2. rewrite Hsel in E2.
    destruct (save_and_reset _ _) as [vs h1].
    destruct (STRATEGIES _ _ _); cbn in E2; [|discriminate].
    injection E2 as _ <-. reflexivity.
Qed.

Lemma flags_isSelected : forall h h' r,
  stable flags h h' -> isSelected (h' r) = isSelected (h r).
Proof.
  intros h h' r [_ P]. specialize (P r). unfold flags in P. congruence.
Qed.

Lemma In_values_inv : forall r (c : Cache),
  In r (map_values c) -> exists k, In (k, r) c.
Proof.
  intros r c H. unfold map_values in H. apply in_map_iff in H.
  destruct H as ([k t] & Hk & Hin); cbn in Hk; subst t. eauto.
Qed.

Lemma incl_values : forall (c c' : Cache),
  incl c' c -> incl (map_values c') (map_values c).
Proof.
  intros c c' H r Hr. apply In_values_inv in Hr. destruct Hr as [k Hk].
  eapply In_values. apply H. exact Hk.
Qed.

(** * The selection flags after update *)

(** X8.  After any [update] of a reachable tileset that returns, whatever
    the strategy, the selection is set, each selected tile has [isSelected]
    set, and a resident tile has [isSelected] set exactly when it is in the
    selection. *)
Theorem update_selected_flags : forall s viewport modelMatrix tileIndices s',
  reachable s ->
  update viewport modelMatrix tileIndices s = Some s' ->
  exists sel,
    _selectedTiles s' = Some sel /\
    (forall r, In r sel -> isSelected (heap s' r) = true) /\
    (forall r, In r (map_values (_cache s')) ->
       (isSelected (heap s' r) = true <-> In r sel)).
Proof.
  intros s viewport modelMatrix idx s' Hr Hu.
  destruct (update_steps _ _ _ _ _ Hu (reachable_Inv _ Hr))
    as (s1 & ch & s2 & sel & E1 & E2 & Hinv1 & Hsel1 & Hsel' & _ & _ & _ & F
        & Hincl & _).
  destruct (updateTileStates_detail _ _ _ _ E2 Hsel1 (inv_values _ _ Hinv1))
    as (_ & _ & D3 & D4).
  exists sel. split; [exact Hsel'|]. split.
  - intros r Hin. rewrite (flags_isSelected _ _ _ F). now apply D3.
  - intros r Hres. split.
    + intros Ht. destruct (in_dec Nat.eq_dec r sel) as [Hin|Hnin]; [exact Hin|].
      rewrite (flags_isSelected _ _ _ F) in Ht.
      rewrite D4 in Ht; [discriminate| |exact Hnin].
      apply (incl_values _ _ Hincl). exact Hres.
    + intros Hin. rewrite (flags_isSelected _ _ _ F). now apply D3.
Qed.

(** * The frame counter *)

Lemma not_all_eq_exists : forall (l : list TileRef) (f g : TileRef -> bool),
  ~ (forall r, In r l -> f r = g r) -> exists r, In r l /\ f r <> g r.
Proof.
  induction l as [|a l IH]; intros f g H.
  - exfalso. apply H. intros r [].
  - destruct (bool_dec (f a) (g a)) as [Heq|Hne].
    + destruct (IH f g) as (r & Hr & Hd).
      * intros Hall. apply H. intros r [<-|Hr]; auto.
      * exists r; split; [now right|exact Hd].
    + exists a; split; [now left|exact Hne].
Qed.

(** X9.  [update] of a reachable tileset changes the frame counter by 0 or
    by 1.  By 0: every tile that was resident shows the [isVisible] it had
    before the call and each resident tile created by the call is hidden.
    By 1: some header changed its [isVisible], or a header created by the
    call is visible. *)
Theorem update_frame_counter : forall s viewport modelMatrix tileIndices s',
  reachable s ->
  update viewport modelMatrix tileIndices s = Some s' ->
  (_frameNumber s' = _frameNumber s /\
   (forall r, In r (map_values (_cache s)) ->
      isVisible (heap s' r) = isVisible (heap s r)) /\
   (forall r, In r (map_values (_cache s')) -> (size (heap s) <= r)%nat ->
      isVisible (heap s' r) = false))
  \/
  (_frameNumber s' = _frameNumber s + 1 /\
   exists r, (r < size (heap s'))%nat /\
     ((r < size (heap s))%nat /\ isVisible (heap s' r) <> isVisible (heap s r)
      \/ (size (heap s) <= r)%nat /\ isVisible (heap s' r) = true)).
Proof.
  intros s viewport modelMatrix idx s' Hr Hu.
  pose proof (reachable_Inv _ Hr) as Hinv.
  destruct (update_steps _ _ _ _ _ Hu Hinv)
    as (s1 & ch & s2 & sel & E1 & E2 & Hinv1 & Hsel1 & Hsel' & Hf & I12 & I & F
        & Hincl & _).
  destruct (update_select_detail _ _ _ _ _ E1 Hinv) as (K1 & K2 & N & _).
  destruct (update_select_spec _ _ _ _ _ E1 Hinv) as (_ & Hg & _).
  destruct (updateTileStates_detail _ _ _ _ E2 Hsel1 (inv_values _ _ Hinv1))
    as (_ & D2 & _ & _).
  assert (Hold : forall r, In r (map_values (_cache s)) ->
            (r < size (heap s))%nat /\ In r (map_values (_cache s1))).
  { intros r Hin. apply In_values_inv in Hin. destruct Hin as [k Hk].
    split; [apply (inv_entry _ _ Hinv _ _ Hk)|].
    destruct Hg as (_ & _ & _ & _ & Hinc). eapply In_values. apply Hinc. exact Hk. }
  destruct ch.
  - right. split; [lia|].
    assert (Hne : ~ (forall r, In r (map_values (_cache s1)) ->
                       isVisible (heap s2 r) = isVisible (heap s1 r))).
    { intros Hall. apply D2 in Hall. discriminate. }
    apply not_all_eq_exists in Hne. destruct Hne as (r & Hres & Hd).
    exists r. apply In_values_inv in Hres. destruct Hres as [k Hk].
    destruct (inv_entry _ _ Hinv1 _ _ Hk) as [Hlt _].
    split; [rewrite (proj1 I), (proj1 I12); exact Hlt|].
    rewrite (flags_isVisible _ _ _ F).
    destruct (N _ Hk) as [Hk0|[Hge Hv]]; cbn [snd] in *.
    + left. destruct (inv_entry _ _ Hinv _ _ Hk0) as [Hlt0 _].
      split; [exact Hlt0|].
      rewrite <- (keeps_isVisible _ _ _ K2 Hlt0). exact Hd.
    + right. split; [exact Hge|]. rewrite Hv in Hd.
      destruct (isVisible (heap s2 r)); congruence.
  - left. split; [lia|].
    assert (Hall : forall r, In r (map_values (_cache s1)) ->
                     isVisible (heap s2 r) = isVisible (heap s1 r))
      by (apply D2; reflexivity).
    split.
    + intros r Hin. destruct (Hold r Hin) as [Hlt Hin1].
      rewrite (flags_isVisible _ _ _ F), (Hall r Hin1).
      apply (keeps_isVisible _ _ _ K2 Hlt).
    + intros r Hin Hge.
      apply (incl_values _ _ Hincl) in Hin.
      rewrite (flags_isVisible _ _ _ F), (Hall r Hin).
      apply In_values_inv in Hin. destruct Hin as [k Hk].
      destruct (N _ Hk) as [Hk0|[_ Hv]]; cbn [snd] in *; [|exact Hv].
      destruct (inv_entry _ _ Hinv _ _ Hk0) as [Hlt0 _]. lia.
Qed.

(** * The selection after a change of viewport *)

(** X7.  When the viewport or the model matrix differs from the stored
    one, [update] of a reachable tileset selects one header for each index
    that [getTileIndices] gave, in that order, each with [isSelected] set
    and at the level of its index, and stores the viewport. *)
Theorem update_selects_indices : forall s viewport modelMatrix tileIndices s',
  reachable s ->
  viewport_equals viewport (_viewport s) = false \/
  Matrix4_equals (new_Matrix4 modelMatrix) (_modelMatrix s) = false ->
  update viewport modelMatrix tileIndices s = Some s' ->
  exists sel,
    _selectedTiles s' = Some sel /\
    map (fun t => index (heap s' t)) sel = tileIndices /\
    (forall t, In t sel ->
       isSelected (heap s' t) = true /\
       zoom (heap s' t) = getTileZoom (index (heap s' t))) /\
    _viewport s' = Some viewport.
Proof.
  intros s viewport modelMatrix idx s' Hr Hnew Hu.
  pose proof (reachable_Inv _ Hr) as Hinv.
  destruct (update_steps _ _ _ _ _ Hu Hinv)
    as (s1 & ch & s2 & sel & E1 & E2 & Hinv1 & Hsel1 & Hsel' & Hf & I12 & I & F
        & Hincl & Hinv' & Hv' & _).
  destruct (update_select_detail _ _ _ _ _ E1 Hinv) as (_ & _ & _ & _ & S).
  destruct S as (sel' & Hs & Hmap & Hres & Hv).
  { destruct Hnew as [-> | ->]; cbn; auto using orb_true_r. }
  rewrite Hsel1 in Hs. injection Hs as <-.
  destruct (updateTileStates_detail _ _ _ _ E2 Hsel1 (inv_values _ _ Hinv1))
    as (_ & _ & D3 & _).
  exists sel. split; [exact Hsel'|].
  assert (Hidx : forall t, index (heap s' t) = index (heap s1 t)).
  { intros t. rewrite (ident_index _ _ _ I). apply (ident_index _ _ _ I12). }
  split; [rewrite <- Hmap; apply map_ext; exact Hidx|].
  split; [|congruence].
  intros t Hin. split.
  - rewrite (flags_isSelected _ _ _ F). now apply D3.
  - specialize (Hres t Hin). apply In_values_inv in Hres.
    destruct Hres as [k Hk]. destruct (inv_entry _ _ Hinv1 _ _ Hk) as [Hlt _].
    rewrite (ident_zoom _ _ _ I), (ident_zoom _ _ _ I12), Hidx.
    apply (inv_zoom _ _ Hinv1 _ Hlt).
Qed.

(** * The list of the tiles getter *)

Lemma sorted_levels_ext : forall (h h' : Heap) l,
  (forall t, In t l -> zoom (h' t) = zoom (h t)) ->
  StronglySorted (level_le h) l -> StronglySorted (level_le h') l.
Proof.
  induction l as [|a l IH]; intros Hz Hs; [constructor|].
  apply StronglySorted_inv in Hs. destruct Hs as [Hs Hall].
  constructor.
  - apply IH; auto. intros; apply Hz; now right.
  - rewrite Forall_forall in *. intros x Hx. specialize (Hall x Hx).
    unfold level_le in *. rewrite (Hz a), (Hz x); auto; [now right|now left].
Qed.

Lemma tiles_inv_frame : forall s s',
  tiles_inv s -> _dirty s' = false -> _tiles s' = _tiles s ->
  keeps ident (heap s) (heap s') ->
  incl (map_values (_cache s')) (map_values (_cache s)) ->
  tiles_inv s'.
Proof.
  intros s s' (D & A & S & N & I) Hd Ht K Hc. unfold tiles_inv.
  rewrite Ht. split; [exact Hd|]. split.
  - intros t Hin. specialize (A t Hin). destruct K as [K _]. lia.
  - split; [|split; [exact N|]].
    + apply (sorted_levels_ext (heap s)); [|exact S].
      intros t Hin. apply (keeps_zoom _ _ _ K). now apply A.
    + intros r Hr. apply I, Hc, Hr.
Qed.

Lemma tiles_inv_sorted : forall s,
  Inv s -> _dirty s = false ->
  _tiles s = sort_by_zoom (heap s) (map_values (_cache s)) ->
  tiles_inv s.
Proof.
  intros s Hinv Hd Ht. unfold tiles_inv. rewrite Ht.
  pose proof (sort_by_zoom_perm (heap s) (map_values (_cache s))) as P.
  split; [exact Hd|]. split; [|split; [|split]].
  - intros t Hin. apply (Permutation_in _ P) in Hin.
    apply In_values_inv in Hin. destruct Hin as [k Hk].
    apply (inv_entry _ _ Hinv _ _ Hk).
  - apply sort_by_zoom_sorted.
  - eapply Permutation_NoDup; [symmetry; exact P|]. apply Hinv.
  - intros r Hr. eapply Permutation_in; [symmetry; exact P|exact Hr].
Qed.

Lemma resizeCache_tiles : forall s s',
  _resizeCache s = Some s' ->
  _tiles s' = sort_by_zoom (heap s') (map_values (_cache s'))
  \/ (s' = s /\ _dirty s = false).
Proof.
  unfold _resizeCache; intros s s' H.
  destruct (_selectedTiles s) as [sel|]; [|discriminate].
  destruct (_ || _).
  - state_simpl_in H. injection H as <-. left. reflexivity.
  - destruct (_dirty s) eqn:Hd; injection H as <-; [left; reflexivity|auto].
Qed.

Lemma setOptions_frame2 : forall o s,
  _dirty (setOptions o s) = _dirty s /\ _tiles (setOptions o s) = _tiles s.
Proof.
  intros o s. unfold setOptions.
  destruct (Number_isFinite (maxZoom o)); destruct (maxZoom o) as [[]|];
    destruct (Number_isFinite (minZoom o)); destruct (minZoom o) as [[]|];
    split; reflexivity.
Qed.

Lemma reloadAll_loop_shape : forall entries s,
  _dirty (reloadAll_loop entries s) = _dirty s /\
  _tiles (reloadAll_loop entries s) = _tiles s /\
  stable shape (heap s) (heap (reloadAll_loop entries s)) /\
  incl (_cache (reloadAll_loop entries s)) (_cache s).
Proof.
  induction entries as [|[k t] rest IH]; intros s; cbn [reloadAll_loop].
  - split; [reflexivity|]. split; [reflexivity|].
    split; [apply stable_refl|apply incl_refl].
  - destruct (negb _).
    + destruct (IH (with_cache (map_delete k (_cache s)) s)) as (A & B & C & D).
      state_simpl_in A. state_simpl_in B. state_simpl_in C. state_simpl_in D.
      split; [exact A|]. split; [exact B|]. split; [exact C|].
      intros e He. apply D in He. apply map_delete_In in He. tauto.
    + destruct (IH (modify t setNeedsReload_tile s)) as (A & B & C & D).
      state_simpl_in A. state_simpl_in B. state_simpl_in C. state_simpl_in D.
      split; [exact A|]. split; [exact B|]. split; [|exact D].
      eapply stable_trans; [|exact C]. apply stable_upd. reflexivity.
Qed.

Lemma finalize_loop_dirty : forall l s,
  _dirty (fold_left
            (fun s tile =>
               if isLoading (heap s tile)
               then emit (Abort tile) (modify tile abort_tile s)
               else s) l s) = _dirty s.
Proof.
  induction l as [|t rest IH]; intros s; cbn [fold_left]; [reflexivity|].
  rewrite IH. destruct (isLoading (heap s t)); reflexivity.
Qed.

Lemma tiles_inv_step : forall s s',
  step s s' -> Inv s -> tiles_inv s -> tiles_inv s'.
Proof.
  intros s s' Hstep Hinv Ht. pose proof (Inv_step _ _ Hstep Hinv) as Hinv'.
  destruct Hstep as [viewport modelMatrix idx s s' Hu|o s|s|s
                    |tile data bytes s s' Hlt Hl Hu|tile s Hlt Hl].
  - destruct (update_steps _ _ _ _ _ Hu Hinv)
      as (s1 & ch & s2 & sel & E1 & E2 & Hinv1 & _ & _ & _ & I12 & I & _
          & _ & _ & _ & _ & _ & Dclean & Ddirty).
    destruct (update_select_detail _ _ _ _ _ E1 Hinv) as (K1 & _ & _ & Dsel & _).
    destruct (_dirty s1) eqn:Hd1.
    + destruct (Ddirty eq_refl) as [T D]. now apply tiles_inv_sorted.
    + destruct (Dclean eq_refl) as (C & T & D).
      destruct (Dsel (proj1 Ht) eq_refl) as [C1 T1].
      apply (tiles_inv_frame s); auto; [congruence| |].
      * eapply keeps_trans; [exact K1|]. apply stable_keeps.
        eapply stable_trans; eauto.
      * rewrite C, C1. apply incl_refl.
  - destruct (setOptions_frame o s) as [C H]. destruct (setOptions_frame2 o s) as [D T].
    apply (tiles_inv_frame s); auto.
    + rewrite D. apply Ht.
    + rewrite H. apply keeps_refl.
    + rewrite C. apply incl_refl.
  - destruct (reloadAll_loop_shape (_cache s) s) as (D & T & S & C).
    apply (tiles_inv_frame s); auto.
    + unfold reloadAll. rewrite D. apply Ht.
    + apply stable_keeps, shape_ident, S.
    + apply incl_values. exact C.
  - unfold tiles_inv, finalize. state_simpl.
    split; [rewrite finalize_loop_dirty; apply Ht|].
    split; [intros t []|]. split; [constructor|]. split; [constructor|].
    intros r [].
  - unfold tile_loaded in Hu.
    set (s2 := emit (OnTileLoad tile)
                 (modify tile (with_load (Some data) Loaded false bytes) s)) in *.
    assert (T2 : tiles_inv s2).
    { apply (tiles_inv_frame s); auto; try reflexivity.
      - apply Ht.
      - unfold s2. state_simpl. apply stable_keeps, stable_upd. reflexivity.
      - apply incl_refl. }
    destruct (truthy _); [|injection Hu as <-; exact T2].
    destruct (resizeCache_tiles _ _ Hu) as [T|[E D]].
    + apply tiles_inv_sorted; auto.
      set (s3 := with_cacheByteSize _ s2) in Hu.
      destruct (_selectedTiles s3) as [sel|] eqn:Hsel.
      * assert (Hinv3 : Inv s3).
        { unfold Inv, s3, s2. state_simpl.
          eapply tree_inv_stable; [| |exact Hinv]; apply stable_upd; reflexivity. }
        destruct (resizeCache_spec s3 sel Hsel Hinv3) as (s4 & removed & R1 & _ & _ & R4 & _).
        rewrite R1 in Hu. injection Hu as <-. exact R4.
      * unfold _resizeCache in Hu. rewrite Hsel in Hu. discriminate.
    + subst s'. apply (tiles_inv_frame s2); auto; try reflexivity.
      * apply keeps_refl.
      * apply incl_refl.
  - apply (tiles_inv_frame s); auto; try reflexivity.
    + apply Ht.
    + unfold tile_failed. state_simpl. apply stable_keeps, stable_upd. reflexivity.
    + apply incl_refl.
Qed.

Lemma tiles_inv_new : forall o, tiles_inv (new_Tileset2D o).
Proof.
  intros o. unfold new_Tileset2D.
  match goal with |- tiles_inv (setOptions o ?s0) =>
    destruct (setOptions_frame o s0) as [C H];
    destruct (setOptions_frame2 o s0) as [D T];
    unfold tiles_inv; rewrite C, H, D, T end.
  state_simpl. split; [reflexivity|]. split; [intros t []|].
  split; [constructor|]. split; [constructor|]. intros r [].
Qed.

Lemma reachable_tiles_inv : forall s, reachable s -> tiles_inv s.
Proof.
  intros s Hr. induction Hr as [o|s s' Hr IH Hstep]; [apply tiles_inv_new|].
  eapply tiles_inv_step; eauto using reachable_Inv.
Qed.

(** X12.  In every reachable tileset, that is between any two calls, the
    [_dirty] flag is down and the list that the [tiles] getter returns is
    sorted by level, has no header twice and holds every resident
    header. *)
Theorem reachable_tiles_sorted : forall s,
  reachable s ->
  _dirty s = false /\
  StronglySorted (level_le (heap s)) (_tiles s) /\
  NoDup (_tiles s) /\
  incl (map_values (_cache s)) (_tiles s).
Proof.
  intros s Hr. destruct (reachable_tiles_inv s Hr) as (D & _ & S & N & I). auto.
Qed.

(** X13.  An [update] of a reachable tileset that changes the cache leaves
    as [tiles] exactly the resident headers, sorted by level: the sort of
    the cache's values that [_resizeCache] computes. *)
Theorem update_publishes_tiles : forall s viewport modelMatrix tileIndices s',
  reachable s ->
  update viewport modelMatrix tileIndices s = Some s' ->
  _cache s' <> _cache s ->
  _tiles s' = sort_by_zoom (heap s') (map_values (_cache s')) /\
  Permutation (_tiles s') (map_values (_cache s')) /\
  StronglySorted (level_le (heap s')) (_tiles s').
Proof.
  intros s viewport modelMatrix idx s' Hr Hu Hne.
  pose proof (reachable_Inv _ Hr) as Hinv.
  destruct (reachable_tiles_inv s Hr) as (Hd & _).
  destruct (update_steps _ _ _ _ _ Hu Hinv)
    as (s1 & ch & s2 & sel & E1 & E2 & Hinv1 & _ & _ & _ & I12 & I & _
        & _ & _ & _ & _ & _ & Dclean & Ddirty).
  destruct (update_select_detail _ _ _ _ _ E1 Hinv) as (K1 & _ & _ & Dsel & _).
  destruct (_dirty s1) eqn:Hd1.
  - destruct (Ddirty eq_refl) as [T D]. split; [exact T|]. rewrite T.
    split; [apply sort_by_zoom_perm|apply sort_by_zoom_sorted].
  - destruct (Dclean eq_refl) as (C & T & D).
    destruct (Dsel Hd eq_refl) as [C1 T1]. congruence.
Qed.

(** * The nearest resident ancestor *)

Lemma nearest_loop_pure : forall n i s,
  fst (nearest_loop n i s) = ancestor_lookup n i (_cache s).
Proof.
  induction n as [|n IH]; intros i s; cbn; [reflexivity|].
  destruct (_getTile (getParentIndex i) false s) as [[[p|] s1]|] eqn:E;
    [| |now apply getTile_lookup_returns in E];
    apply getTile_lookup in E; destruct E as (E1 & E2 & _).
  - now rewrite <- E1.
  - rewrite <- E1. rewrite IH. destruct E2 as (_ & -> & _). reflexivity.
Qed.

Lemma getNearestAncestor_pure : forall t s,
  fst (_getNearestAncestor t s) = nearest_ancestor s t.
Proof. intros; unfold _getNearestAncestor; apply nearest_loop_pure. Qed.

Lemma ancestor_lookup_resident : forall n i c p,
  ancestor_lookup n i c = Some p -> exists k, In (k, p) c.
Proof.
  induction n as [|n IH]; intros i c p H; cbn in H; [discriminate|].
  destruct (map_get _ c) as [q|] eqn:E.
  - injection H as <-. apply map_get_In in E. eauto.
  - eapply IH; eauto.
Qed.

Lemma ancestor_lookup_spec : forall n i c,
  match ancestor_lookup n i c with
  | Some p =>
      exists m, (0 < m <= n)%nat /\
        map_get (getTileCacheKey (Nat.iter m getParentIndex i)) c = Some p /\
        forall j, (0 < j < m)%nat ->
          map_get (getTileCacheKey (Nat.iter j getParentIndex i)) c = None
  | None =>
      forall j, (0 < j <= n)%nat ->
        map_get (getTileCacheKey (Nat.iter j getParentIndex i)) c = None
  end.
Proof.
  induction n as [|n IH]; intros i c; cbn [ancestor_lookup].
  - intros j Hj; lia.
  - cbn zeta. destruct (map_get (getTileCacheKey (getParentIndex i)) c) as [p|] eqn:E.
    + exists 1%nat. split; [lia|]. split; [exact E|]. intros j Hj; lia.
    + specialize (IH (getParentIndex i) c).
      destruct (ancestor_lookup n (getParentIndex i) c) as [p|].
      * destruct IH as (m & Hm & Hget & Hnone).
        exists (S m). split; [lia|].
        split; [rewrite Nat.iter_succ_r; exact Hget|].
        intros j Hj. destruct j as [|j]; [lia|].
        rewrite Nat.iter_succ_r. destruct j as [|j]; [exact E|].
        apply Hnone; lia.
      * intros j Hj. destruct j as [|j]; [lia|].
        rewrite Nat.iter_succ_r. destruct j as [|j]; [exact E|].
        apply IH; lia.
Qed.

Lemma nearest_ancestor_ext : forall s0 s x,
  quiet s0 s -> stable ident (heap s0) (heap s) ->
  nearest_ancestor s x = nearest_ancestor s0 x.
Proof.
  intros s0 s x Q I. unfold nearest_ancestor, levels_above_min.
  destruct Q as (_ & -> & _ & _ & -> & _).
  now rewrite (ident_index _ _ _ I).
Qed.

(** * One iteration of the second loop of _rebuildTree *)

Lemma link_tile_links : forall s t,
  quiet s (link_tile s t) /\
  stable ident (heap s) (heap (link_tile s t)) /\
  stable flags (heap s) (heap (link_tile s t)) /\
  (forall x, parent (heap (link_tile s t) x)
             = if Nat.eqb x t then nearest_ancestor s t else parent (heap s x)) /\
  (forall x, children (heap (link_tile s t) x)
             = if points_to x (nearest_ancestor s t)
               then children (heap s x) ++ [t] else children (heap s x)).
Proof.
  intros s t. unfold link_tile.
  pose proof (getNearestAncestor_pure t s) as Hp.
  destruct (_getNearestAncestor t s) as [p s1] eqn:E. cbn [fst] in Hp. subst p.
  apply getNearestAncestor_spec in E. destruct E as (Q1 & S1 & _).
  pose proof (shape_ident _ _ S1) as I1.
  pose proof (shape_links _ _ S1) as L1.
  pose proof (shape_flags _ _ S1) as F1.
  set (p := nearest_ancestor s t).
  set (h2 := upd t (with_parent p) (heap s1)).
  assert (I2 : stable ident (heap s) h2).
  { eapply stable_trans; [exact I1|]. apply stable_upd; reflexivity. }
  assert (F2 : stable flags (heap s) h2).
  { eapply stable_trans; [exact F1|]. apply stable_upd; reflexivity. }
  assert (C2 : forall x, children (h2 x) = children (heap s x)).
  { intros x. unfold h2.
    rewrite (stable_field _ children _ _ x
               (stable_upd _ children t (with_parent p) (heap s1)
                  (fun _ => eq_refl))).
    apply (links_children _ _ _ L1). }
  assert (P2 : forall x, parent (h2 x)
                         = if Nat.eqb x t then p else parent (heap s x)).
  { intros x. unfold h2. destruct (Nat.eqb_spec x t) as [->|Hne].
    - now rewrite upd_same.
    - rewrite upd_other by exact Hne. apply (links_parent _ _ _ L1). }
  assert (Q2 : quiet s (modify t (with_parent p) s1)).
  { eapply quiet_trans; [exact Q1|]. apply quiet_modify. }
  destruct p as [pr|] eqn:Ep.
  - cbn [heap modify with_heap]. fold h2.
    split; [eapply quiet_trans; [exact Q2|apply quiet_modify]|].
    split; [eapply stable_trans; [exact I2|]; apply stable_upd; reflexivity|].
    split; [eapply stable_trans; [exact F2|]; apply stable_upd; reflexivity|].
    split.
    + intros x. rewrite <- P2. apply (stable_field _ parent _ _ x).
      apply stable_upd; reflexivity.
    + intros x. cbn [points_to]. destruct (Nat.eqb_spec pr x) as [->|Hne].
      * rewrite upd_same. cbn. now rewrite C2.
      * rewrite upd_other by congruence. apply C2.
  - cbn [heap modify with_heap]. fold h2.
    split; [exact Q2|]. split; [exact I2|]. split; [exact F2|].
    split; [exact P2|]. intros x. cbn [points_to]. apply C2.
Qed.

Lemma reset_links_cleared : forall values s x,
  In x values ->
  links (heap (fold_left (fun s tile => modify tile reset_links s) values s) x)
  = (None, []).
Proof.
  induction values as [|t rest IH]; intros s x Hin; cbn [fold_left];
    [contradiction|].
  destruct (in_dec Nat.eq_dec x rest) as [Hr|Hr]; [now apply IH|].
  destruct Hin as [->|Hin]; [|contradiction].
  destruct (reset_links_spec rest (modify x reset_links s)) as (_ & _ & _ & N).
  cbn zeta in N. rewrite N by exact Hr.
  cbn [heap modify with_heap]. rewrite upd_same. reflexivity.
Qed.

Lemma includes_In : forall l x, includes l x = true <-> In x l.
Proof.
  intros l x. unfold includes. rewrite existsb_exists. split.
  - intros (y & Hy & E). apply Nat.eqb_eq in E. now subst.
  - intros H. exists x. split; [exact H|apply Nat.eqb_refl].
Qed.

Lemma includes_app : forall l1 l2 x,
  includes (l1 ++ l2) x = includes l1 x || includes l2 x.
Proof. intros; unfold includes; apply existsb_app. Qed.

Lemma link_tile_relinked : forall s0 done t s,
  In t (map_values (_cache s0)) ->
  relinked s0 done s -> relinked s0 (done ++ [t]) (link_tile s t).
Proof.
  intros s0 done t s Ht (Q & I & F & N & P & C).
  destruct (link_tile_links s t) as (Q1 & I1 & F1 & P1 & C1).
  rewrite (nearest_ancestor_ext s0 s t Q I) in P1, C1.
  split; [eapply quiet_trans; eauto|].
  split; [eapply stable_trans; eauto|].
  split; [eapply stable_trans; eauto|].
  split; [|split].
  - intros x Hx. unfold links. rewrite P1, C1.
    destruct (Nat.eqb_spec x t) as [->|Hne]; [contradiction|].
    destruct (points_to x (nearest_ancestor s0 t)) eqn:Ept.
    + exfalso. apply Hx. unfold points_to in Ept.
      destruct (nearest_ancestor s0 t) as [q|] eqn:En; [|discriminate].
      apply Nat.eqb_eq in Ept. subst q.
      apply ancestor_lookup_resident in En. destruct En as [k Hk].
      eapply In_values; eauto.
    + specialize (N x Hx). unfold links in N. exact N.
  - intros x Hx. rewrite P1, includes_app, (P x Hx).
    replace (includes [t] x) with (Nat.eqb x t)
      by (unfold includes; cbn; now rewrite orb_false_r).
    destruct (Nat.eqb_spec x t) as [->|Hne].
    + now rewrite orb_true_r.
    + now rewrite orb_false_r.
  - intros x Hx. rewrite C1, (C x Hx), filter_app. cbn [filter].
    destruct (points_to x (nearest_ancestor s0 t)); [reflexivity|].
    now rewrite app_nil_r.
Qed.

Lemma rebuildTree_relinked : forall s,
  relinked s (map_values (_cache s)) (_rebuildTree s).
Proof.
  intros s. unfold _rebuildTree.
  set (vals := map_values (_cache s)).
  set (s1 := fold_left (fun s tile => modify tile reset_links s) vals s).
  destruct (reset_links_spec vals s) as (Q1 & I1 & F1 & N1).
  fold s1 in Q1, I1, F1, N1.
  apply (fold_left_prefix _ _ link_tile (relinked s) vals).
  - intros done a rest s2 Hv H2. apply link_tile_relinked; [|exact H2].
    fold vals. rewrite Hv. apply in_or_app; right; now left.
  - split; [exact Q1|]. split; [exact I1|]. split; [exact F1|].
    split; [|split].
    + intros x Hx. now rewrite N1.
    + intros x Hx. cbn.
      pose proof (reset_links_cleared vals s x Hx) as R. fold s1 in R.
      unfold links in R. congruence.
    + intros x Hx. cbn.
      pose proof (reset_links_cleared vals s x Hx) as R. fold s1 in R.
      unfold links in R. congruence.
Qed.

(** * _rebuildTree: the links it leaves *)

(** X14.  After [_rebuildTree] the [children] of a resident header [p] are
    the resident headers whose [parent] is [p], in cache order; the links
    of headers that are not resident are not touched, nor is the cache. *)
Theorem rebuildTree_children : forall s,
  (forall p, In p (map_values (_cache s)) ->
     children (heap (_rebuildTree s) p)
     = filter (fun c => points_to p (parent (heap (_rebuildTree s) c)))
              (map_values (_cache s))) /\
  (forall x, ~ In x (map_values (_cache s)) ->
     parent (heap (_rebuildTree s) x) = parent (heap s x) /\
     children (heap (_rebuildTree s) x) = children (heap s x)) /\
  _cache (_rebuildTree s) = _cache s.
Proof.
  intros s. destruct (rebuildTree_relinked s) as (Q & I & F & N & P & C).
  split; [|split].
  - intros p Hp. rewrite (C p Hp). apply filter_ext_in.
    intros c Hc. rewrite (P c Hc).
    rewrite (proj2 (includes_In _ _) Hc). reflexivity.
  - intros x Hx. specialize (N x Hx). unfold links in N.
    split; congruence.
  - apply Q.
Qed.

Lemma map_get_None_iff : forall k (c : Cache),
  map_get k c = None <-> forall r, ~ In (k, r) c.
Proof.
  intros k c. split; [apply map_get_None|].
  intros H. destruct (map_get k c) as [r|] eqn:E; [|reflexivity].
  apply map_get_In in E. exfalso. eapply H; eauto.
Qed.

(** X15.  After [_rebuildTree] on a tileset that satisfies the invariant,
    the [parent] of a resident header [t] is the nearest resident ancestor:
    it lies [m >= 1] levels up, not above [_minZoom], and no resident
    header sits at an ancestor coordinate in between; when [parent] is null
    no resident header sits at any ancestor coordinate down to
    [_minZoom]. *)
Theorem rebuildTree_nearest : forall s t,
  Inv s ->
  In t (map_values (_cache s)) ->
  (forall p, parent (heap (_rebuildTree s) t) = Some p ->
     In p (map_values (_cache s)) /\
     exists m, (0 < m)%nat /\
       index (heap s p) = Nat.iter m getParentIndex (index (heap s t)) /\
       default_zoom (_minZoom s) <= zoom (heap s p) /\
       forall j r, (0 < j < m)%nat -> In r (map_values (_cache s)) ->
         index (heap s r) <> Nat.iter j getParentIndex (index (heap s t))) /\
  (parent (heap (_rebuildTree s) t) = None ->
     forall j r, (0 < j)%nat ->
       Z.of_nat j <= zoom (heap s t) - default_zoom (_minZoom s) ->
       In r (map_values (_cache s)) ->
       index (heap s r) <> Nat.iter j getParentIndex (index (heap s t))).
Proof.
  intros s t Hinv Ht.
  destruct (rebuildTree_relinked s) as (Q & I & F & N & P & C).
  rewrite (P t Ht), (proj2 (includes_In _ _) Ht).
  unfold nearest_ancestor.
  pose proof (ancestor_lookup_spec (levels_above_min s t) (index (heap s t))
                (_cache s)) as H.
  assert (Hzt : zoom (heap s t) = getTileZoom (index (heap s t))).
  { apply In_values_inv in Ht. destruct Ht as [k Hk].
    apply (inv_zoom _ _ Hinv). apply (inv_entry _ _ Hinv _ _ Hk). }
  assert (Hnone : forall j,
            map_get (getTileCacheKey
                       (Nat.iter j getParentIndex (index (heap s t)))) (_cache s)
            = None ->
            forall r, In r (map_values (_cache s)) ->
              index (heap s r) <> Nat.iter j getParentIndex (index (heap s t))).
  { intros j Hj r Hres Heq. apply In_values_inv in Hres.
    destruct Hres as [k Hk].
    destruct (inv_entry _ _ Hinv _ _ Hk) as [_ Hkey]. rewrite Heq in Hkey.
    subst k. eapply map_get_None; eauto. }
  destruct (ancestor_lookup _ _ _) as [p|].
  - split; [|discriminate]. intros p' Hp'. injection Hp' as <-.
    destruct H as (m & Hm & Hget & Hbetween).
    apply map_get_In in Hget.
    destruct (inv_entry _ _ Hinv _ _ Hget) as [Hlt Hkey].
    apply getTileCacheKey_inj in Hkey.
    split; [eapply In_values; eauto|].
    exists m. split; [lia|]. split; [now symmetry|].
    split.
    + rewrite (inv_zoom _ _ Hinv _ Hlt), <- Hkey, iter_parent_zoom.
      unfold levels_above_min in Hm. lia.
    + intros j r Hj. apply Hnone, Hbetween, Hj.
  - split; [discriminate|]. intros _ j r Hj Hle.
    apply Hnone, H. unfold levels_above_min. lia.
Qed.

(** * The children links of reachable tilesets *)

Lemma kids_ok_stable : forall h h',
  stable ident h h' -> stable links h h' -> kids_ok h -> kids_ok h'.
Proof.
  intros h h' I L K r Hr c Hc. pose proof (proj1 I) as Hs.
  rewrite Hs in Hr. rewrite (links_children _ _ _ L) in Hc.
  rewrite Hs, !(ident_index _ _ _ I). now apply K.
Qed.

Lemma kids_ok_rebuildTree : forall s,
  Inv s -> kids_ok (heap s) -> kids_ok (heap (_rebuildTree s)).
Proof.
  intros s Hinv K.
  destruct (rebuildTree_relinked s) as (Q & I & F & N & P & C).
  destruct (rebuildTree_spec s Hinv) as (_ & _ & _ & T & _).
  pose proof (proj1 I) as Hs.
  intros r Hr c Hc.
  destruct (in_dec Nat.eq_dec r (map_values (_cache s))) as [Hres|Hres].
  - rewrite (C r Hres) in Hc. apply filter_In in Hc. destruct Hc as [Hc Hpt].
    assert (Hpar : parent (heap (_rebuildTree s) c) = Some r).
    { rewrite (P c Hc), (proj2 (includes_In _ _) Hc).
      unfold points_to in Hpt. destruct (nearest_ancestor s c) as [q|];
        [|discriminate].
      apply Nat.eqb_eq in Hpt. now subst. }
    apply In_values_inv in Hc. destruct Hc as [k Hk].
    destruct (inv_entry _ _ T _ _ Hk) as [Hlt _].
    split; [exact Hlt|].
    apply (inv_parent _ _ T _ _ Hlt Hpar).
  - specialize (N r Hres). unfold links in N.
    assert (Hc0 : In c (children (heap s r))) by congruence.
    rewrite Hs in Hr |- *. rewrite !(ident_index _ _ _ I). now apply K.
Qed.

Lemma getTile_true_kids : forall i s r s',
  _getTile i true s = Some (r, s') -> kids_ok (heap s) -> kids_ok (heap s').
Proof.
  unfold _getTile; intros i s r s' H K.
  destruct (map_get (getTileCacheKey i) (_cache s)) as [t|] eqn:Hget.
  - destruct (needsReload (heap s t)); injection H as <- <-; [|exact K].
    state_simpl. eapply kids_ok_stable; [| |exact K]; apply stable_upd; reflexivity.
  - metadata_in H. injection H as <- <-. state_simpl.
    apply (kids_ok_stable
             (alloc (with_zoom (getTileZoom i) (new_Tile2DHeader i)) (heap s)));
      [apply stable_upd; reflexivity|apply stable_upd; reflexivity|].
    intros x Hx c Hc. unfold alloc in Hx; cbn in Hx.
    destruct (Nat.eq_dec x (size (heap s))) as [->|Hne].
    + rewrite alloc_new in Hc. destruct Hc.
    + assert (Hx0 : (x < size (heap s))%nat) by lia.
      rewrite alloc_old in Hc by exact Hx0.
      destruct (K x Hx0 c Hc) as [Hc0 Ha].
      split; [unfold alloc; cbn; lia|].
      now rewrite !alloc_old.
Qed.

Lemma get_tiles_kids : forall idx s tiles s',
  get_tiles idx s = Some (tiles, s') -> kids_ok (heap s) -> kids_ok (heap s').
Proof.
  induction idx as [|i rest IH]; intros s tiles s' H K; cbn [get_tiles] in H.
  - injection H as <- <-. exact K.
  - destruct (_getTile i true s) as [[r s1]|] eqn:E; cbn [bind] in H;
      [|discriminate].
    apply getTile_true_kids in E; [|exact K].
    destruct r as [t|]; [|discriminate].
    destruct (get_tiles rest s1) as [[ts s2]|] eqn:E2; cbn [bind] in H;
      [|discriminate].
    injection H as <- <-. eapply IH; eauto.
Qed.

Lemma update_select_kids : forall viewport modelMatrix idx s s1,
  update_select viewport modelMatrix idx s = Some s1 ->
  Inv s -> kids_ok (heap s) -> kids_ok (heap s1).
Proof.
  unfold update_select; intros viewport modelMatrix idx s s1 H Hinv K.
  destruct (_ || _).
  - set (s2 := with_viewport (Some viewport)
                 (if negb (Matrix4_equals (new_Matrix4 modelMatrix) (_modelMatrix s))
                  then with_modelMatrix (new_Matrix4 modelMatrix) s else s)) in H.
    assert (Hinv2 : Inv s2) by (unfold s2; destruct (negb _); exact Hinv).
    assert (K2 : kids_ok (heap s2)) by (unfold s2; destruct (negb _); exact K).
    destruct (get_tiles idx s2) as [[tiles s3]|] eqn:E; cbn [bind] in H;
      [|discriminate].
    destruct (get_tiles_spec _ _ _ _ E Hinv2) as (Hinv3 & _).
    apply get_tiles_kids in E; [|exact K2].
    destruct (_dirty _); injection H as <-; [|exact E].
    apply kids_ok_rebuildTree; assumption.
  - destruct (tileset_needsReload s).
    + destruct (_selectedTiles s) as [sel|]; [|discriminate].
      destruct (reget_tiles sel s) as [[tiles s2]|] eqn:E; cbn in H;
        [|discriminate].
      injection H as <-. apply reget_tiles_spec in E. destruct E as [_ S].
      state_simpl. eapply kids_ok_stable; eauto using shape_ident, shape_links.
    + injection H as <-. exact K.
Qed.

Lemma resizeCache_kids : forall s s',
  _resizeCache s = Some s' -> Inv s -> kids_ok (heap s) -> kids_ok (heap s').
Proof.
  unfold _resizeCache; intros s s' H Hinv K.
  destruct (_selectedTiles s) as [sel|]; [|discriminate].
  set (M := effective_maxCacheSize (opts s) sel) in *.
  set (B := effective_maxCacheByteSize (opts s)) in *.
  destruct (_ || _).
  - state_simpl_in H. injection H as <-. state_simpl.
    destruct (evict_scan_spec (_cache s) M B s) as (j & H1 & _ & _ & _ & _ & H6 & _).
    cbn zeta in *.
    apply kids_ok_rebuildTree; [apply H6, Hinv|]. now rewrite H1.
  - destruct (_dirty s); injection H as <-; exact K.
Qed.

Lemma update_kids : forall viewport modelMatrix idx s s',
  update viewport modelMatrix idx s = Some s' ->
  Inv s -> kids_ok (heap s) -> kids_ok (heap s').
Proof.
  unfold update, update_before_resize; intros viewport modelMatrix idx s s' H Hinv K.
  destruct (update_select viewport modelMatrix idx s) as [s1|] eqn:E1;
    cbn in H; [|discriminate].
  destruct (updateTileStates s1) as [[ch s2]|] eqn:E2; cbn in H; [|discriminate].
  destruct (update_select_spec _ _ _ _ _ E1 Hinv) as (Hinv1 & _).
  pose proof (update_select_kids _ _ _ _ _ E1 Hinv K) as K1.
  destruct (updateTileStates_spec _ _ _ E2) as (Q2 & _ & S2 & sel & Hsel).
  destruct (prune_loop_quiet (maxRequests (opts s2)) (abortCandidates s2)
              (ongoingRequestCount s2) s2) as [Q3 S3].
  fold (_pruneRequests s2) in Q3, S3, H.
  assert (Hinv2 : Inv s2).
  { eapply Inv_quiet; eauto using ignores_flags_ident, ignores_flags_links. }
  assert (Hinv3 : Inv (_pruneRequests s2)).
  { eapply Inv_quiet; eauto using shape_ident, shape_links. }
  assert (K3 : kids_ok (heap (_pruneRequests s2))).
  { eapply kids_ok_stable; [apply shape_ident; exact S3
                           |apply shape_links; exact S3|].
    eapply kids_ok_stable;
      [apply S2, ignores_flags_ident|apply S2, ignores_flags_links|exact K1]. }
  destruct (_dirty (_pruneRequests s2)).
  - destruct (_resizeCache (_pruneRequests s2)) as [s4|] eqn:E4; cbn in H;
      [|discriminate].
    pose proof (resizeCache_kids _ _ E4 Hinv3 K3) as K4.
    destruct ch; injection H as <-; exact K4.
  - cbn in H. destruct ch; injection H as <-; exact K3.
Qed.

Lemma kids_ok_step : forall s s',
  step s s' -> Inv s -> kids_ok (heap s) -> kids_ok (heap s').
Proof.
  intros s s' Hstep Hinv K.
  destruct Hstep as [viewport modelMatrix idx s s' Hu|o s|s|s
                    |tile data bytes s s' Hlt Hl Hu|tile s Hlt Hl].
  - eapply update_kids; eauto.
  - destruct (setOptions_frame o s) as [_ ->]. exact K.
  - destruct (reloadAll_loop_shape (_cache s) s) as (_ & _ & S & _).
    eapply kids_ok_stable; eauto using shape_ident, shape_links.
  - pose proof (finalize_heap (map_values (_cache s)) s) as S.
    unfold finalize. state_simpl.
    eapply kids_ok_stable; eauto using shape_ident, shape_links.
  - unfold tile_loaded in Hu.
    set (s2 := emit (OnTileLoad tile)
                 (modify tile (with_load (Some data) Loaded false bytes) s)) in *.
    assert (K2 : kids_ok (heap s2)).
    { unfold s2. state_simpl.
      eapply kids_ok_stable; [| |exact K]; apply stable_upd; reflexivity. }
    destruct (truthy _); [|injection Hu as <-; exact K2].
    eapply resizeCache_kids; [exact Hu| |exact K2].
    unfold Inv, s2. state_simpl.
    eapply tree_inv_stable; [| |exact Hinv]; apply stable_upd; reflexivity.
  - unfold tile_failed. state_simpl.
    eapply kids_ok_stable; [| |exact K]; apply stable_upd; reflexivity.
Qed.

Lemma reachable_kids_ok : forall s, reachable s -> kids_ok (heap s).
Proof.
  induction 1 as [o|s s' Hr IH Hstep].
  - unfold new_Tileset2D.
    match goal with |- kids_ok (heap (setOptions o ?s0)) =>
      destruct (setOptions_frame o s0) as [_ ->] end.
    intros r Hr. cbn in Hr. lia.
  - eapply kids_ok_step; eauto using reachable_Inv.
Qed.

Lemma tree_links_ascend : forall c h,
  tree_inv c h -> kids_ok h -> links_ascend h.
Proof.
  intros c h T K r Hr. split.
  - intros p Hp. destruct (inv_parent _ _ T _ _ Hr Hp) as [Hlt [n [Hn Ha]]].
    split; [exact Hlt|].
    rewrite (inv_zoom _ _ T _ Hlt), (inv_zoom _ _ T _ Hr), Ha, iter_parent_zoom.
    lia.
  - intros x Hx. destruct (K r Hr x Hx) as [Hlt [n [Hn Ha]]].
    split; [exact Hlt|].
    rewrite (inv_zoom _ _ T _ Hlt), (inv_zoom _ _ T _ Hr), Ha, iter_parent_zoom.
    lia.
Qed.

(** * update returns *)

Lemma updateTileStateReplace_total : forall allTiles h,
  links_ascend h -> (forall r, In r allTiles -> (r < size h)%nat) ->
  exists h', updateTileStateReplace allTiles h = Some h'.
Proof.
  intros allTiles h Hascend Hres.
  pose proof (sort_by_zoom_perm h allTiles) as Hperm.
  destruct (foldM_total _ _ replace_ancestors_step
              (fun h0 => stable ident h h0 /\ stable links h h0)
              allTiles (clear_states allTiles h)) as (h2 & E2 & I2 & L2).
  { intros a h0 Ha (I0 & L0).
    destruct (replace_ancestors_step_total h0 a) as (h0' & E0).
    - eapply links_ascend_stable; eauto.
    - rewrite (proj1 I0). now apply Hres.
    - exists h0'. split; [exact E0|].
      split; (eapply stable_trans; [eassumption|]).
      + apply (replace_ancestors_step_stable ident ignores_marks_ident _ _ _ E0).
      + apply (replace_ancestors_step_stable links ignores_marks_links _ _ _ E0). }
  { split; [apply (clear_states_stable ident ignores_marks_ident)
           |apply (clear_states_stable links ignores_marks_links)]. }
  destruct (foldM_total _ _ replace_step
              (fun h0 => stable ident h h0 /\ stable links h h0)
              (sort_by_zoom h allTiles) h2) as (h' & E3 & I3 & L3).
  { intros a h0 Ha (I0 & L0).
    destruct (replace_step_total h0 a) as (h0' & E0).
    - eapply links_ascend_stable; eauto.
    - rewrite (proj1 I0). apply Hres. eapply Permutation_in; eauto.
    - exists h0'. split; [exact E0|].
      split; (eapply stable_trans; [eassumption|]).
      + apply (replace_step_stable ident ignores_marks_ident _ _ _ E0).
      + apply (replace_step_stable links ignores_marks_links _ _ _ E0). }
  { split; assumption. }
  exists h'. unfold updateTileStateReplace. rewrite E2. cbn [bind].
  rewrite (sort_by_zoom_ext h h2 allTiles); [exact E3|].
  intros x. apply (ident_zoom _ _ _ I2).
Qed.

Lemma STRATEGIES_total : forall st allTiles h,
  links_ascend h -> (forall r, In r allTiles -> (r < size h)%nat) ->
  exists h', STRATEGIES st allTiles h = Some h'.
Proof.
  intros [| |] allTiles h Hl Hres; cbn [STRATEGIES].
  - eauto.
  - now apply updateTileStateReplace_total.
  - destruct (default_visible_has_data allTiles h Hl Hres) as (h' & E & _). eauto.
Qed.

Lemma updateTileStates_total : forall s sel,
  Inv s -> kids_ok (heap s) -> _selectedTiles s = Some sel ->
  exists changed s', updateTileStates s = Some (changed, s').
Proof.
  intros s sel Hinv K Hsel. unfold updateTileStates. rewrite Hsel.
  destruct (save_and_reset (map_values (_cache s)) (heap s)) as [vs h1] eqn:E.
  pose proof (save_and_reset_stable _ ident (map_values (_cache s)) (heap s)
                ignores_flags_ident) as I1.
  pose proof (save_and_reset_stable _ links (map_values (_cache s)) (heap s)
                ignores_flags_links) as L1.
  rewrite E in I1, L1. cbn [snd] in I1, L1.
  pose proof (select_tiles_stable _ ident sel h1 ignores_flags_ident) as I2.
  pose proof (select_tiles_stable _ links sel h1 ignores_flags_links) as L2.
  destruct (STRATEGIES_total (strategy_of (opts s)) (map_values (_cache s))
              (select_tiles sel h1)) as (h3 & E3).
  - apply (links_ascend_stable (heap s));
      [exact (stable_trans _ _ _ _ _ I1 I2)
      |exact (stable_trans _ _ _ _ _ L1 L2)|].
    eapply tree_links_ascend; eauto.
  - intros r Hres. rewrite (proj1 I2), (proj1 I1).
    apply In_values_inv in Hres. destruct Hres as [k Hk].
    apply (inv_entry _ _ Hinv _ _ Hk).
  - rewrite E3. cbn [bind]. eauto.
Qed.

Lemma getTile_true_returns : forall i s v,
  _viewport s = Some v ->
  exists t s', _getTile i true s = Some (Some t, s') /\ _viewport s' = Some v.
Proof.
  intros i s v Hv. unfold _getTile, getTileMetadata. rewrite Hv.
  destruct (map_get _ _) as [t|]; [destruct (needsReload _)|]; cbn [bind];
    eexists; eexists; (split; [reflexivity|exact Hv]).
Qed.

Lemma get_tiles_returns : forall idx s v,
  _viewport s = Some v ->
  exists tiles s', get_tiles idx s = Some (tiles, s').
Proof.
  induction idx as [|i rest IH]; intros s v Hv; cbn [get_tiles]; [eauto|].
  destruct (getTile_true_returns i s v Hv) as (t & s1 & -> & Hv1).
  cbn [bind]. destruct (IH s1 v Hv1) as (tiles & s2 & ->). cbn [bind]. eauto.
Qed.

(** X11.  [update] of a reachable tileset returns (it neither throws nor
    loops) whenever the viewport or the model matrix is new, or a selection
    exists and needs no reload: the placeholder searches of the strategies
    end on the links that the tileset maintains. *)
Theorem update_returns : forall s viewport modelMatrix tileIndices,
  reachable s ->
  viewport_equals viewport (_viewport s) = false \/
  Matrix4_equals (new_Matrix4 modelMatrix) (_modelMatrix s) = false \/
  (_selectedTiles s <> None /\ tileset_needsReload s = false) ->
  exists s', update viewport modelMatrix tileIndices s = Some s'.
Proof.
  intros s viewport modelMatrix idx Hr Hcase.
  pose proof (reachable_Inv _ Hr) as Hinv.
  pose proof (reachable_kids_ok _ Hr) as K.
  assert (H1 : exists s1 sel, update_select viewport modelMatrix idx s = Some s1 /\
                 _selectedTiles s1 = Some sel).
  { unfold update_select.
    destruct (negb (viewport_equals viewport (_viewport s))
              || negb (Matrix4_equals (new_Matrix4 modelMatrix) (_modelMatrix s)))
      eqn:Hnew.
    - match goal with |- context [get_tiles idx ?x] =>
        destruct (get_tiles_returns idx x viewport eq_refl) as (tiles & s3 & ->)
      end.
      cbn [bind].
      destruct (_dirty _) eqn:Hd; eexists; exists tiles; (split; [reflexivity|]).
      + match goal with |- _selectedTiles (_rebuildTree ?x) = _ =>
          destruct (rebuildTree_relinked x) as (Q & _) end.
        destruct Q as (_ & _ & _ & -> & _). reflexivity.
      + reflexivity.
    - apply orb_false_iff in Hnew. destruct Hnew as [Hv Hm].
      apply negb_false_iff in Hv, Hm.
      destruct Hcase as [Hc|[Hc|[Hsel Hnr]]]; try congruence.
      rewrite Hnr. destruct (_selectedTiles s) as [sel|] eqn:Es; [|congruence].
      exists s, sel. auto. }
  destruct H1 as (s1 & sel & E1 & Hsel1).
  destruct (update_select_spec _ _ _ _ _ E1 Hinv) as (Hinv1 & _).
  pose proof (update_select_kids _ _ _ _ _ E1 Hinv K) as K1.
  destruct (updateTileStates_total s1 sel Hinv1 K1 Hsel1) as (ch & s2 & E2).
  unfold update, update_before_resize. rewrite E1. cbn [bind]. rewrite E2.
  cbn [bind].
  destruct (updateTileStates_spec _ _ _ E2) as (Q2 & _ & S2 & _).
  destruct (prune_loop_quiet (maxRequests (opts s2)) (abortCandidates s2)
              (ongoingRequestCount s2) s2) as [Q3 S3].
  fold (_pruneRequests s2) in Q3, S3.
  assert (Hinv2 : Inv s2).
  { eapply Inv_quiet; eauto using ignores_flags_ident, ignores_flags_links. }
  assert (Hinv3 : Inv (_pruneRequests s2)).
  { eapply Inv_quiet; eauto using shape_ident, shape_links. }
  assert (Hsel3 : _selectedTiles (_pruneRequests s2) = Some sel).
  { destruct Q2 as (_ & _ & _ & Q2s & _). destruct Q3 as (_ & _ & _ & Q3s & _).
    congruence. }
  destruct (_dirty (_pruneRequests s2)).
  - destruct (resizeCache_spec _ sel Hsel3 Hinv3) as (s4 & removed & R1 & _).
    rewrite R1. cbn [bind]. eauto.
  - cbn [bind]. eauto.
Qed.

(** * The links after update (C1) *)

Lemma fresh_parents_frame : forall s s',
  fresh_parents s -> _cache s' = _cache s -> _minZoom s' = _minZoom s ->
  stable ident (heap s) (heap s') -> stable links (heap s) (heap s') ->
  fresh_parents s'.
Proof.
  intros s s' F C M I L t Ht. rewrite C in Ht.
  rewrite (links_parent _ _ _ L), (F t Ht).
  unfold nearest_ancestor, levels_above_min.
  now rewrite C, M, (ident_index _ _ _ I).
Qed.

Lemma rebuildTree_fresh : forall s, fresh_parents (_rebuildTree s).
Proof.
  intros s t Ht. destruct (rebuildTree_relinked s) as (Q & I & F & N & P & C).
  pose proof Q as (_ & Qc & _). rewrite Qc in Ht.
  rewrite (P t Ht), (proj2 (includes_In _ _) Ht).
  symmetry. now apply nearest_ancestor_ext.
Qed.

Lemma resizeCache_fresh : forall s s',
  _resizeCache s = Some s' -> fresh_parents s -> fresh_parents s'.
Proof.
  unfold _resizeCache; intros s s' H F.
  destruct (_selectedTiles s) as [sel|]; [|discriminate].
  destruct (_ || _).
  - state_simpl_in H. injection H as <-.
    match goal with |- fresh_parents (with_dirty false (with_tiles _ (with_dirty true ?x))) =>
      apply (fresh_parents_frame x);
        [apply rebuildTree_fresh|reflexivity|reflexivity
        |apply stable_refl|apply stable_refl]
    end.
  - destruct (_dirty s); injection H as <-; [|exact F].
    apply (fresh_parents_frame s);
      [exact F|reflexivity|reflexivity|apply stable_refl|apply stable_refl].
Qed.

Lemma getTile_true_size : forall i s r s',
  _getTile i true s = Some (r, s') -> _dirty s' = false ->
  size (heap s') = size (heap s) /\ _dirty s = false.
Proof.
  unfold _getTile; intros i s r s' H Hd.
  destruct (map_get _ _) as [t|].
  - destruct (needsReload _); injection H as <- <-; auto.
  - metadata_in H. injection H as <- <-. discriminate Hd.
Qed.

Lemma get_tiles_size : forall idx s tiles s',
  get_tiles idx s = Some (tiles, s') -> _dirty s' = false ->
  size (heap s') = size (heap s) /\ _dirty s = false.
Proof.
  induction idx as [|i rest IH]; intros s tiles s' H Hd; cbn [get_tiles] in H.
  - injection H as <- <-. auto.
  - destruct (_getTile i true s) as [[r s1]|] eqn:E; cbn [bind] in H;
      [|discriminate].
    destruct r as [t|]; [|discriminate].
    destruct (get_tiles rest s1) as [[ts s2]|] eqn:E2; cbn [bind] in H;
      [|discriminate].
    injection H as <- <-.
    destruct (IH _ _ _ E2 Hd) as [Hs Hd1].
    destruct (getTile_true_size _ _ _ _ E Hd1) as [Hs0 Hd0].
    split; [congruence|exact Hd0].
Qed.

(** The selection step of [update] either leaves the set of headers as it
    is or rebuilds the tree. *)
Lemma update_select_fresh : forall viewport modelMatrix idx s s1,
  update_select viewport modelMatrix idx s = Some s1 -> _dirty s = false ->
  (_dirty s1 = false /\ size (heap s1) = size (heap s)) \/
  (_dirty s1 = true /\ fresh_parents s1).
Proof.
  unfold update_select; intros viewport modelMatrix idx s s1 H Hd.
  destruct (_ || _).
  - destruct (get_tiles idx _) as [[tiles s3]|] eqn:E; cbn [bind] in H;
      [|discriminate].
    destruct (_dirty (with_selectedTiles (Some tiles) s3)) eqn:Hd4;
      injection H as <-.
    + right. split; [|apply rebuildTree_fresh].
      match goal with |- _dirty (_rebuildTree ?x) = _ =>
        destruct (rebuildTree_relinked x) as (Q & _) end.
      destruct Q as (_ & _ & _ & _ & _ & -> & _). exact Hd4.
    + left. split; [exact Hd4|].
      destruct (get_tiles_size _ _ _ _ E Hd4) as [Hs _].
      state_simpl. rewrite Hs. destruct (negb _); reflexivity.
  - destruct (tileset_needsReload s).
    + destruct (_selectedTiles s) as [sel|]; [|discriminate].
      rewrite reget_tiles_cases in H. destruct sel; [|discriminate].
      cbn [bind] in H. injection H as <-. left. auto.
    + injection H as <-. left. auto.
Qed.

(** An [update] that creates a header leaves freshly built links. *)
Lemma update_fresh : forall viewport modelMatrix idx s s',
  update viewport modelMatrix idx s = Some s' -> Inv s -> _dirty s = false ->
  (size (heap s) < size (heap s'))%nat -> fresh_parents s'.
Proof.
  intros viewport modelMatrix idx s s' H Hinv Hd Hgrew.
  destruct (update_steps _ _ _ _ _ H Hinv)
    as (s1 & ch & s2 & sel & E1 & E2 & Hinv1 & _ & _ & _ & I12 & I2' & _
        & _ & _ & _ & _ & _ & _ & _).
  destruct (update_select_fresh _ _ _ _ _ E1 Hd) as [[_ Hs]|[Hd1 F1]].
  { pose proof (proj1 I12). pose proof (proj1 I2'). lia. }
  unfold update, update_before_resize in H. rewrite E1 in H. cbn [bind] in H.
  rewrite E2 in H. cbn [bind] in H.
  destruct (updateTileStates_spec _ _ _ E2) as (Q2 & _ & S2 & _).
  destruct (prune_loop_quiet (maxRequests (opts s2)) (abortCandidates s2)
              (ongoingRequestCount s2) s2) as [Q3 S3].
  fold (_pruneRequests s2) in Q3, S3, H.
  assert (F2 : fresh_parents s2).
  { apply (fresh_parents_frame s1); [exact F1|apply Q2|apply Q2| |];
      apply S2; [apply ignores_flags_ident|apply ignores_flags_links]. }
  assert (F3 : fresh_parents (_pruneRequests s2)).
  { apply (fresh_parents_frame s2); [exact F2|apply Q3|apply Q3| |];
      [apply shape_ident|apply shape_links]; exact S3. }
  assert (F4 : forall s4, fresh_parents s4 ->
            fresh_parents (if ch then with_frameNumber (_frameNumber s4 + 1) s4
                           else s4)).
  { intros s4 F4. destruct ch; [|exact F4].
    apply (fresh_parents_frame s4);
      [exact F4|reflexivity|reflexivity|apply stable_refl|apply stable_refl]. }
  destruct (_dirty (_pruneRequests s2)).
  - destruct (_resizeCache (_pruneRequests s2)) as [s4|] eqn:E4;
      cbn [bind] in H; [|discriminate].
    injection H as <-. apply F4. eapply resizeCache_fresh; eauto.
  - cbn [bind] in H. injection H as <-. now apply F4.
Qed.

Lemma nearest_ancestor_found : forall s t p,
  Inv s -> In t (map_values (_cache s)) -> nearest_ancestor s t = Some p ->
  In p (map_values (_cache s)) /\
  exists m, (0 < m)%nat /\
    index (heap s p) = Nat.iter m getParentIndex (index (heap s t)) /\
    forall j r, (0 < j < m)%nat -> In r (map_values (_cache s)) ->
      index (heap s r) <> Nat.iter j getParentIndex (index (heap s t)).
Proof.
  intros s t p Hinv Ht Hp. unfold nearest_ancestor in Hp.
  pose proof (ancestor_lookup_spec (levels_above_min s t) (index (heap s t))
                (_cache s)) as H.
  rewrite Hp in H. destruct H as (m & Hm & Hget & Hbetween).
  apply map_get_In in Hget.
  destruct (inv_entry _ _ Hinv _ _ Hget) as [Hlt Hkey].
  apply getTileCacheKey_inj in Hkey.
  split; [eapply In_values; eauto|].
  exists m. split; [lia|]. split; [now symmetry|].
  intros j r Hj Hres Heq. apply In_values_inv in Hres.
  destruct Hres as [k Hk].
  destruct (inv_entry _ _ Hinv _ _ Hk) as [_ Hk']. rewrite Heq in Hk'.
  subst k. eapply map_get_None; [apply Hbetween; exact Hj|exact Hk].
Qed.

(** C1 (as amended).  After any [update] of a reachable tileset, a resident
    tile whose parent link is set is listed among its parent's children,
    and the parent is a proper ancestor: its coordinate is the tile's
    coordinate mapped [n >= 1] times by [getParentIndex], and its level is
    the tile's level minus [n].  When the call created a header, the parent
    is moreover resident and is the nearest resident ancestor: no resident
    tile lies at one of the coordinates in between. *)
Theorem update_tree_invariant : forall s viewport modelMatrix idx s',
  reachable s ->
  update viewport modelMatrix idx s = Some s' ->
  forall k t p,
    In (k, t) (_cache s') -> parent (heap s' t) = Some p ->
    In t (children (heap s' p)) /\
    exists n, (0 < n)%nat /\
      index (heap s' p) = Nat.iter n getParentIndex (index (heap s' t)) /\
      zoom (heap s' p) = zoom (heap s' t) - Z.of_nat n /\
      ((size (heap s) < size (heap s'))%nat ->
       In p (map_values (_cache s')) /\
       forall j r, (0 < j < n)%nat -> In r (map_values (_cache s')) ->
         index (heap s' r)
         <> Nat.iter j getParentIndex (index (heap s' t))).
Proof.
  intros s viewport modelMatrix idx s' Hr Hu k t p Hin Hp.
  pose proof (reachable_Inv _ Hr) as Hinv.
  assert (Hinv' : Inv s') by (eapply Inv_update; eauto).
  pose proof Hinv' as [K V E Z P C].
  split; [eapply C; eauto|].
  destruct (E k t Hin) as [Ht _].
  destruct (P t p Ht Hp) as [Hp' [n [Hn Ha]]].
  destruct (lt_dec (size (heap s)) (size (heap s'))) as [Hgrew|Hsame].
  - destruct (reachable_tiles_inv _ Hr) as (Hd & _).
    pose proof (update_fresh _ _ _ _ _ Hu Hinv Hd Hgrew) as F.
    assert (Hres : In t (map_values (_cache s'))) by (eapply In_values; eauto).
    rewrite (F t Hres) in Hp.
    destruct (nearest_ancestor_found s' t p Hinv' Hres Hp)
      as (Hpres & m & Hm & Hidx & Hbetween).
    exists m. split; [exact Hm|]. split; [exact Hidx|].
    split; [rewrite (Z p Hp'), (Z t Ht), Hidx; apply iter_parent_zoom|].
    intros _. split; assumption.
  - exists n. split; [exact Hn|]. split; [exact Ha|].
    split; [rewrite (Z p Hp'), (Z t Ht), Ha; apply iter_parent_zoom|].
    intros Hlt. contradiction.
Qed.

(** ** A tile two levels below its nearest resident ancestor *)

Lemma update_tree_invariant_witness :
  In 1%nat (children (heap skip_s2 0%nat)) /\
  exists n, (0 < n)%nat /\
    index (heap skip_s2 0%nat)
    = Nat.iter n getParentIndex (index (heap skip_s2 1%nat)) /\
    zoom (heap skip_s2 0%nat) = zoom (heap skip_s2 1%nat) - Z.of_nat n /\
    ((size (heap skip_s1) < size (heap skip_s2))%nat ->
     In 0%nat (map_values (_cache skip_s2)) /\
     forall j r, (0 < j < n)%nat -> In r (map_values (_cache skip_s2)) ->
       index (heap skip_s2 r)
       <> Nat.iter j getParentIndex (index (heap skip_s2 1%nat))).
Proof.
  apply (update_tree_invariant skip_s1 1%nat None [mkIndex 0 0 2] skip_s2)
    with (k := (0, 0, 2)).
  - apply reachable_run_update, reach_new.
  - vm_compute; reflexivity.
  - vm_compute; auto.
  - vm_compute; reflexivity.
Defined.

(** C1 as stated fails: after [update], the resident tile at level 2 has
    the resident tile at level 0 as its parent. *)
Lemma update_parent_level_counterexample :
  reachable skip_s1 /\
  update 1%nat None [mkIndex 0 0 2] skip_s1 = Some skip_s2 /\
  In ((0, 0, 2), 1%nat) (_cache skip_s2) /\
  parent (heap skip_s2 1%nat) = Some 0%nat /\
  zoom (heap skip_s2 1%nat) = 2 /\
  zoom (heap skip_s2 0%nat) = 0 /\
  zoom (heap skip_s2 0%nat) <> zoom (heap skip_s2 1%nat) - 1.
Proof.
  split; [apply reachable_run_update, reach_new|].
  split; [vm_compute; reflexivity|].
  split; [vm_compute; auto|].
  split; [vm_compute; reflexivity|].
  split; [vm_compute; reflexivity|].
  split; [vm_compute; reflexivity|].
  vm_compute; discriminate.
Qed.

(** Without a new header the links are those of the last rebuild: after
    [reloadAll] has dropped tile 0, the next [update] leaves it as the
    parent of the resident tile 1. *)
Lemma update_stale_parent :
  reachable (reloadAll skip_s2) /\
  update 2%nat None [mkIndex 0 0 2] (reloadAll skip_s2) = Some stale_s /\
  size (heap stale_s) = size (heap (reloadAll skip_s2)) /\
  map_values (_cache stale_s) = [1%nat] /\
  parent (heap stale_s 1%nat) = Some 0%nat.
Proof.
  split.
  { eapply reach_step; [|apply step_reloadAll].
    do 2 apply reachable_run_update. apply reach_new. }
  split; [vm_compute; reflexivity|].
  split; [vm_compute; reflexivity|].
  split; vm_compute; reflexivity.
Qed.

(** * Bits *)

Lemma has_bit_set : forall v,
  has_bit (Z.lor v TILE_STATE_VISIBLE) TILE_STATE_VISIBLE = true.
Proof.
  intros v. unfold has_bit. rewrite Z.land_lor_distr_l.
  apply negb_true_iff, Z.eqb_neq. intros H. apply Z.lor_eq_0_iff in H.
  destruct H as [_ H]. discriminate.
Qed.

Lemma has_bit_visited_kept : forall v,
  has_bit (Z.lor v TILE_STATE_VISIBLE) TILE_STATE_VISITED
  = has_bit v TILE_STATE_VISITED.
Proof.
  intros v. unfold has_bit. rewrite Z.land_lor_distr_l.
  change (Z.land TILE_STATE_VISIBLE TILE_STATE_VISITED) with 0.
  now rewrite Z.lor_0_r.
Qed.

(** * The relations only depend on links and data *)

Lemma first_with_data_ext : forall h h' t a,
  stable links h h' -> stable hasData h h' ->
  first_with_data h t a -> first_with_data h' t a.
Proof.
  intros h h' t a L D H. induction H as [t Ht|t p a Ht Hp _ IH].
  - apply first_here. now rewrite (stable_field _ _ _ _ t D).
  - eapply first_above; [now rewrite (stable_field _ _ _ _ t D)| |exact IH].
    now rewrite (links_parent _ _ _ L).
Qed.

Lemma up_ext : forall h h' t a,
  stable links h h' -> up h t a -> up h' t a.
Proof.
  intros h h' t a L H. induction H as [t|t p a Hp _ IH].
  - apply up_here.
  - eapply up_parent; [|exact IH]. now rewrite (links_parent _ _ _ L).
Qed.

Lemma nearest_below_ext : forall h h' t d,
  stable links h h' -> stable hasData h h' ->
  nearest_below h t d -> nearest_below h' t d.
Proof.
  intros h h' t d L D H. induction H as [t d Hc Hd|t c d Hc Hd _ IH].
  - apply nearest_child; [now rewrite (links_children _ _ _ L)|].
    now rewrite (stable_field _ _ _ _ d D).
  - eapply nearest_deeper; [| |exact IH].
    + now rewrite (links_children _ _ _ L).
    + now rewrite (stable_field _ _ _ _ c D).
Qed.

Lemma first_with_data_up : forall h t a,
  first_with_data h t a -> up h t a /\ hasData (h a) = true.
Proof.
  intros h t a H. induction H as [t Ht|t p a Ht Hp _ [IH1 IH2]].
  - split; [apply up_here|exact Ht].
  - split; [eapply up_parent; eauto|exact IH2].
Qed.

Lemma first_with_data_unique : forall h t a b,
  first_with_data h t a -> first_with_data h t b -> a = b.
Proof.
  intros h t a b Ha. revert b.
  induction Ha as [t Ht|t p a Ht Hp _ IH]; intros b Hb.
  - inversion Hb; subst; [reflexivity|congruence].
  - inversion Hb as [|? p' ? Ht' Hp' Hb']; subst; [congruence|].
    apply IH. congruence.
Qed.

Lemma up_trans : forall h a b c, up h a b -> up h b c -> up h a c.
Proof.
  intros h a b c H. induction H as [t|t p u Hp _ IH]; intros Hc; [exact Hc|].
  eapply up_parent; eauto.
Qed.

(** * The two searches *)

Lemma ancestors_walk_first : forall fuel t h found h1,
  ancestors_walk fuel (Some t) h = Some (found, h1) ->
  (found = true /\
   exists w, first_with_data h t w /\
             h1 = upd w (or_state TILE_STATE_VISIBLE) h)
  \/ (found = false /\ h1 = h /\ forall x, up h t x -> hasData (h x) = false).
Proof.
  induction fuel as [|fuel IH]; intros t h found h1 H; cbn in H; [discriminate|].
  destruct (hasData (h t)) eqn:Hd.
  - injection H as <- <-. left. split; [reflexivity|].
    exists t. split; [now apply first_here|reflexivity].
  - destruct (parent (h t)) as [p|] eqn:Hp.
    + destruct (IH p h found h1 H) as [[-> (w & Hw & ->)]|[-> [-> Hn]]].
      * left. split; [reflexivity|]. exists w. split; [|reflexivity].
        eapply first_above; eauto.
      * right. split; [reflexivity|]. split; [reflexivity|].
        intros x Hx. inversion Hx as [|? p' ? Hp' Hup]; subst; [exact Hd|].
        apply Hn. congruence.
    + assert (E : found = false /\ h1 = h)
        by (destruct fuel; cbn in H; injection H as <- <-; auto).
      destruct E as [-> ->]. right. split; [reflexivity|]. split; [reflexivity|].
      intros x Hx. inversion Hx as [|? p' ? Hp' Hup]; subst; [exact Hd|].
      congruence.
Qed.

Lemma visible_bit_upd : forall w (h : Heap) u,
  visible_bit (upd w (or_state TILE_STATE_VISIBLE) h) u
  = Nat.eqb u w || visible_bit h u.
Proof.
  intros w h u. unfold visible_bit. destruct (Nat.eqb_spec u w) as [->|Hne].
  - rewrite upd_same. cbn. apply has_bit_set.
  - now rewrite upd_other.
Qed.

Lemma children_walk_bits : forall fuel t h h1,
  children_walk fuel t h = Some h1 ->
  forall u, visible_bit h1 u = true <->
            visible_bit h u = true \/ nearest_below h t u.
Proof.
  induction fuel as [|fuel IH]; intros t h h1 H; cbn in H; [discriminate|].
  set (g := fun child (h : Heap) =>
              if hasData (h child)
              then Some (upd child (or_state TILE_STATE_VISIBLE) h)
              else children_walk fuel child h) in H.
  assert (P : stable links h h1 /\ stable hasData h h1 /\
              forall u, visible_bit h1 u = true <->
                visible_bit h u = true \/
                exists c, In c (children (h t)) /\
                  ((u = c /\ hasData (h c) = true) \/
                   (hasData (h c) = false /\ nearest_below h c u))).
  { apply (foldM_prefix _ _ g
             (fun done hc =>
                stable links h hc /\ stable hasData h hc /\
                forall u, visible_bit hc u = true <->
                  visible_bit h u = true \/
                  exists c, In c done /\
                    ((u = c /\ hasData (h c) = true) \/
                     (hasData (h c) = false /\ nearest_below h c u)))
             (children (h t))) with (s := h); [| |exact H].
    - intros done c rest hc hc' _ (L & D & B) Hstep. unfold g in Hstep.
      rewrite (stable_field _ _ _ _ c D) in Hstep.
      destruct (hasData (h c)) eqn:Hd.
      + injection Hstep as <-.
        split; [eapply stable_trans; [exact L|]; apply stable_upd; reflexivity|].
        split; [eapply stable_trans; [exact D|];
                apply (or_state_stable hasData ignores_marks_hasData)|].
        intros u. rewrite visible_bit_upd, orb_true_iff, B, Nat.eqb_eq.
        split.
        * intros [->|[Hb|(c' & Hc' & Hcase)]]; [right|now left|right].
          -- exists c. split; [apply in_or_app; right; now left|]. now left.
          -- exists c'. split; [apply in_or_app; now left|exact Hcase].
        * intros [Hb|(c' & Hc' & Hcase)]; [right; now left|].
          apply in_app_iff in Hc'. destruct Hc' as [Hc'|[<-|[]]].
          -- right; right. eauto.
          -- destruct Hcase as [[-> _]|[Hf _]]; [now left|congruence].
      + pose proof (children_walk_stable links ignores_marks_links _ _ _ _ Hstep)
          as L'.
        pose proof (children_walk_stable hasData ignores_marks_hasData _ _ _ _ Hstep)
          as D'.
        split; [eapply stable_trans; eauto|].
        split; [eapply stable_trans; eauto|].
        intros u. rewrite (IH c hc hc' Hstep u), B. split.
        * intros [[Hb|(c' & Hc' & Hcase)]|Hn]; [now left|right|right].
          -- exists c'. split; [apply in_or_app; now left|exact Hcase].
          -- exists c. split; [apply in_or_app; right; now left|].
             right. split; [exact Hd|].
             eapply nearest_below_ext; [| |exact Hn]; now apply stable_sym.
        * intros [Hb|(c' & Hc' & Hcase)]; [left; now left|].
          apply in_app_iff in Hc'. destruct Hc' as [Hc'|[<-|[]]].
          -- left; right. eauto.
          -- destruct Hcase as [[_ Ht]|[_ Hn]]; [congruence|].
             right. eapply nearest_below_ext; eauto.
    - split; [apply stable_refl|]. split; [apply stable_refl|].
      intros u. split; [now left|]. intros [Hb|(c & [] & _)]. exact Hb. }
  destruct P as (_ & _ & B). intros u. rewrite B. split.
  - intros [Hb|(c & Hc & [[-> Hd]|[Hd Hn]])]; [now left| |].
    + right. now apply nearest_child.
    + right. eapply nearest_deeper; eauto.
  - intros [Hb|Hn]; [now left|]. right.
    inversion Hn as [? ? Hc Hd|? c ? Hc Hd Hn']; subst.
    + exists u. split; [exact Hc|]. now left.
    + exists c. split; [exact Hc|]. right. split; assumption.
Qed.

(** * Best-available shows exactly the placeholders of the selected tiles *)

Lemma default_step_placeholders : forall (h : Heap) a h0 h0',
  stable links h h0 -> stable hasData h h0 -> stable isSelected h h0 ->
  default_step a h0 = Some h0' ->
  stable links h h0' /\ stable hasData h h0' /\ stable isSelected h h0' /\
  forall u, visible_bit h0' u = true <->
    visible_bit h0 u = true \/ (isSelected (h a) = true /\ placeholder h a u).
Proof.
  intros h a h0 h0' L D Sl Hstep.
  split; [eapply stable_trans; [exact L|];
          apply (default_step_stable links ignores_marks_links _ _ _ Hstep)|].
  split; [eapply stable_trans; [exact D|];
          apply (default_step_stable hasData ignores_marks_hasData _ _ _ Hstep)|].
  split; [eapply stable_trans; [exact Sl|];
          apply (default_step_stable isSelected ignores_marks_isSelected _ _ _ Hstep)|].
  unfold default_step in Hstep. rewrite (stable_field _ _ _ _ a Sl) in Hstep.
  destruct (isSelected (h a)) eqn:Hsel.
  - unfold getPlaceholderInAncestors in Hstep.
    destruct (ancestors_walk (S (size h0)) (Some a) h0) as [[found h1]|] eqn:E;
      cbn [bind] in Hstep; [|discriminate].
    destruct (ancestors_walk_first _ _ _ _ _ E)
      as [[-> (w & Hw & ->)]|[-> [-> Hn]]].
    + injection Hstep as <-.
      assert (Hw' : first_with_data h a w)
        by (eapply first_with_data_ext; [| |exact Hw]; now apply stable_sym).
      intros u. rewrite visible_bit_upd, orb_true_iff, Nat.eqb_eq. split.
      * intros [->|Hb]; [right|now left]. split; [reflexivity|]. now left.
      * intros [Hb|[_ [Hf|[Hno _]]]]; [now right| |].
        -- left. eapply first_with_data_unique; eauto.
        -- destruct (first_with_data_up _ _ _ Hw') as [Hup Hd].
           rewrite (Hno w Hup) in Hd. discriminate.
    + unfold getPlaceholderInChildren in Hstep.
      intros u. rewrite (children_walk_bits _ _ _ _ Hstep u). split.
      * intros [Hb|Hnb]; [now left|right]. split; [reflexivity|]. right.
        split.
        -- intros x Hx. rewrite <- (stable_field _ _ _ _ x D). apply Hn.
           eapply up_ext; eauto.
        -- eapply nearest_below_ext; [| |exact Hnb]; now apply stable_sym.
      * intros [Hb|[_ [Hf|[_ Hnb]]]]; [now left| |].
        -- destruct (first_with_data_up _ _ _ Hf) as [Hup Hd].
           rewrite <- (stable_field _ _ _ _ u D) in Hd.
           rewrite Hn in Hd; [discriminate|]. eapply up_ext; eauto.
        -- right. eapply nearest_below_ext; eauto.
  - injection Hstep as <-. intros u. split; [now left|].
    intros [Hb|[Hf _]]; [exact Hb|discriminate].
Qed.

(** X18.  Best-available, on links that ascend in level, returns, and a
    tile of the list ends up visible exactly when it is the placeholder of
    some selected tile [t]: the first header with data on the way up from
    [t] ([t] included), or, when nothing on that way has data, a header
    with data reached from [t] through children that have none. *)
Theorem default_shows_placeholders : forall allTiles h,
  links_ascend h ->
  (forall r, In r allTiles -> (r < size h)%nat) ->
  exists h',
    updateTileStateDefault allTiles h = Some h' /\
    forall u, In u allTiles ->
      (isVisible (h' u) = true <->
       exists t, In t allTiles /\ isSelected (h t) = true /\ placeholder h t u).
Proof.
  intros allTiles h Hl Hres.
  destruct (default_visible_has_data allTiles h Hl Hres) as (h' & E & _).
  exists h'. split; [exact E|].
  unfold updateTileStateDefault in E.
  destruct (foldM default_step allTiles (clear_states allTiles h)) as [h2|] eqn:E2;
    cbn in E; [|discriminate].
  injection E as <-.
  assert (P : stable links h h2 /\ stable hasData h h2 /\
              stable isSelected h h2 /\
              forall u, In u allTiles ->
                (visible_bit h2 u = true <->
                 exists t, In t allTiles /\ isSelected (h t) = true /\
                           placeholder h t u)).
  { apply (foldM_prefix _ _ default_step
             (fun done h0 =>
                stable links h h0 /\ stable hasData h h0 /\
                stable isSelected h h0 /\
                forall u, In u allTiles ->
                  (visible_bit h0 u = true <->
                   exists t, In t done /\ isSelected (h t) = true /\
                             placeholder h t u))
             allTiles) with (s := clear_states allTiles h); [| |exact E2].
    - intros done a rest h0 h0' _ (L & D & Sl & B) Hstep.
      destruct (default_step_placeholders h a h0 h0' L D Sl Hstep)
        as (L' & D' & Sl' & B').
      split; [exact L'|]. split; [exact D'|]. split; [exact Sl'|].
      intros u Hu. rewrite B', (B u Hu). split.
      + intros [(t & Ht & Hs & Hp)|[Hs Hp]].
        * exists t. split; [apply in_or_app; now left|auto].
        * exists a. split; [apply in_or_app; right; now left|auto].
      + intros (t & Ht & Hs & Hp). apply in_app_iff in Ht.
        destruct Ht as [Ht|[<-|[]]]; [left; eauto|right; auto].
    - split; [apply (clear_states_stable links ignores_marks_links)|].
      split; [apply (clear_states_stable hasData ignores_marks_hasData)|].
      split; [apply (clear_states_stable isSelected ignores_marks_isSelected)|].
      intros u Hu. unfold visible_bit. rewrite clear_states_zero by exact Hu.
      split; [discriminate|]. intros (t & [] & _). }
  destruct P as (_ & _ & _ & B).
  intros u Hu. rewrite show_all_visible by exact Hu. apply (B u Hu).
Qed.

(** * What one step of the third loop does to the marks *)

Lemma children_walk_visited : forall fuel t h h1,
  children_walk fuel t h = Some h1 ->
  stable (fun t => has_bit (state t) TILE_STATE_VISITED) h h1.
Proof.
  induction fuel as [|fuel IH]; intros t h h1 H; cbn in H; [discriminate|].
  eapply stable_foldM; [|exact H].
  intros c hc hc' E; cbn in E.
  destruct (hasData (hc c)).
  - injection E as <-. apply stable_upd. intros t0. cbn.
    apply has_bit_visited_kept.
  - eapply IH; eauto.
Qed.

Lemma replace_step_marks_effect : forall w (h1 h1' : Heap),
  replace_step w h1 = Some h1' ->
  (visible_bit h1 w || visited_bit h1 w = true ->
   forall x, (In x (children (h1 w)) -> state (h1' x) = TILE_STATE_VISITED) /\
             (~ In x (children (h1 w)) -> state (h1' x) = state (h1 x))) /\
  (visible_bit h1 w || visited_bit h1 w = false ->
   forall x, (visible_bit h1 x = true -> visible_bit h1' x = true) /\
             visited_bit h1' x = visited_bit h1 x).
Proof.
  intros w h1 h1' H. unfold replace_step in H.
  set (h1a := show_from_state w h1) in *.
  assert (Va : isVisible (h1a w) = visible_bit h1 w)
    by (unfold h1a, show_from_state; now rewrite upd_same).
  assert (Sa : stable state h1 h1a) by (apply stable_upd; reflexivity).
  assert (La : stable links h1 h1a) by (apply stable_upd; reflexivity).
  rewrite Va, (stable_field _ state h1 h1a w Sa) in H.
  fold (visited_bit h1 w) in H.
  destruct (visible_bit h1 w || visited_bit h1 w) eqn:Hc.
  - split; [|discriminate]. intros _ x. injection H as <-. split.
    + intros Hin. apply hide_children_state.
      now rewrite (links_children _ _ _ La).
    + intros Hnin. rewrite hide_children_other.
      * apply (stable_field _ state h1 h1a x Sa).
      * now rewrite (links_children _ _ _ La).
  - split; [discriminate|]. intros _ x.
    assert (Hx : visible_bit h1a x = visible_bit h1 x /\
                 visited_bit h1a x = visited_bit h1 x).
    { unfold visible_bit, visited_bit.
      now rewrite (stable_field _ state h1 h1a x Sa). }
    destruct Hx as [Hx1 Hx2]. rewrite <- Hx1, <- Hx2.
    destruct (isSelected (h1a w)).
    + split.
      * intros Hb. apply (children_walk_bits _ _ _ _ H x). now left.
      * apply (stable_field _ _ _ _ x (children_walk_visited _ _ _ _ H)).
    + injection H as <-. auto.
Qed.

Lemma replace_step_marked : forall l w h1 h1',
  replace_step w h1 = Some h1' ->
  marked_with_data l h1 -> marked_with_data l h1'.
Proof.
  intros l w h1 h1' H Hm. unfold replace_step in H.
  set (h1a := show_from_state w h1) in *.
  assert (Sa : stable state h1 h1a) by (apply stable_upd; reflexivity).
  assert (Da : stable hasData h1 h1a)
    by (apply (show_from_state_stable hasData ignores_marks_hasData)).
  assert (Ma : marked_with_data l h1a).
  { intros u Hu Hb. rewrite (stable_field _ _ _ _ u Da).
    rewrite (stable_field _ _ _ _ u Sa) in Hb. now apply Hm. }
  destruct (_ || _).
  - injection H as <-. intros u Hu Hb.
    rewrite (stable_field _ hasData h1a _ u
               (hide_children_stable hasData ignores_marks_hasData w h1a)).
    destruct (in_dec Nat.eq_dec u (children (h1a w))) as [Hin|Hnin].
    + rewrite (hide_children_state w h1a u Hin) in Hb. discriminate.
    + rewrite (hide_children_other w h1a u Hnin) in Hb. now apply Ma.
  - destruct (isSelected (h1a w)).
    + eapply children_walk_marks; eauto.
    + injection H as <-. exact Ma.
Qed.

(** * No-overlap covers every selected tile that has data above it *)

Section Coverage.
Variable allTiles : list TileRef.
Variable h : Heap.
Hypothesis Hascend : links_ascend h.
Hypothesis Hnodup : NoDup allTiles.
Hypothesis Hres : forall r, In r allTiles -> (r < size h)%nat.
Hypothesis Hkids :
  forall x c, In x allTiles -> In c (children (h x)) -> parent (h c) = Some x.
Hypothesis Hparents :
  forall x p, In x allTiles -> parent (h x) = Some p -> In p allTiles.

Lemma replace_step_covered : forall h2 done w rest h1 h1',
  sort_by_zoom h allTiles = done ++ w :: rest ->
  covered_below allTiles h h2 done h1 -> replace_step w h1 = Some h1' ->
  covered_below allTiles h h2 (done ++ [w]) h1'.
Proof.
  intros h2 done w rest h1 h1' Hsort (I1 & L1 & M1 & A & C & D) Hstep.
  pose proof (sort_by_zoom_perm h allTiles) as Hperm.
  pose proof (sort_by_zoom_sorted h allTiles) as Hsorted.
  rewrite Hsort in Hperm, Hsorted.
  assert (Hw : In w allTiles).
  { eapply Permutation_in; [exact Hperm|]. apply in_or_app; right; now left. }
  assert (Hnw : ~ In w done).
  { eapply NoDup_middle. eapply Permutation_NoDup; [|exact Hnodup].
    symmetry; exact Hperm. }
  assert (Hle : forall u, In u done -> zoom (h u) <= zoom (h w)).
  { intros u Hu. exact (sorted_prefix_le _ _ _ _ _ Hsorted u Hu). }
  assert (Hdesc : forall x, descends h1 w x -> descends h w x).
  { intros x Hx. eapply descends_stable; [apply stable_sym; exact L1|exact Hx]. }
  assert (Hnot : forall u, In u done \/ u = w -> ~ descends h1 w u).
  { intros u Hu Hd. apply Hdesc in Hd.
    destruct (descends_zoom h w u Hascend (Hres w Hw) Hd) as [_ Hz].
    destruct Hu as [Hu| ->]; [specialize (Hle u Hu)|]; lia. }
  destruct (replace_step_effect w h1 h1' Hstep) as (I & L & Vo & Vw & St & _).
  destruct (replace_step_marks_effect w h1 h1' Hstep) as (Hide & Walk).
  assert (Hst : forall u, In u done \/ u = w -> state (h1' u) = state (h1 u)).
  { intros u Hu. apply St. now apply Hnot. }
  assert (Hkeep : forall u, In u done ->
            (isVisible (h1 u) = true \/ visited_bit h1 u = true) ->
            (isVisible (h1' u) = true \/ visited_bit h1' u = true)).
  { intros u Hu Hprem. unfold visited_bit. rewrite Hst by auto.
    rewrite Vo by (intros ->; contradiction). exact Hprem. }
  assert (Hself : visible_bit h1 w || visited_bit h1 w = true ->
                  isVisible (h1' w) = true \/ visited_bit h1' w = true).
  { intros Hc. apply orb_true_iff in Hc. unfold visited_bit, visible_bit in *.
    rewrite Hst by auto. rewrite Vw. exact Hc. }
  assert (Hch : forall x, In x (children (h1 w)) <-> In x (children (h w))).
  { intros x. now rewrite (links_children _ _ _ L1). }
  split; [eapply stable_trans; eauto|].
  split; [eapply stable_trans; eauto|].
  split; [eapply replace_step_marked; eauto|].
  split; [|split].
  - intros u Hu. apply in_app_iff in Hu. unfold visible_bit.
    destruct Hu as [Hu|[<-|[]]].
    + rewrite Hst by auto. rewrite Vo by (intros ->; contradiction).
      now apply A.
    + rewrite Hst by auto. exact Vw.
  - intros c Hc Hb.
    destruct (C c Hc Hb) as [Hv|(u & Hu & Hin & Hprem)].
    + destruct (visible_bit h1 w || visited_bit h1 w) eqn:Hcase.
      * destruct (in_dec Nat.eq_dec c (children (h1 w))) as [Hcw|Hcw].
        -- right. exists w. split; [apply in_or_app; right; now left|].
           split; [now apply Hch|]. now apply Hself.
        -- left. unfold visible_bit.
           rewrite (proj2 (Hide eq_refl c) Hcw). exact Hv.
      * left. now apply (Walk eq_refl c).
    + right. exists u. split; [apply in_or_app; now left|].
      split; [exact Hin|]. now apply Hkeep.
  - intros c Hc Hb.
    assert (Hold : visited_bit h1 c = true ->
              exists u, In u (done ++ [w]) /\ In c (children (h u)) /\
                (isVisible (h1' u) = true \/ visited_bit h1' u = true)).
    { intros Hb1. destruct (D c Hc Hb1) as (u & Hu & Hin & Hprem).
      exists u. split; [apply in_or_app; now left|].
      split; [exact Hin|]. now apply Hkeep. }
    destruct (visible_bit h1 w || visited_bit h1 w) eqn:Hcase.
    + destruct (in_dec Nat.eq_dec c (children (h1 w))) as [Hcw|Hcw].
      * exists w. split; [apply in_or_app; right; now left|].
        split; [now apply Hch|]. now apply Hself.
      * apply Hold. unfold visited_bit in *.
        now rewrite <- (proj2 (Hide eq_refl c) Hcw).
    + apply Hold. now rewrite <- (proj2 (Walk eq_refl c)).
Qed.

Lemma replace_ancestors_marks : forall h2,
  foldM replace_ancestors_step allTiles (clear_states allTiles h) = Some h2 ->
  stable ident h h2 /\ stable links h h2 /\ marked_with_data allTiles h2 /\
  (forall t a, In t allTiles -> isSelected (h t) = true ->
     first_with_data h t a -> visible_bit h2 a = true) /\
  (forall u, In u allTiles -> visited_bit h2 u = false).
Proof.
  intros h2 E.
  assert (P : stable ident h h2 /\ stable links h h2 /\ stable hasData h h2 /\
              stable isSelected h h2 /\ marked_with_data allTiles h2 /\
              (forall t a, In t allTiles -> isSelected (h t) = true ->
                 first_with_data h t a -> visible_bit h2 a = true) /\
              (forall u, In u allTiles -> visited_bit h2 u = false)).
  { apply (foldM_prefix _ _ replace_ancestors_step
             (fun done h0 =>
                stable ident h h0 /\ stable links h h0 /\ stable hasData h h0 /\
                stable isSelected h h0 /\ marked_with_data allTiles h0 /\
                (forall t a, In t done -> isSelected (h t) = true ->
                   first_with_data h t a -> visible_bit h0 a = true) /\
                (forall u, In u allTiles -> visited_bit h0 u = false))
             allTiles) with (s := clear_states allTiles h); [| |exact E].
    - intros done a rest h0 h0' _ (I & L & D & Sl & M & B & V) Hstep.
      pose proof (replace_ancestors_step_stable ident ignores_marks_ident _ _ _ Hstep)
        as I'.
      pose proof (replace_ancestors_step_stable links ignores_marks_links _ _ _ Hstep)
        as L'.
      pose proof (replace_ancestors_step_stable hasData ignores_marks_hasData _ _ _ Hstep)
        as D'.
      pose proof (replace_ancestors_step_stable isSelected ignores_marks_isSelected
                    _ _ _ Hstep) as Sl'.
      split; [eapply stable_trans; eauto|].
      split; [eapply stable_trans; eauto|].
      split; [eapply stable_trans; eauto|].
      split; [eapply stable_trans; eauto|].
      unfold replace_ancestors_step in Hstep.
      rewrite (stable_field _ _ _ _ a Sl) in Hstep.
      destruct (isSelected (h a)) eqn:Hsel.
      + unfold getPlaceholderInAncestors in Hstep.
        destruct (ancestors_walk (S (size h0)) (Some a) h0) as [[found h1]|] eqn:Ew;
          cbn [bind] in Hstep; [|discriminate].
        injection Hstep as <-.
        split; [eapply ancestors_walk_marks; eauto|].
        destruct (ancestors_walk_first _ _ _ _ _ Ew)
          as [[-> (w & Hw & ->)]|[-> [-> Hn]]].
        * split.
          -- intros t x Ht Hs Hf. rewrite visible_bit_upd.
             apply in_app_iff in Ht. destruct Ht as [Ht|[<-|[]]].
             ++ rewrite (B t x Ht Hs Hf). apply orb_true_r.
             ++ assert (x = w).
                { eapply first_with_data_unique; [exact Hf|].
                  eapply first_with_data_ext; [| |exact Hw]; now apply stable_sym. }
                subst x. now rewrite Nat.eqb_refl.
          -- intros u Hu. unfold visited_bit.
             destruct (Nat.eq_dec u w) as [->|Hne].
             ++ rewrite upd_same. cbn. rewrite has_bit_visited_kept.
                now apply V.
             ++ rewrite upd_other by exact Hne. now apply V.
        * split; [|exact V].
          intros t x Ht Hs Hf. apply in_app_iff in Ht.
          destruct Ht as [Ht|[<-|[]]]; [now apply (B t x)|].
          destruct (first_with_data_up _ _ _ Hf) as [Hup Hd].
          rewrite <- (stable_field _ _ _ _ x D) in Hd.
          rewrite Hn in Hd; [discriminate|]. exact (up_ext h h0 _ _ L Hup).
      + injection Hstep as <-. split; [exact M|]. split; [|exact V].
        intros t x Ht Hs Hf. apply in_app_iff in Ht.
        destruct Ht as [Ht|[<-|[]]]; [now apply (B t x)|congruence].
    - split; [apply (clear_states_stable ident ignores_marks_ident)|].
      split; [apply (clear_states_stable links ignores_marks_links)|].
      split; [apply (clear_states_stable hasData ignores_marks_hasData)|].
      split; [apply (clear_states_stable isSelected ignores_marks_isSelected)|].
      split.
      { intros u Hu Hb. rewrite clear_states_zero in Hb by exact Hu.
        discriminate. }
      split; [intros t a []|].
      intros u Hu. unfold visited_bit. now rewrite clear_states_zero. }
  destruct P as (I & L & _ & _ & M & B & V). auto.
Qed.

(** X19.  No-overlap on a well-formed tree returns, shows only tiles that
    have data, and leaves no hole: when the way up from a selected tile
    (itself included) meets a header with data, that header or one of its
    ancestors is visible afterwards. *)
Theorem replace_covers_selected :
  exists h',
    updateTileStateReplace allTiles h = Some h' /\
    (forall u, In u allTiles -> isVisible (h' u) = true -> hasData (h u) = true) /\
    forall t a, In t allTiles -> isSelected (h t) = true ->
      first_with_data h t a ->
      exists v, up h a v /\ In v allTiles /\ isVisible (h' v) = true.
Proof.
  destruct (updateTileStateReplace_total allTiles h Hascend Hres) as (h' & E).
  exists h'. split; [exact E|].
  unfold updateTileStateReplace in E.
  destruct (foldM replace_ancestors_step allTiles (clear_states allTiles h))
    as [h2|] eqn:E2; cbn [bind] in E; [|discriminate].
  destruct (replace_ancestors_marks h2 E2) as (I2 & L2 & M2 & B2 & V2).
  rewrite (sort_by_zoom_ext h h2 allTiles) in E
    by (intros x; apply (ident_zoom _ _ _ I2)).
  pose proof (sort_by_zoom_perm h allTiles) as Hperm.
  assert (J : covered_below allTiles h h2 (sort_by_zoom h allTiles) h').
  { apply (foldM_prefix _ _ replace_step (covered_below allTiles h h2)
             (sort_by_zoom h allTiles)) with (s := h2); [| |exact E].
    - intros done a rest s s' Hs Hj Hstep.
      eapply replace_step_covered; eauto.
    - split; [exact I2|]. split; [exact L2|]. split; [exact M2|].
      split; [intros u []|]. split; [intros c _ Hb; now left|].
      intros c Hc Hb. rewrite V2 in Hb by exact Hc. discriminate. }
  destruct J as (I' & L' & M' & A & C & D).
  assert (Hin : forall u, In u allTiles <-> In u (sort_by_zoom h allTiles)).
  { intros u. split; intros Hu.
    - eapply Permutation_in; [symmetry; exact Hperm|exact Hu].
    - eapply Permutation_in; [exact Hperm|exact Hu]. }
  assert (Hdata : stable hasData h h').
  { eapply stable_trans.
    - apply (clear_states_stable hasData ignores_marks_hasData allTiles h).
    - eapply stable_trans.
      + eapply stable_foldM; [|exact E2]. intros a s s' Hs.
        apply (replace_ancestors_step_stable hasData ignores_marks_hasData _ _ _ Hs).
      + eapply stable_foldM; [|exact E]. intros a s s' Hs.
        apply (replace_step_stable hasData ignores_marks_hasData _ _ _ Hs). }
  split.
  { intros u Hu Hv. rewrite <- (stable_field _ _ _ _ u Hdata).
    apply M'; [exact Hu|].
    rewrite (A u (proj1 (Hin u) Hu)) in Hv. exact Hv. }
  assert (Hcover : forall n c, (below h c < n)%nat -> In c allTiles ->
            visible_bit h2 c = true \/ visited_bit h' c = true ->
            exists v, up h c v /\ In v allTiles /\ isVisible (h' v) = true).
  { induction n as [|n IH]; intros c Hn Hc Hmark; [lia|].
    assert (Hnext : visible_bit h' c = true \/
              exists u, In u (sort_by_zoom h allTiles) /\ In c (children (h u)) /\
                (isVisible (h' u) = true \/ visited_bit h' u = true)).
    { destruct Hmark as [Hb|Hb]; [now apply C|right; now apply D]. }
    destruct Hnext as [Hb|(u & Hu & Hcu & Hprem)].
    - exists c. split; [apply up_here|]. split; [exact Hc|].
      now rewrite (A c (proj1 (Hin c) Hc)).
    - apply Hin in Hu. pose proof (Hkids u c Hu Hcu) as Hp.
      destruct Hprem as [Hv|Hw].
      + exists u. split; [eapply up_parent; [exact Hp|apply up_here]|]. auto.
      + destruct (proj1 (Hascend c (Hres c Hc)) u Hp) as [Hlt Hz].
        destruct (IH u) as (v & Hup & Hv & Hvis); auto.
        * pose proof (below_lt h u c Hlt Hz). lia.
        * exists v. split; [eapply up_parent; eauto|]. auto. }
  intros t a Ht Hs Hf.
  assert (Ha : In a allTiles).
  { destruct (first_with_data_up _ _ _ Hf) as [Hup _]. clear Hf Hs.
    induction Hup as [t|t p u Hp _ IH]; [exact Ht|].
    apply IH. eapply Hparents; eauto. }
  apply (Hcover (S (below h a)) a); [lia|exact Ha|].
  left. exact (B2 t a Ht Hs Hf).
Qed.
End Coverage.

(** * The eviction scan *)

Lemma evict_all_heap : forall l s, heap (evict_all l s) = heap s.
Proof.
  induction l as [|e l IH]; intros s; cbn; [reflexivity|].
  unfold evict_all in IH. now rewrite IH.
Qed.

Lemma evict_all_log : forall l s,
  log (evict_all l s) = log s ++ map (fun e => OnTileUnload (snd e)) l.
Proof.
  induction l as [|e l IH]; intros s; cbn.
  - now rewrite app_nil_r.
  - unfold evict_all in IH. rewrite IH. cbn. now rewrite <- app_assoc.
Qed.

(** X20.  The eviction scan of [_resizeCache] removes the invisible
    entries of a prefix of the cache, oldest first, with one
    [onTileUnload] each in that order; it stops at the first entry after
    which the cache is within its limits, and no shorter prefix (of at
    least one entry) would have brought the cache within them. *)
Theorem evict_scan_oldest_first : forall s maxSize maxBytes,
  exists j,
    (j <= length (_cache s))%nat /\
    evict_scan (_cache s) maxSize maxBytes s
    = evict_all (filter (invisible (heap s)) (firstn j (_cache s))) s /\
    log (evict_scan (_cache s) maxSize maxBytes s)
    = log s ++ map (fun e => OnTileUnload (snd e))
                   (filter (invisible (heap s)) (firstn j (_cache s))) /\
    (within_limits maxSize maxBytes (evict_scan (_cache s) maxSize maxBytes s)
     = true \/ j = length (_cache s)) /\
    (forall j', (0 < j' < j)%nat ->
       within_limits maxSize maxBytes
         (evict_all (filter (invisible (heap s)) (firstn j' (_cache s))) s)
       = false).
Proof.
  intros s maxSize maxBytes.
  assert (H : forall entries s,
            exists j,
              (j <= length entries)%nat /\
              evict_scan entries maxSize maxBytes s
              = evict_all (filter (invisible (heap s)) (firstn j entries)) s /\
              (within_limits maxSize maxBytes
                 (evict_scan entries maxSize maxBytes s) = true
               \/ j = length entries) /\
              (forall j', (0 < j' < j)%nat ->
                 within_limits maxSize maxBytes
                   (evict_all (filter (invisible (heap s)) (firstn j' entries)) s)
                 = false)).
  { clear s. induction entries as [|[k t] rest IH]; intros s.
    - exists O. cbn. split; [lia|]. split; [reflexivity|].
      split; [now right|]. intros j' Hj; lia.
    - cbn [evict_scan].
      set (s1 := if negb (isVisible (heap s t)) then evict k t s else s).
      assert (Hs1 : s1 = evict_all (filter (invisible (heap s)) [(k, t)]) s).
      { unfold s1, invisible. cbn. destruct (negb _); reflexivity. }
      assert (Hh : heap s1 = heap s)
        by (unfold s1; destruct (negb _); reflexivity).
      assert (Hcons : forall n,
                evict_all (filter (invisible (heap s)) (firstn (S n) ((k, t) :: rest))) s
                = evict_all (filter (invisible (heap s1)) (firstn n rest)) s1).
      { intros n. rewrite firstn_cons, Hh.
        change ((k, t) :: firstn n rest) with ([(k, t)] ++ firstn n rest).
        rewrite filter_app. unfold evict_all at 1. rewrite fold_left_app.
        fold (evict_all (filter (invisible (heap s)) [(k, t)]) s).
        now rewrite <- Hs1. }
      destruct (within_limits maxSize maxBytes s1) eqn:Hw.
      + exists 1%nat. split; [cbn; lia|].
        split; [rewrite (Hcons O); reflexivity|].
        split; [now left|]. intros j' Hj; lia.
      + destruct (IH s1) as (j & Hj & He & Hfit & Hmin).
        exists (S j). split; [cbn; lia|].
        split; [rewrite Hcons; exact He|].
        split; [destruct Hfit as [Hfit|Hfit]; [now left|right; cbn; lia]|].
        intros j' Hj'. destruct j' as [|j']; [lia|]. rewrite Hcons.
        destruct j' as [|j'].
        * cbn. exact Hw.
        * apply Hmin. lia. }
  destruct (H (_cache s) s) as (j & Hj & He & Hfit & Hmin).
  exists j. split; [exact Hj|]. split; [exact He|].
  split; [rewrite He; apply evict_all_log|]. split; assumption.
Qed.

(** * After a rebuild the resident headers form a forest *)

(** X16.  After [_rebuildTree] the resident headers form a forest: the
    links ascend in level, the children of a resident header are resident
    and name it as their parent, and the parent of a resident header is
    resident and lists it among its children. *)
Theorem rebuildTree_forest : forall s,
  Inv s -> kids_ok (heap s) ->
  links_ascend (heap (_rebuildTree s)) /\
  NoDup (map_values (_cache s)) /\
  (forall r, In r (map_values (_cache s)) ->
     (r < size (heap (_rebuildTree s)))%nat) /\
  (forall x c, In x (map_values (_cache s)) ->
     In c (children (heap (_rebuildTree s) x)) ->
     In c (map_values (_cache s)) /\
     parent (heap (_rebuildTree s) c) = Some x) /\
  (forall x p, In x (map_values (_cache s)) ->
     parent (heap (_rebuildTree s) x) = Some p ->
     In p (map_values (_cache s)) /\
     In x (children (heap (_rebuildTree s) p))).
Proof.
  intros s Hinv K.
  destruct (rebuildTree_relinked s) as (Q & I & F & N & P & C).
  destruct (rebuildTree_spec s Hinv) as (_ & _ & _ & T & R).
  split; [eapply tree_links_ascend; [exact T|now apply kids_ok_rebuildTree]|].
  split; [apply Hinv|].
  split.
  { intros r Hr. apply In_values_inv in Hr. destruct Hr as [k Hk].
    apply (inv_entry _ _ T _ _ Hk). }
  split.
  - intros x c Hx Hc. rewrite (C x Hx) in Hc. apply filter_In in Hc.
    destruct Hc as [Hc Hpt]. split; [exact Hc|].
    rewrite (P c Hc), (proj2 (includes_In _ _) Hc).
    unfold points_to in Hpt. destruct (nearest_ancestor s c) as [q|];
      [|discriminate].
    apply Nat.eqb_eq in Hpt. now subst.
  - intros x p Hx Hp. apply In_values_inv in Hx. destruct Hx as [k Hk].
    destruct (R k x p Hk Hp) as [k' Hk'].
    split; [eapply In_values; eauto|].
    apply (inv_child _ _ T _ _ _ Hk Hp).
Qed.

(** * reloadAll followed by update *)

Lemma reloadAll_loop_view : forall entries s,
  _viewport (reloadAll_loop entries s) = _viewport s /\
  _modelMatrix (reloadAll_loop entries s) = _modelMatrix s /\
  opts (reloadAll_loop entries s) = opts s.
Proof.
  induction entries as [|[k t] rest IH]; intros s; cbn [reloadAll_loop]; auto.
  destruct (negb _).
  - destruct (IH (with_cache (map_delete k (_cache s)) s)) as (A & B & C).
    rewrite A, B, C. auto.
  - destruct (IH (modify t setNeedsReload_tile s)) as (A & B & C).
    rewrite A, B, C. auto.
Qed.

Lemma selected_in_In : forall s sel t,
  _selectedTiles s = Some sel -> (selected_in s t = true <-> In t sel).
Proof.
  intros s sel t H. unfold selected_in. rewrite H. apply includes_In.
Qed.

Lemma reloadAll_cache_selected : forall s sel,
  Inv s -> _selectedTiles s = Some sel ->
  forall e, In e (_cache (reloadAll s)) <-> In e (_cache s) /\ In (snd e) sel.
Proof.
  intros s sel Hinv Hsel e. unfold reloadAll. rewrite reloadAll_loop_cache.
  split.
  - intros [He Hd]. split; [exact He|].
    apply (selected_in_In s sel _ Hsel).
    destruct (selected_in s (snd e)) eqn:E; [reflexivity|].
    exfalso. apply (Hd e He E). reflexivity.
  - intros [He Hs]. split; [exact He|]. intros d Hd Hns Heq.
    destruct d as [kd td], e as [ke te]; cbn [fst snd] in *. subst kd.
    assert (td = te) by (eapply NoDup_keys_inj; [apply Hinv|exact Hd|exact He]).
    subst td. apply (selected_in_In s sel _ Hsel) in Hs. congruence.
Qed.

(** The reload branch of [update] does not return: every element of the
    new selection is [undefined]. *)
Lemma update_reload_branch : forall s viewport modelMatrix idx,
  _viewport s = Some viewport ->
  Matrix4_equals (new_Matrix4 modelMatrix) (_modelMatrix s) = true ->
  tileset_needsReload s = true ->
  update viewport modelMatrix idx s = None.
Proof.
  intros s viewport modelMatrix idx Hv Hm Hnr.
  unfold update, update_before_resize, update_select.
  rewrite Hv, Hm. cbn [viewport_equals]. rewrite Nat.eqb_refl.
  cbn [negb orb]. rewrite Hnr.
  unfold tileset_needsReload in Hnr.
  destruct (_selectedTiles s) as [sel|]; [|reflexivity].
  rewrite reget_tiles_cases. destruct sel; [discriminate|reflexivity].
Qed.

(** X21.  After [reloadAll], when some selected tile is resident, [update]
    with the stored viewport and model matrix does not return: the reload
    branch looks every selected tile up under the key of the object
    [{index: tile.index}], finds none, and [updateTileStates] throws on the
    first [undefined] of the new selection. *)
Theorem reloadAll_then_update_throws :
  forall s sel t viewport modelMatrix tileIndices,
  _selectedTiles s = Some sel ->
  In t sel -> In t (map_values (_cache s)) ->
  _viewport s = Some viewport ->
  Matrix4_equals (new_Matrix4 modelMatrix) (_modelMatrix s) = true ->
  tileset_needsReload (reloadAll s) = true /\
  update viewport modelMatrix tileIndices (reloadAll s) = None.
Proof.
  intros s sel t viewport modelMatrix idx Hsel Ht Hres Hv Hm.
  destruct (reloadAll_loop_fields (_cache s) s) as (_ & Hselr & _).
  fold (reloadAll s) in Hselr. rewrite Hsel in Hselr.
  destruct (reloadAll_loop_view (_cache s) s) as (Hvr & Hmr & _).
  fold (reloadAll s) in Hvr, Hmr.
  assert (Hnr : tileset_needsReload (reloadAll s) = true).
  { unfold tileset_needsReload. rewrite Hselr. apply existsb_exists.
    exists t. split; [exact Ht|].
    apply In_values_inv in Hres. destruct Hres as [k Hk].
    unfold needsReload, reloadAll.
    eapply reloadAll_loop_flag_set; [exact Hk|].
    now apply (selected_in_In s sel). }
  split; [exact Hnr|].
  apply update_reload_branch; [congruence|congruence|exact Hnr].
Qed.

(** Selecting again, by their coordinates, tiles that are resident and
    flagged for reload. *)
Lemma get_tiles_reload : forall sel s,
  Inv s -> NoDup sel ->
  (forall t, In t sel ->
     In t (map_values (_cache s)) /\ needsReload (heap s t) = true) ->
  exists s',
    get_tiles (map (fun t => index (heap s t)) sel) s = Some (sel, s') /\
    log s' = log s ++ map LoadData sel /\
    quiet s s' /\ stable shape (heap s) (heap s').
Proof.
  induction sel as [|t rest IH]; intros s Hinv Hnd Hsel;
    cbn [get_tiles map].
  - exists s. split; [reflexivity|]. cbn. rewrite app_nil_r.
    split; [reflexivity|]. split; [apply quiet_refl|apply stable_refl].
  - inversion Hnd as [|? ? Hnotin Hnd']; subst.
    destruct (Hsel t (or_introl eq_refl)) as [Hres Hflag].
    apply In_values_inv in Hres. destruct Hres as [k Hk].
    destruct (inv_entry _ _ Hinv _ _ Hk) as [Hlt Hkey].
    assert (Hget : map_get (getTileCacheKey (index (heap s t))) (_cache s) = Some t).
    { rewrite <- Hkey. apply map_get_NoDup_In; [apply Hinv|exact Hk]. }
    unfold _getTile. rewrite Hget, Hflag. cbn [bind].
    set (s1 := emit (LoadData t) (modify t loadData_tile s)).
    assert (Q1 : quiet s s1) by apply quiet_load.
    assert (S1 : stable shape (heap s) (heap s1))
      by (unfold s1; state_simpl; apply stable_upd; reflexivity).
    assert (Hinv1 : Inv s1).
    { eapply Inv_quiet; eauto using shape_ident, shape_links. }
    destruct (IH s1 Hinv1 Hnd') as (s' & E & Hlog & Q & Sh).
    { intros x Hx. destruct (Hsel x (or_intror Hx)) as [Hr Hf].
      split; [exact Hr|].
      unfold s1. state_simpl. rewrite upd_other; [exact Hf|].
      intros ->; contradiction. }
    assert (Hmap : map (fun x => index (heap s x)) rest
                   = map (fun x => index (heap s1 x)) rest).
    { apply map_ext. intros x. symmetry.
      apply (ident_index _ _ _ (shape_ident _ _ S1)). }
    rewrite Hmap, E. cbn [bind]. exists s'. split; [reflexivity|].
    split.
    { rewrite Hlog. unfold s1. cbn [log emit modify with_heap map].
      now rewrite <- app_assoc. }
    split; [eapply quiet_trans; eauto|eapply stable_trans; eauto].
Qed.

Lemma prune_nothing : forall s,
  (forall r, In r (map_values (_cache s)) -> isSelected (heap s r) = true) ->
  _pruneRequests s = s.
Proof.
  intros s H. unfold _pruneRequests.
  assert (E : abortCandidates s = []).
  { unfold abortCandidates.
    induction (map_values (_cache s)) as [|r l IH]; cbn; [reflexivity|].
    rewrite (H r (or_introl eq_refl)). cbn. rewrite andb_false_r. cbn.
    apply IH. intros x Hx. apply H. now right. }
  rewrite E. reflexivity.
Qed.

(** X22.  The reload that [reloadAll] asks for happens at the next [update]
    whose viewport or model matrix is new: when the index generator gives
    the coordinates of the selected tiles again (distinct and resident),
    that [update] returns, calls [loadData] once on each selected tile, in
    selection order, and makes no other call, selects the same headers,
    and leaves in the cache exactly the entries of the selected tiles. *)
Theorem reloadAll_then_update_new_view :
  forall s sel viewport modelMatrix,
  reachable s ->
  _selectedTiles s = Some sel -> NoDup sel ->
  (forall t, In t sel -> In t (map_values (_cache s))) ->
  viewport_equals viewport (_viewport s) = false \/
  Matrix4_equals (new_Matrix4 modelMatrix) (_modelMatrix s) = false ->
  exists s',
    update viewport modelMatrix (map (fun t => index (heap s t)) sel)
      (reloadAll s) = Some s' /\
    log s' = log s ++ map LoadData sel /\
    _selectedTiles s' = Some sel /\
    (forall e, In e (_cache s') <-> In e (_cache s) /\ In (snd e) sel).
Proof.
  intros s sel viewport modelMatrix Hr Hsel Hnd Hres Hnew.
  pose proof (reachable_Inv _ Hr) as Hinv.
  assert (Hr' : reachable (reloadAll s))
    by (eapply reach_step; [exact Hr|apply step_reloadAll]).
  pose proof (reachable_Inv _ Hr') as Hinv'.
  pose proof (reachable_kids_ok _ Hr') as K'.
  destruct (reachable_tiles_inv _ Hr') as (Hd' & _).
  destruct (reloadAll_loop_fields (_cache s) s) as (Hlog & Hselr & Hsize).
  fold (reloadAll s) in Hlog, Hselr, Hsize. rewrite Hsel in Hselr.
  destruct (reloadAll_loop_view (_cache s) s) as (Hvr & Hmr & _).
  fold (reloadAll s) in Hvr, Hmr.
  destruct (reloadAll_loop_shape (_cache s) s) as (_ & _ & Shr & _).
  fold (reloadAll s) in Shr.
  pose proof (reloadAll_cache_selected s sel Hinv Hsel) as Hcache.
  set (s0 := with_viewport (Some viewport)
               (if negb (Matrix4_equals (new_Matrix4 modelMatrix)
                           (_modelMatrix (reloadAll s)))
                then with_modelMatrix (new_Matrix4 modelMatrix) (reloadAll s)
                else reloadAll s)).
  assert (Hh0 : heap s0 = heap (reloadAll s))
    by (unfold s0; destruct (negb _); reflexivity).
  assert (Hc0 : _cache s0 = _cache (reloadAll s))
    by (unfold s0; destruct (negb _); reflexivity).
  assert (Hl0 : log s0 = log (reloadAll s))
    by (unfold s0; destruct (negb _); reflexivity).
  assert (Hd0 : _dirty s0 = false)
    by (unfold s0; destruct (negb _); exact Hd').
  assert (Hinv0 : Inv s0) by (unfold s0; destruct (negb _); exact Hinv').
  assert (K0 : kids_ok (heap s0)) by (rewrite Hh0; exact K').
  assert (Hflag : forall t, In t sel ->
            In t (map_values (_cache s0)) /\ needsReload (heap s0 t) = true).
  { intros t Ht. specialize (Hres t Ht). apply In_values_inv in Hres.
    destruct Hres as [k Hk]. rewrite Hc0, Hh0. split.
    - eapply In_values. apply Hcache. split; [exact Hk|exact Ht].
    - unfold needsReload, reloadAll.
      eapply reloadAll_loop_flag_set; [exact Hk|].
      now apply (selected_in_In s sel). }
  destruct (get_tiles_reload sel s0 Hinv0 Hnd Hflag)
    as (s3 & E3 & Hlog3 & Q3 & S3).
  assert (Hidx : map (fun t => index (heap s t)) sel
                 = map (fun t => index (heap s0 t)) sel).
  { apply map_ext. intros t. rewrite Hh0. symmetry.
    apply (ident_index _ _ _ (shape_ident _ _ Shr)). }
  set (s1 := with_selectedTiles (Some sel) s3).
  assert (Hus : update_select viewport modelMatrix
                  (map (fun t => index (heap s t)) sel) (reloadAll s)
                = Some s1).
  { unfold update_select. rewrite Hvr, Hmr.
    assert (Hb : negb (viewport_equals viewport (_viewport s))
                 || negb (Matrix4_equals (new_Matrix4 modelMatrix)
                            (_modelMatrix s)) = true).
    { destruct Hnew as [-> | ->]; [reflexivity|apply orb_true_r]. }
    rewrite Hb. rewrite <- Hmr. fold s0. rewrite Hidx, E3. cbn [bind].
    fold s1.
    assert (Hd1 : _dirty s1 = false).
    { unfold s1. state_simpl. destruct Q3 as (_ & _ & _ & _ & _ & -> & _).
      exact Hd0. }
    now rewrite Hd1. }
  assert (Hsel1 : _selectedTiles s1 = Some sel) by reflexivity.
  assert (Hinv1 : Inv s1).
  { unfold s1, Inv. state_simpl.
    apply (Inv_quiet s0 s3); eauto using shape_ident, shape_links. }
  assert (K1 : kids_ok (heap s1)).
  { unfold s1. state_simpl.
    eapply kids_ok_stable; eauto using shape_ident, shape_links. }
  destruct (updateTileStates_total s1 sel Hinv1 K1 Hsel1) as (ch & s2 & E2).
  destruct (updateTileStates_spec _ _ _ E2) as (Q2 & Hlog2 & _ & _).
  destruct (updateTileStates_detail _ _ _ _ E2 Hsel1 (inv_values _ _ Hinv1))
    as (_ & _ & D3 & _).
  assert (Hc1 : _cache s1 = _cache (reloadAll s)).
  { unfold s1. state_simpl. destruct Q3 as (_ & -> & _). exact Hc0. }
  assert (Hc2 : _cache s2 = _cache s1) by apply Q2.
  assert (Hprune : _pruneRequests s2 = s2).
  { apply prune_nothing. intros r Hin. apply D3.
    rewrite Hc2, Hc1 in Hin. apply In_values_inv in Hin.
    destruct Hin as [k Hk]. apply Hcache in Hk. apply Hk. }
  assert (Hd2 : _dirty s2 = false).
  { destruct Q2 as (_ & _ & _ & _ & _ & -> & _).
    unfold s1. state_simpl. destruct Q3 as (_ & _ & _ & _ & _ & -> & _).
    exact Hd0. }
  assert (Hs2 : _selectedTiles s2 = Some sel).
  { destruct Q2 as (_ & _ & _ & -> & _). exact Hsel1. }
  exists (if ch then with_frameNumber (_frameNumber s2 + 1) s2 else s2).
  split.
  { unfold update, update_before_resize. rewrite Hus. cbn [bind].
    rewrite E2. cbn [bind]. rewrite Hprune, Hd2. reflexivity. }
  split.
  { transitivity (log s2); [destruct ch; reflexivity|].
    rewrite Hlog2. unfold s1. state_simpl. rewrite Hlog3, Hl0, Hlog.
    reflexivity. }
  split; [rewrite <- Hs2; destruct ch; reflexivity|].
  intros e.
  assert (Hce : _cache (if ch then with_frameNumber (_frameNumber s2 + 1) s2 else s2)
                = _cache (reloadAll s))
    by (destruct ch; cbn; congruence).
  rewrite Hce. apply Hcache.
Qed.

(** * The placeholder searches return on every reachable tileset *)

(** X17.  In every reachable tileset [getPlaceholderInAncestors] and
    [getPlaceholderInChildren] return from every allocated header: the
    [parent] of a header is an allocated header of a lower level and its
    [children] are allocated headers of a higher level. *)
Theorem reachable_walks_terminate : forall s t,
  reachable s -> (t < size (heap s))%nat ->
  (exists res, getPlaceholderInAncestors t (heap s) = Some res) /\
  (exists h', getPlaceholderInChildren t (heap s) = Some h') /\
  (forall p, parent (heap s t) = Some p ->
     (p < size (heap s))%nat /\ zoom (heap s p) < zoom (heap s t)) /\
  (forall c, In c (children (heap s t)) ->
     (c < size (heap s))%nat /\ zoom (heap s t) < zoom (heap s c)).
Proof.
  intros s t Hr Ht.
  assert (Hl : links_ascend (heap s)).
  { apply (tree_links_ascend (_cache s));
      [now apply reachable_Inv|now apply reachable_kids_ok]. }
  split; [now apply getPlaceholderInAncestors_total|].
  split; [now apply getPlaceholderInChildren_total|].
  apply (Hl t Ht).
Qed.

(** * update with an unchanged view *)

(** X10.  [update] with the stored viewport and model matrix, when no
    selected tile needs a reload, leaves the cache, the selection and the
    tile list as they are and creates no header; the only calls it makes
    are [abort] on resident tiles that are neither selected nor visible
    afterwards. *)
Theorem update_unchanged_view : forall s viewport modelMatrix tileIndices s',
  reachable s ->
  _viewport s = Some viewport ->
  Matrix4_equals (new_Matrix4 modelMatrix) (_modelMatrix s) = true ->
  tileset_needsReload s = false ->
  update viewport modelMatrix tileIndices s = Some s' ->
  _cache s' = _cache s /\ _selectedTiles s' = _selectedTiles s /\
  _tiles s' = _tiles s /\ size (heap s') = size (heap s) /\
  exists aborted,
    log s' = log s ++ map Abort aborted /\
    forall t, In t aborted ->
      In t (map_values (_cache s)) /\ isSelected (heap s' t) = false /\
      isVisible (heap s' t) = false.
Proof.
  intros s viewport modelMatrix idx s' Hr Hv Hm Hnr Hu.
  destruct (reachable_tiles_inv _ Hr) as (Hd & _).
  assert (Hus : update_select viewport modelMatrix idx s = Some s).
  { unfold update_select. rewrite Hv, Hm. cbn [viewport_equals].
    rewrite Nat.eqb_refl. cbn [negb orb]. now rewrite Hnr. }
  unfold update, update_before_resize in Hu. rewrite Hus in Hu. cbn [bind] in Hu.
  destruct (updateTileStates s) as [[ch s2]|] eqn:E2; cbn [bind] in Hu;
    [|discriminate].
  destruct (updateTileStates_spec _ _ _ E2) as (Q2 & Hlog2 & S2 & sel & Hsel).
  pose proof Q2 as (_ & Q2c & _ & Q2s & _ & Q2d & _).
  assert (Ht2 : _tiles s2 = _tiles s).
  { unfold updateTileStates in E2. rewrite Hsel in E2.
    destruct (save_and_reset _ _) as [vs h1].
    destruct (STRATEGIES _ _ _); cbn in E2; [|discriminate].
    injection E2 as _ <-. reflexivity. }
  pose proof (prune_loop_spec (maxRequests (opts s2)) (abortCandidates s2)
                (ongoingRequestCount s2) s2) as P.
  cbn zeta in P. fold (_pruneRequests s2) in P.
  set (aborted := firstn (abort_count (maxRequests (opts s2))
                            (ongoingRequestCount s2)
                            (length (abortCandidates s2)))
                         (abortCandidates s2)) in P.
  destruct P as (P1 & P2 & P3 & P4 & P5 & _ & _ & _ & P9).
  assert (Hd3 : _dirty (_pruneRequests s2) = false) by congruence.
  rewrite Hd3 in Hu. cbn [bind] in Hu.
  assert (Hs' : _cache s' = _cache (_pruneRequests s2) /\
                _selectedTiles s' = _selectedTiles (_pruneRequests s2) /\
                _tiles s' = _tiles (_pruneRequests s2) /\
                heap s' = heap (_pruneRequests s2) /\
                log s' = log (_pruneRequests s2))
    by (destruct ch; injection Hu as <-; auto).
  destruct Hs' as (Ec & Es & Et & Eh & El).
  split; [congruence|]. split; [congruence|].
  split; [rewrite Et; unfold _pruneRequests; rewrite prune_loop_tiles; exact Ht2|].
  split.
  { rewrite Eh, P9. apply (proj1 (S2 _ ident ignores_flags_ident)). }
  exists aborted. split; [rewrite El, P1, Hlog2; reflexivity|].
  intros t Ht. apply In_firstn in Ht. unfold abortCandidates in Ht.
  apply filter_In in Ht. destruct Ht as [Hin Hc].
  rewrite !andb_true_iff, !negb_true_iff in Hc. destruct Hc as [[_ Hns] Hnv].
  split; [now rewrite <- Q2c|].
  pose proof (prune_loop_quiet (maxRequests (opts s2)) (abortCandidates s2)
                (ongoingRequestCount s2) s2) as [_ S3].
  fold (_pruneRequests s2) in S3. apply shape_flags in S3.
  rewrite Eh, (flags_isSelected _ _ _ S3), (flags_isVisible _ _ _ S3). auto.
Qed.

(** * The text of a key *)

Lemma to_int_not_nil : forall z,
  Z.to_int z <> Decimal.Pos Decimal.Nil /\ Z.to_int z <> Decimal.Neg Decimal.Nil.
Proof.
  intros z. split; intros H; pose proof (DecimalZ.of_to z) as E; rewrite H in E;
    cbn in E; subst z; cbn in H; discriminate.
Qed.

Lemma number_text_inj : forall a b, number_text a = number_text b -> a = b.
Proof.
  intros a b H. unfold number_text in H.
  destruct (to_int_not_nil a) as [A1 A2]. destruct (to_int_not_nil b) as [B1 B2].
  pose proof (DecimalString.NilZero.isi _ A1 A2) as Ea.
  pose proof (DecimalString.NilZero.isi _ B1 B2) as Eb.
  rewrite H in Ea. rewrite Ea in Eb. injection Eb as Eb.
  now apply DecimalZ.to_int_inj.
Qed.

Lemma uint_text_digits : forall d,
  all_digits (DecimalString.NilEmpty.string_of_uint d) = true.
Proof. induction d; cbn; auto. Qed.

Lemma uint_text_shape : forall d,
  all_digits (DecimalString.NilZero.string_of_uint d) = true /\
  DecimalString.NilZero.string_of_uint d <> String.EmptyString.
Proof.
  intros d. unfold DecimalString.NilZero.string_of_uint. destruct d; cbn;
    (split; [try reflexivity; apply uint_text_digits|discriminate]).
Qed.

Lemma number_text_shape : forall n,
  exists ds,
    all_digits ds = true /\ ds <> String.EmptyString /\
    (number_text n = ds \/ number_text n = String.String hyphen ds).
Proof.
  intros n. unfold number_text. destruct (Z.to_int n) as [d|d]; cbn;
    exists (DecimalString.NilZero.string_of_uint d);
    destruct (uint_text_shape d) as [H1 H2]; auto.
Qed.

Lemma digits_split : forall d1 d2 r1 r2,
  all_digits d1 = true -> all_digits d2 = true ->
  String.append d1 (String.String hyphen r1)
  = String.append d2 (String.String hyphen r2) ->
  d1 = d2 /\ r1 = r2.
Proof.
  induction d1 as [|c1 d1 IH]; intros [|c2 d2] r1 r2 H1 H2 E; cbn in *.
  - injection E as E. auto.
  - injection E as Ec E. subst c2. cbn in H2. discriminate.
  - injection E as Ec E. subst c1. cbn in H1. discriminate.
  - injection E as Ec E. subst c2.
    apply andb_true_iff in H1, H2.
    destruct (IH d2 r1 r2) as [-> ->]; tauto.
Qed.

Lemma digits_not_hyphen : forall ds x y,
  all_digits ds = true -> ds <> String.EmptyString ->
  String.append ds x <> String.String hyphen y.
Proof.
  intros [|c ds] x y Hd Hn; [contradiction|]. cbn in Hd.
  apply andb_true_iff in Hd. destruct Hd as [Hc _].
  cbn. intros Heq. injection Heq as Heq _. subst c. discriminate.
Qed.

Lemma number_split : forall a b r1 r2,
  String.append (number_text a) (String.String hyphen r1)
  = String.append (number_text b) (String.String hyphen r2) ->
  a = b /\ r1 = r2.
Proof.
  intros a b r1 r2 E.
  destruct (number_text_shape a) as (da & Da & Na & Ha).
  destruct (number_text_shape b) as (db & Db & Nb & Hb).
  assert (Htext : number_text a = number_text b /\ r1 = r2).
  { destruct Ha as [Ha|Ha], Hb as [Hb|Hb]; rewrite Ha, Hb in *.
    - destruct (digits_split _ _ _ _ Da Db E) as [-> ->]. auto.
    - exfalso. cbn in E. exact (digits_not_hyphen _ _ _ Da Na E).
    - exfalso. cbn in E. symmetry in E.
      exact (digits_not_hyphen _ _ _ Db Nb E).
    - cbn in E. injection E as E.
      destruct (digits_split _ _ _ _ Da Db E) as [-> ->]. auto. }
  destruct Htext as [Ht ->]. split; [now apply number_text_inj|reflexivity].
Qed.

(** X2.  The text [`${x}-${y}-${z}`] that [getTileCacheKey] builds (each
    integer printed with all its digits, as JavaScript does below 10^21)
    is the same for two coordinates only when the coordinates are equal,
    negative components included: the triple that stands for the key in
    the model identifies the same keys as the text. *)
Theorem getTileCacheKey_text_unique : forall i j,
  getTileCacheKey_text i = getTileCacheKey_text j <->
  getTileCacheKey i = getTileCacheKey j.
Proof.
  intros [x1 y1 z1] [x2 y2 z2]. unfold getTileCacheKey_text, getTileCacheKey.
  cbn [ix iy iz]. split.
  - intros E. apply number_split in E. destruct E as [-> E].
    apply number_split in E. destruct E as [-> E].
    apply number_text_inj in E. now subst.
  - intros E. injection E as -> -> ->. reflexivity.
Qed.

(** * The theorems on concrete tilesets *)

Lemma reachable_skip_s1 : reachable skip_s1.
Proof. apply reachable_run_update, reach_new. Qed.

Lemma reachable_skip_s2 : reachable skip_s2.
Proof. apply reachable_run_update, reachable_skip_s1. Qed.

Lemma skip_update : update 1%nat None [mkIndex 0 0 2] skip_s1 = Some skip_s2.
Proof. vm_compute; reflexivity. Qed.

Lemma skip_values : map_values (_cache skip_s2) = [0; 1]%nat.
Proof. vm_compute; reflexivity. Qed.

Lemma skip_size : size (heap skip_s2) = 2%nat.
Proof. vm_compute; reflexivity. Qed.

Lemma reachable_one_header_per_index_witness :
  (forall k r, In (k, r) (_cache skip_s2) ->
     k = getTileCacheKey (index (heap skip_s2 r)) /\
     map_get (getTileCacheKey (index (heap skip_s2 r))) (_cache skip_s2) = Some r /\
     zoom (heap skip_s2 r) = getTileZoom (index (heap skip_s2 r))) /\
  (forall k1 r1 k2 r2, In (k1, r1) (_cache skip_s2) -> In (k2, r2) (_cache skip_s2) ->
     index (heap skip_s2 r1) = index (heap skip_s2 r2) -> r1 = r2).
Proof. apply (reachable_one_header_per_index skip_s2), reachable_skip_s2. Defined.

Lemma getTile_create_then_lookup_witness :
  (_viewport skip_s1 = None ->
   map_get (getTileCacheKey (mkIndex 0 0 2)) (_cache skip_s1) = None ->
   _getTile (mkIndex 0 0 2) true skip_s1 = None) /\
  (_viewport skip_s1 <> None \/
   map_get (getTileCacheKey (mkIndex 0 0 2)) (_cache skip_s1) <> None ->
   exists t s1,
     _getTile (mkIndex 0 0 2) true skip_s1 = Some (Some t, s1) /\
     index (heap s1 t) = mkIndex 0 0 2 /\
     zoom (heap s1 t) = getTileZoom (mkIndex 0 0 2) /\
     map_get (getTileCacheKey (mkIndex 0 0 2)) (_cache s1) = Some t /\
     forall create,
       exists s2,
         _getTile (mkIndex 0 0 2) create s1 = Some (Some t, s2) /\
         _cache s2 = _cache s1 /\ size (heap s2) = size (heap s1)).
Proof.
  apply (getTile_create_then_lookup skip_s1 (mkIndex 0 0 2)).
  exact reachable_skip_s1.
Defined.

Lemma full_values : map_values (_cache full_s1) = [0; 1]%nat.
Proof. vm_compute; reflexivity. Qed.

Lemma finalize_spec_witness :
  _cache (finalize full_s1) = [] /\ _tiles (finalize full_s1) = [] /\
  _selectedTiles (finalize full_s1) = None /\
  tileset_isLoaded (finalize full_s1) = false /\
  tileset_needsReload (finalize full_s1) = false /\
  log (finalize full_s1)
    = log full_s1 ++ map Abort (filter (fun t => isLoading (heap full_s1 t))
                                       (map_values (_cache full_s1))) /\
  (forall r, heap (finalize full_s1) r
             = if includes (map_values (_cache full_s1)) r
               then abort_tile (heap full_s1 r) else heap full_s1 r) /\
  _viewport (finalize full_s1) = _viewport full_s1 /\
  _cacheByteSize (finalize full_s1) = _cacheByteSize full_s1 /\
  _frameNumber (finalize full_s1) = _frameNumber full_s1.
Proof.
  apply (finalize_spec full_s1). rewrite full_values.
  repeat constructor; cbn; intuition lia.
Defined.

Lemma update_after_finalize_throws_witness :
  update 0%nat None [mkIndex 0 0 0] (finalize skip_s1) = None.
Proof.
  apply (update_after_finalize_throws skip_s1 0%nat None [mkIndex 0 0 0]).
  - vm_compute; reflexivity.
  - vm_compute; reflexivity.
Defined.

Lemma update_selected_flags_witness :
  exists sel,
    _selectedTiles skip_s2 = Some sel /\
    (forall r, In r sel -> isSelected (heap skip_s2 r) = true) /\
    (forall r, In r (map_values (_cache skip_s2)) ->
       (isSelected (heap skip_s2 r) = true <-> In r sel)).
Proof.
  apply (update_selected_flags skip_s1 1%nat None [mkIndex 0 0 2] skip_s2).
  - exact reachable_skip_s1.
  - exact skip_update.
Defined.

Lemma update_frame_counter_witness :
  (_frameNumber skip_s2 = _frameNumber skip_s1 /\
   (forall r, In r (map_values (_cache skip_s1)) ->
      isVisible (heap skip_s2 r) = isVisible (heap skip_s1 r)) /\
   (forall r, In r (map_values (_cache skip_s2)) ->
      (size (heap skip_s1) <= r)%nat -> isVisible (heap skip_s2 r) = false))
  \/
  (_frameNumber skip_s2 = _frameNumber skip_s1 + 1 /\
   exists r, (r < size (heap skip_s2))%nat /\
     ((r < size (heap skip_s1))%nat /\
      isVisible (heap skip_s2 r) <> isVisible (heap skip_s1 r)
      \/ (size (heap skip_s1) <= r)%nat /\ isVisible (heap skip_s2 r) = true)).
Proof.
  apply (update_frame_counter skip_s1 1%nat None [mkIndex 0 0 2] skip_s2).
  - exact reachable_skip_s1.
  - exact skip_update.
Defined.

Lemma update_selects_indices_witness :
  exists sel,
    _selectedTiles skip_s2 = Some sel /\
    map (fun t => index (heap skip_s2 t)) sel = [mkIndex 0 0 2] /\
    (forall t, In t sel ->
       isSelected (heap skip_s2 t) = true /\
       zoom (heap skip_s2 t) = getTileZoom (index (heap skip_s2 t))) /\
    _viewport skip_s2 = Some 1%nat.
Proof.
  apply (update_selects_indices skip_s1 1%nat None [mkIndex 0 0 2] skip_s2).
  - exact reachable_skip_s1.
  - left. vm_compute; reflexivity.
  - exact skip_update.
Defined.

Lemma reachable_tiles_sorted_witness :
  _dirty skip_s2 = false /\
  StronglySorted (level_le (heap skip_s2)) (_tiles skip_s2) /\
  NoDup (_tiles skip_s2) /\
  incl (map_values (_cache skip_s2)) (_tiles skip_s2).
Proof. apply (reachable_tiles_sorted skip_s2), reachable_skip_s2. Defined.

Lemma skip_caches :
  _cache skip_s1 = [((0, 0, 0), 0%nat)] /\
  _cache skip_s2 = [((0, 0, 0), 0%nat); ((0, 0, 2), 1%nat)].
Proof. split; vm_compute; reflexivity. Qed.

Lemma update_publishes_tiles_witness :
  _tiles skip_s2 = sort_by_zoom (heap skip_s2) (map_values (_cache skip_s2)) /\
  Permutation (_tiles skip_s2) (map_values (_cache skip_s2)) /\
  StronglySorted (level_le (heap skip_s2)) (_tiles skip_s2).
Proof.
  apply (update_publishes_tiles skip_s1 1%nat None [mkIndex 0 0 2] skip_s2).
  - exact reachable_skip_s1.
  - exact skip_update.
  - destruct skip_caches as [-> ->]. discriminate.
Defined.

Lemma rebuildTree_nearest_witness :
  (forall p, parent (heap (_rebuildTree skip_s2) 1%nat) = Some p ->
     In p (map_values (_cache skip_s2)) /\
     exists m, (0 < m)%nat /\
       index (heap skip_s2 p)
       = Nat.iter m getParentIndex (index (heap skip_s2 1%nat)) /\
       default_zoom (_minZoom skip_s2) <= zoom (heap skip_s2 p) /\
       forall j r, (0 < j < m)%nat -> In r (map_values (_cache skip_s2)) ->
         index (heap skip_s2 r)
         <> Nat.iter j getParentIndex (index (heap skip_s2 1%nat))) /\
  (parent (heap (_rebuildTree skip_s2) 1%nat) = None ->
     forall j r, (0 < j)%nat ->
       Z.of_nat j <= zoom (heap skip_s2 1%nat) - default_zoom (_minZoom skip_s2) ->
       In r (map_values (_cache skip_s2)) ->
       index (heap skip_s2 r)
       <> Nat.iter j getParentIndex (index (heap skip_s2 1%nat))).
Proof.
  apply (rebuildTree_nearest skip_s2 1%nat).
  - apply reachable_Inv, reachable_skip_s2.
  - rewrite skip_values. cbn; auto.
Defined.

Lemma reachable_walks_terminate_witness :
  (exists res, getPlaceholderInAncestors 1%nat (heap skip_s2) = Some res) /\
  (exists h', getPlaceholderInChildren 1%nat (heap skip_s2) = Some h') /\
  (forall p, parent (heap skip_s2 1%nat) = Some p ->
     (p < size (heap skip_s2))%nat /\
     zoom (heap skip_s2 p) < zoom (heap skip_s2 1%nat)) /\
  (forall c, In c (children (heap skip_s2 1%nat)) ->
     (c < size (heap skip_s2))%nat /\
     zoom (heap skip_s2 1%nat) < zoom (heap skip_s2 c)).
Proof.
  apply (reachable_walks_terminate skip_s2 1%nat).
  - exact reachable_skip_s2.
  - rewrite skip_size. lia.
Defined.

Lemma update_returns_witness :
  exists s', update 5%nat None [mkIndex 3 1 2] skip_s2 = Some s'.
Proof.
  apply (update_returns skip_s2 5%nat None [mkIndex 3 1 2]).
  - exact reachable_skip_s2.
  - left. vm_compute; reflexivity.
Defined.

Lemma family_parents :
  parent (heap family_s 0%nat) = None /\
  parent (heap family_s 1%nat) = Some 0%nat /\
  parent (heap family_s 2%nat) = Some 0%nat.
Proof. repeat split; vm_compute; reflexivity. Qed.

Lemma default_shows_placeholders_witness :
  exists h',
    updateTileStateDefault [0; 1; 2]%nat (heap family_s) = Some h' /\
    forall u, In u [0; 1; 2]%nat ->
      (isVisible (h' u) = true <->
       exists t, In t [0; 1; 2]%nat /\ isSelected (heap family_s t) = true /\
                 placeholder (heap family_s) t u).
Proof.
  apply (default_shows_placeholders [0; 1; 2]%nat (heap family_s)).
  - exact family_links_ascend.
  - intros r Hr. rewrite family_size. cbn in Hr. intuition lia.
Defined.

Lemma replace_covers_selected_witness :
  exists h',
    updateTileStateReplace [0; 1; 2]%nat (heap family_s) = Some h' /\
    (forall u, In u [0; 1; 2]%nat -> isVisible (h' u) = true ->
       hasData (heap family_s u) = true) /\
    forall t a, In t [0; 1; 2]%nat -> isSelected (heap family_s t) = true ->
      first_with_data (heap family_s) t a ->
      exists v, up (heap family_s) a v /\ In v [0; 1; 2]%nat /\
                isVisible (h' v) = true.
Proof.
  destruct family_children as (C0 & C1 & C2).
  destruct family_parents as (P0 & P1 & P2).
  apply (replace_covers_selected [0; 1; 2]%nat (heap family_s)).
  - exact family_links_ascend.
  - repeat constructor; cbn; intuition lia.
  - intros r Hr. rewrite family_size. cbn in Hr. intuition lia.
  - intros x c Hx Hc. cbn in Hx.
    destruct Hx as [<-|[<-|[<-|[]]]].
    + rewrite C0 in Hc. cbn in Hc.
      destruct Hc as [<-|[<-|[]]]; assumption.
    + rewrite C1 in Hc. destruct Hc.
    + rewrite C2 in Hc. destruct Hc.
  - intros x p Hx Hp. cbn in Hx.
    destruct Hx as [<-|[<-|[<-|[]]]].
    + rewrite P0 in Hp. discriminate Hp.
    + rewrite P1 in Hp. injection Hp as <-. cbn; auto.
    + rewrite P2 in Hp. injection Hp as <-. cbn; auto.
Defined.

Lemma rebuildTree_forest_witness :
  links_ascend (heap (_rebuildTree skip_s2)) /\
  NoDup (map_values (_cache skip_s2)) /\
  (forall r, In r (map_values (_cache skip_s2)) ->
     (r < size (heap (_rebuildTree skip_s2)))%nat) /\
  (forall x c, In x (map_values (_cache skip_s2)) ->
     In c (children (heap (_rebuildTree skip_s2) x)) ->
     In c (map_values (_cache skip_s2)) /\
     parent (heap (_rebuildTree skip_s2) c) = Some x) /\
  (forall x p, In x (map_values (_cache skip_s2)) ->
     parent (heap (_rebuildTree skip_s2) x) = Some p ->
     In p (map_values (_cache skip_s2)) /\
     In x (children (heap (_rebuildTree skip_s2) p))).
Proof.
  apply (rebuildTree_forest skip_s2).
  - apply reachable_Inv, reachable_skip_s2.
  - apply reachable_kids_ok, reachable_skip_s2.
Defined.

Lemma reachable_reload_s : reachable reload_s.
Proof. do 2 apply reachable_run_update. apply reach_new. Qed.

Lemma reload_values : map_values (_cache reload_s) = [0; 1]%nat.
Proof. vm_compute; reflexivity. Qed.

Lemma reloadAll_then_update_throws_witness :
  tileset_needsReload (reloadAll reload_s) = true /\
  update 1%nat None [mkIndex 1 0 0] (reloadAll reload_s) = None.
Proof.
  apply (reloadAll_then_update_throws reload_s [1%nat] 1%nat 1%nat None
           [mkIndex 1 0 0]).
  - vm_compute; reflexivity.
  - cbn; auto.
  - rewrite reload_values. cbn; auto.
  - vm_compute; reflexivity.
  - vm_compute; reflexivity.
Defined.

Lemma reloadAll_then_update_new_view_witness :
  exists s',
    update 2%nat None (map (fun t => index (heap reload_s t)) [1%nat])
      (reloadAll reload_s) = Some s' /\
    log s' = log reload_s ++ map LoadData [1%nat] /\
    _selectedTiles s' = Some [1%nat] /\
    (forall e, In e (_cache s') <->
       In e (_cache reload_s) /\ In (snd e) [1%nat]).
Proof.
  apply (reloadAll_then_update_new_view reload_s [1%nat] 2%nat None).
  - exact reachable_reload_s.
  - vm_compute; reflexivity.
  - repeat constructor; cbn; intuition lia.
  - intros t Ht. rewrite reload_values. cbn in Ht |- *. intuition lia.
  - left. vm_compute; reflexivity.
Defined.

Lemma idle_update : update 1%nat None [] skip_s2 = Some idle_s.
Proof. vm_compute; reflexivity. Qed.

Lemma update_unchanged_view_witness :
  _cache idle_s = _cache skip_s2 /\
  _selectedTiles idle_s = _selectedTiles skip_s2 /\
  _tiles idle_s = _tiles skip_s2 /\
  size (heap idle_s) = size (heap skip_s2) /\
  exists aborted,
    log idle_s = log skip_s2 ++ map Abort aborted /\
    forall t, In t aborted ->
      In t (map_values (_cache skip_s2)) /\
      isSelected (heap idle_s t) = false /\
      isVisible (heap idle_s t) = false.
Proof.
  apply (update_unchanged_view skip_s2 1%nat None [] idle_s).
  - exact reachable_skip_s2.
  - vm_compute; reflexivity.
  - vm_compute; reflexivity.
  - vm_compute; reflexivity.
  - exact idle_update.
Defined.
